(** * MySQL -> PostgreSQL table-copy engine of the Ranger migration scripts

    Shallow embedding of [config.py], [migrate-data.py] and
    [verify-migration.py].

    The two database servers are external collaborators.  They are modelled
    by the module [DB]: a catalogue of relations (a finite map from names to
    relations), a finite map of sequences, and a connection that keeps the
    committed state, the state seen by the open transaction, the list of
    data-changing statements executed on it so far and the flag of an aborted
    transaction.  A statement that raises aborts the transaction: every
    later statement and query raises until the transaction ends.  [rollback]
    throws the uncommitted work away; [commit] makes the working state
    durable, except in an aborted transaction, which it ends as a rollback.

    The Python functions are embedded in the modules [Migrate] and [Verify],
    one per script, under their own names. *)

From stdpp Require Import gmap strings list fin_maps sorting pretty.

Open Scope string_scope.
Open Scope Z_scope.
Open Scope list_scope.

(** ** The database collaborator *)

Module DB.

(** Scalar values as the drivers hand them to Python. *)
Inductive value :=
| VNone
| VInt (z : Z)
| VBool (b : bool)
| VStr (s : string).

Definition row := list value.

Inductive relkind := BASE_TABLE | VIEW.

Global Instance relkind_eq_dec : EqDecision relkind.
Proof. solve_decision. Defined.

Record relation := mkRelation {
  rel_kind : relkind;
  rel_columns : list string;
  rel_rows : list row;
  rel_size : string
}.

(** [failing] are the relations on which every statement that names them
    raises (missing privilege, lock timeout, a name that needs quoting).
    [rejects t rows r] says that inserting [r] into [t], which holds
    [rows], violates a constraint.  [cascade t] are the relations cleared
    with [t] by TRUNCATE ... CASCADE. *)
Record database := mkDatabase {
  relations : gmap string relation;
  sequences : gmap string Z;
  failing : gset string;
  rejects : string → list row → row → bool;
  cascade : string → list string
}.

Definition with_relations (db : database) (m : gmap string relation) : database :=
  mkDatabase m (sequences db) (failing db) (rejects db) (cascade db).

Definition with_sequences (db : database) (s : gmap string Z) : database :=
  mkDatabase (relations db) s (failing db) (rejects db) (cascade db).

Definition set_rows (rows : list row) (r : relation) : relation :=
  mkRelation (rel_kind r) (rel_columns r) rows (rel_size r).

(** *** Read queries *)

(** SHOW TABLES *)
Definition show_tables (db : database) : list string :=
  (map_to_list (relations db)).*1.

(** SELECT table_name FROM information_schema.tables
    WHERE table_type = 'BASE TABLE' *)
Definition base_tables (db : database) : list string :=
  (map_to_list (filter (λ kv, rel_kind kv.2 = BASE_TABLE) (relations db))).*1.

(** SELECT EXISTS (... information_schema.tables ...): views are listed
    there as well. *)
Definition exists_in_tables (db : database) (name : string) : bool :=
  bool_decide (is_Some (relations db !! name)).

(** SELECT EXISTS (... information_schema.views ...) *)
Definition exists_in_views (db : database) (name : string) : bool :=
  match relations db !! name with
  | Some r => match rel_kind r with VIEW => true | BASE_TABLE => false end
  | None => false
  end.

Definition exists_in_sequences (db : database) (name : string) : bool :=
  bool_decide (is_Some (sequences db !! name)).

(** A query on a relation: [None] when it raises. *)
Definition readable (db : database) (name : string) : option relation :=
  if decide (name ∈ failing db) then None else relations db !! name.

(** SELECT * FROM t *)
Definition select_all (db : database) (name : string) : option (list row) :=
  rel_rows <$> readable db name.

(** SHOW COLUMNS FROM t *)
Definition show_columns (db : database) (name : string) : option (list string) :=
  rel_columns <$> readable db name.

(** SELECT COUNT( * ) FROM t *)
Definition select_count (db : database) (name : string) : option Z :=
  (λ r, Z.of_nat (length (rel_rows r))) <$> readable db name.

Definition select_size (db : database) (name : string) : option string :=
  rel_size <$> readable db name.

(** Position of the first occurrence, as Python's [list.index]. *)
Fixpoint index_of (x : string) (l : list string) : nat :=
  match l with
  | [] => 0%nat
  | y :: l' => if decide (x = y) then 0%nat else S (index_of x l')
  end.

(** MAX over one column: NULLs are ignored, [None] (inner) is the NULL of
    an empty aggregate, [None] (outer) a value that is no integer. *)
Fixpoint max_of_column (i : nat) (rows : list row) : option (option Z) :=
  match rows with
  | [] => Some None
  | r :: rows' =>
      match max_of_column i rows' with
      | None => None
      | Some m =>
          match r !! i with
          | Some (VInt z) => Some (Some (match m with Some z' => Z.max z z' | None => z end))
          | Some VNone | None => Some m
          | Some _ => None
          end
      end
  end.

(** SELECT COALESCE(MAX(id), 0) FROM t *)
Definition select_max_id (db : database) (name : string) : option Z :=
  match readable db name with
  | None => None
  | Some r =>
      if decide ("id" ∈ rel_columns r) then
        match max_of_column (index_of "id" (rel_columns r)) (rel_rows r) with
        | Some (Some z) => Some z
        | Some None => Some 0
        | None => None
        end
      else None
  end.

(** *** Statements that change data *)

Inductive statement :=
| SET_REPLICATION_ROLE (role : string)
| TRUNCATE_CASCADE (table : string)
| INSERT (table : string) (columns : list string) (values : row)
| SETVAL (sequence : string) (n : Z)
| COMMIT
| ROLLBACK.

(** The stored row: one value per column of the relation, NULL for a column
    the INSERT does not name. *)
Definition stored_row (rel_cols columns : list string) (values : row) : row :=
  (λ c, if decide (c ∈ columns)
        then default VNone (values !! index_of c columns)
        else VNone) <$> rel_cols.

Definition insert_row (db : database) (table : string) (columns : list string)
    (values : row) : option database :=
  match readable db table with
  | None => None
  | Some r =>
      match rel_kind r with
      | VIEW => None
      | BASE_TABLE =>
          if negb (bool_decide (columns ⊆ rel_columns r)) then None
          else if negb (bool_decide (length values = length columns)) then None
          else
            let new := stored_row (rel_columns r) columns values in
            if rejects db table (rel_rows r) new then None
            else Some (with_relations db
                         (<[table := set_rows (rel_rows r ++ [new]) r]> (relations db)))
      end
  end.

Definition clear (m : gmap string relation) (name : string) : gmap string relation :=
  alter (set_rows []) name m.

Definition truncate_cascade (db : database) (table : string) : option database :=
  match readable db table with
  | None => None
  | Some r =>
      match rel_kind r with
      | VIEW => None
      | BASE_TABLE =>
          Some (with_relations db (foldl clear (relations db) (table :: cascade db table)))
      end
  end.

Definition setval (db : database) (sequence : string) (n : Z) : option database :=
  match sequences db !! sequence with
  | None => None
  | Some _ => Some (with_sequences db (<[sequence := n]> (sequences db)))
  end.

(** Effect of a statement on the state the transaction sees. *)
Definition effect (s : statement) (db : database) : option database :=
  match s with
  | SET_REPLICATION_ROLE _ => Some db
  | TRUNCATE_CASCADE t => truncate_cascade db t
  | INSERT t cols vals => insert_row db t cols vals
  | SETVAL q n => setval db q n
  | COMMIT | ROLLBACK => Some db
  end.

(** *** Connections and transactions *)

(** A psycopg2 session, not in autocommit mode.  [aborted] is the state
    PostgreSQL puts a transaction in when one of its statements raises: the
    work of the transaction is lost, and every statement and every query
    raises until a ROLLBACK or a COMMIT ends the transaction.  [issued] is
    the trace of the calls of [execute], [commit] and [rollback], in order,
    with the calls that raise; the scripts do not read it. *)
Record connection := mkConnection {
  committed : database;
  working : database;
  issued : list statement;
  aborted : bool
}.

Definition connect (db : database) : connection := mkConnection db db [] false.

(** [conn.commit()]: the server answers the COMMIT of an aborted
    transaction with a rollback, and psycopg2 does not raise. *)
Definition commit (c : connection) : connection :=
  if aborted c
  then mkConnection (committed c) (committed c) (issued c ++ [COMMIT]) false
  else mkConnection (working c) (working c) (issued c ++ [COMMIT]) false.

Definition rollback (c : connection) : connection :=
  mkConnection (committed c) (committed c) (issued c ++ [ROLLBACK]) false.

(** The transaction after a statement has raised. *)
Definition abort (c : connection) : connection :=
  mkConnection (committed c) (working c) (issued c) true.

(** psycopg2 binds the parameters of a statement before it sends it: an
    INSERT with a number of values other than the number of placeholders
    raises on the client. *)
Definition bindable (s : statement) : bool :=
  match s with
  | INSERT _ columns values => bool_decide (length values = length columns)
  | _ => true
  end.

(** [cursor.execute(s)]: the flag says whether the statement succeeded.  A
    statement that cannot be bound raises before anything reaches the
    server, and the transaction is as before.  In an aborted transaction the
    statement is sent and raises; a statement that raises on the server
    aborts the transaction. *)
Definition execute (s : statement) (c : connection) : bool * connection :=
  match s with
  | COMMIT => (true, commit c)
  | ROLLBACK => (true, rollback c)
  | _ =>
      if negb (bindable s)
      then (false, mkConnection (committed c) (working c) (issued c ++ [s]) (aborted c))
      else if aborted c
      then (false, mkConnection (committed c) (working c) (issued c ++ [s]) true)
      else
        match effect s (working c) with
        | Some db' => (true, mkConnection (committed c) db' (issued c ++ [s]) false)
        | None => (false, mkConnection (committed c) (working c) (issued c ++ [s]) true)
        end
  end.

(** [cursor.execute(q); cursor.fetchone()] for a read: [None] when it
    raises.  A query raises in an aborted transaction, and a query that
    raises aborts the transaction. *)
Definition query {A} (q : database → option A) (c : connection)
    : option A * connection :=
  if aborted c then (None, c)
  else
    match q (working c) with
    | Some a => (Some a, c)
    | None => (None, abort c)
    end.

(** [cursor.executemany(INSERT ..., batch)]: one INSERT per row, stopping
    at the first one that raises. *)
Fixpoint executemany (table : string) (columns : list string) (batch : list row)
    (c : connection) : bool * connection :=
  match batch with
  | [] => (true, c)
  | r :: batch' =>
      match execute (INSERT table columns r) c with
      | (true, c') => executemany table columns batch' c'
      | (false, c') => (false, c')
      end
  end.

Definition rows_of (db : database) (name : string) : list row :=
  match relations db !! name with
  | Some r => rel_rows r
  | None => []
  end.

End DB.

Import DB.

(** ** config.py *)

Record conversion_config := mkConversion {
  conv_tables : gmap string (list string);
  conv_conversion : option (value → option value)
}.

Record config := mkConfig {
  batch_size : Z;
  skip_tables : list string;
  truncate_before_insert : bool;
  skip_missing_tables : bool;
  PRIORITY_TABLES_ORDER : list string;
  TYPE_CONVERSIONS : list (string * conversion_config)
}.

(** [lambda x: True if x == 1 else False if x == 0 else None]; in Python
    [True == 1] and [False == 0]. *)
Definition boolean_conversion (x : value) : option value :=
  Some (match x with
        | VInt 1 | VBool true => VBool true
        | VInt 0 | VBool false => VBool false
        | _ => VNone
        end).

Definition boolean_tables : gmap string (list string) :=
  list_to_map [
    ("x_service_def", ["is_enabled"]);
    ("x_service", ["is_enabled"]);
    ("x_policy", ["is_enabled"; "is_audit_enabled"]);
    ("x_service_config_def", ["is_mandatory"]);
    ("x_resource_def", ["mandatory"; "look_up_supported"; "recursive_supported";
                        "excludes_supported"]);
    ("x_policy_resource", ["is_excludes"; "is_recursive"])
  ].

Definition priority_tables_order : list string := [
  "x_portal_user"; "x_cred_store"; "x_user"; "x_group"; "x_group_groups";
  "x_group_users"; "x_auth_sess";
  "x_service_def"; "x_service"; "x_service_config_def"; "x_service_config_map";
  "x_resource_def"; "x_access_type_def"; "x_access_type_def_grants";
  "x_policy_condition_def"; "x_context_enricher_def"; "x_enum_def";
  "x_enum_element_def";
  "x_security_zone"; "x_ranger_global_state";
  "x_asset"; "x_resource";
  "x_policy"; "x_policy_resource"; "x_policy_resource_map"; "x_policy_item";
  "x_policy_item_access"; "x_policy_item_condition"; "x_policy_item_user_perm";
  "x_policy_item_group_perm";
  "x_datamask_type_def"; "x_policy_item_datamask"; "x_policy_item_rowfilter";
  "x_tag_def"; "x_tag"; "x_service_resource"; "x_tag_resource_map";
  "x_role"; "x_role_ref_user"; "x_role_ref_group"; "x_role_ref_role";
  "x_policy_ref_resource"; "x_policy_ref_access_type"; "x_policy_ref_condition";
  "x_policy_ref_datamask_type"; "x_policy_ref_user"; "x_policy_ref_group";
  "x_policy_ref_role";
  "x_security_zone_ref_service"; "x_security_zone_ref_tag_srvc";
  "x_security_zone_ref_resource"; "x_security_zone_ref_user";
  "x_security_zone_ref_group"; "x_security_zone_ref_role";
  "x_modules_master"; "x_user_module_perm"; "x_group_module_perm";
  "x_gds_dataset"; "x_gds_project"; "x_gds_data_share"; "x_gds_shared_resource";
  "x_gds_data_share_in_dataset"; "x_gds_dataset_in_project";
  "x_gds_dataset_policy_map"; "x_gds_project_policy_map";
  "x_rms_service_resource"; "x_rms_notification"; "x_rms_resource_mapping";
  "x_rms_mapping_provider";
  "x_policy_change_log"; "x_tag_change_log"; "x_policy_export_audit";
  "x_ugsync_audit_info"; "x_service_version_info"; "x_plugin_info";
  "x_policy_label"; "x_policy_label_map"; "x_data_hist";
  "x_perm_map"; "x_audit_map";
  "x_db_base"; "x_db_version_h"; "xa_access_audit"; "x_trx_log_v2"
].

(** The values [config.py] ships. *)
Definition MIGRATION_CONFIG : config := {|
  batch_size := 1000;
  skip_tables := ["vx_principal"];
  truncate_before_insert := true;
  skip_missing_tables := true;
  PRIORITY_TABLES_ORDER := priority_tables_order;
  TYPE_CONVERSIONS :=
    [("boolean", mkConversion boolean_tables (Some boolean_conversion))]
|}.

(** ** The ordering shared by both scripts

    [migrate-data.py] lines 84-94 and [verify-migration.py] lines 146-156
    are the same code. *)

(** [list.remove(x)]: drops the first occurrence. *)
Fixpoint remove_first (x : string) (l : list string) : list string :=
  match l with
  | [] => []
  | y :: l' => if decide (x = y) then l' else y :: remove_first x l'
  end.

(** One turn of [for priority_table in PRIORITY_TABLES_ORDER]. *)
Definition priority_step (acc : list string * list string) (priority_table : string)
    : list string * list string :=
  let '(ordered_tables, valid_tables) := acc in
  if decide (priority_table ∈ valid_tables)
  then (ordered_tables ++ [priority_table], remove_first priority_table valid_tables)
  else (ordered_tables, valid_tables).

(** [valid_tables.sort()]: Python 2 compares [str] byte by byte; a stable
    merge sort on that total order. *)
Definition sort (l : list string) : list string := merge_sort String.le l.

Definition order_by_priority (priority : list string) (valid_tables : list string)
    : list string :=
  let '(ordered_tables, valid_tables) := foldl priority_step ([], valid_tables) priority in
  ordered_tables ++ sort valid_tables.

(** ** migrate-data.py *)

Module Migrate.

(** The query reads the information schema: it raises only in an aborted
    transaction, which stays aborted, and then the [except] branch returns
    [False].  Either way the connection is as before. *)
Definition is_view (postgres_conn : connection) (object_name : string) : bool :=
  match (query (λ db, Some (exists_in_views db object_name)) postgres_conn).1 with
  | Some is_view => is_view
  | None => false
  end.

Definition table_exists (postgres_conn : connection) (table_name : string) : bool :=
  match (query (λ db, Some (exists_in_tables db table_name)) postgres_conn).1 with
  | Some exists_ => exists_
  | None => false
  end.

(** Body of the filter loop, lines 68-81: [false] is [continue]. *)
Definition valid_table (cfg : config) (postgres_conn : connection) (table : string)
    : bool :=
  if bool_decide (table ∈ skip_tables cfg) then false
  else if is_view postgres_conn table then false
  else if negb (table_exists postgres_conn table) then false
  else true.

Definition select_valid_tables (cfg : config) (postgres_conn : connection)
    (all_tables : list string) : list string :=
  filter (λ table, valid_table cfg postgres_conn table) all_tables.

Definition get_mysql_tables_ordered (cfg : config) (mysql_conn : database)
    (postgres_conn : connection) : list string :=
  let all_tables := show_tables mysql_conn in
  let valid_tables := select_valid_tables cfg postgres_conn all_tables in
  order_by_priority (PRIORITY_TABLES_ORDER cfg) valid_tables.

(** *** truncate_postgres_tables *)

(** The lines the reset writes to the console. *)
Inductive message :=
| Skipping_truncation (table_name : string)
    (* "Table {0} doesn't exist, skipping truncation" *)
| Warning_missing (table_name : string)
    (* "Warning: table {0} doesn't exist" *)
| Cleared_table (table_name : string)
    (* "Cleared table: {0}" *)
| Failed_to_clear (table_name : string)
    (* "Warning: failed to clear table {0}: ..." *)
| Reconnecting
    (* "Reconnecting to PostgreSQL due to failed transaction state" *)
| Cleared_tables (truncated_count : Z)
    (* "Cleared tables: {0}" *).

Record reset := mkReset {
  reset_conn : connection;
  truncated_count : Z;
  reset_log : list message
}.

(** [postgres_conn.close(); psycopg2.connect(...)]: a new session on the
    same server sees the committed state. *)
Definition reconnect (c : connection) : connection :=
  mkConnection (committed c) (committed c) (issued c) false.

(** The [except] branch of the reset loop, lines 137-154. *)
Definition recover (table_name : string) (c : connection) (count : Z)
    (log : list message) : reset :=
  let log := log ++ [Failed_to_clear table_name] in
  let c := (execute ROLLBACK c).2 in
  match execute ROLLBACK c with
  | (true, c) => mkReset (commit c) count log
  | (false, c) => mkReset (reconnect c) count (log ++ [Reconnecting])
  end.

(** One turn of [for table_name in tables_to_truncate], lines 109-157. *)
Definition truncate_table (cfg : config) (st : reset) (table_name : string) : reset :=
  let postgres_conn := reset_conn st in
  if negb (table_exists postgres_conn table_name) then
    if skip_missing_tables cfg
    then mkReset postgres_conn (truncated_count st)
           (reset_log st ++ [Skipping_truncation table_name])
    else mkReset postgres_conn (truncated_count st)
           (reset_log st ++ [Warning_missing table_name])
  else
    match execute (SET_REPLICATION_ROLE "replica") postgres_conn with
    | (false, c) => recover table_name c (truncated_count st) (reset_log st)
    | (true, c) =>
        match execute (TRUNCATE_CASCADE table_name) c with
        | (false, c) => recover table_name c (truncated_count st) (reset_log st)
        | (true, c) =>
            let count := truncated_count st + 1 in
            let log := reset_log st ++ [Cleared_table table_name] in
            match execute (SET_REPLICATION_ROLE "origin") c with
            | (false, c) => recover table_name c count log
            | (true, c) => mkReset (commit c) count log
            end
        end
    end.

Definition truncate_postgres_tables (cfg : config) (postgres_conn : connection)
    : reset :=
  let tables_to_truncate := reverse (PRIORITY_TABLES_ORDER cfg) in
  let st := foldl (truncate_table cfg) (mkReset postgres_conn 0 []) tables_to_truncate in
  mkReset (reset_conn st) (truncated_count st)
    (reset_log st ++ [Cleared_tables (truncated_count st)]).

(** *** convert_data_types *)

(** [converted_row[col_index] = conversion_func(converted_row[col_index])],
    lines 177-186; a conversion that raises keeps the value. *)
Definition convert_column (conversion_func : value → option value)
    (columns : list string) (converted_row : row) (col_name : string) : row :=
  if decide (col_name ∈ columns) then
    let col_index := index_of col_name columns in
    match converted_row !! col_index with
    | Some v =>
        match conversion_func v with
        | Some v' => <[col_index := v']> converted_row
        | None => converted_row
        end
    | None => converted_row
    end
  else converted_row.

Definition apply_conversion (table_name : string) (columns : list string)
    (converted_row : row) (entry : string * conversion_config) : row :=
  let tables_config := conv_tables entry.2 in
  match tables_config !! table_name, conv_conversion entry.2 with
  | Some columns_to_convert, Some conversion_func =>
      foldl (convert_column conversion_func columns) converted_row columns_to_convert
  | _, _ => converted_row
  end.

Definition convert_data_types (cfg : config) (table_name : string)
    (columns : list string) (rows : list row) : list row :=
  (λ row, foldl (apply_conversion table_name columns) row (TYPE_CONVERSIONS cfg))
    <$> rows.

(** *** migrate_table_data *)

(** [range(0, n, step)] for a positive step. *)
Definition range_step (n step : nat) : list nat :=
  (λ k, (k * step)%nat) <$> seq 0 ((n + step - 1) / step)%nat.

(** The slices [converted_rows[i:i + batch_size]] the loop of line 226
    visits; a negative step makes the range empty. *)
Definition batches (batch_size : Z) (converted_rows : list row) : list (list row) :=
  if batch_size <? 0 then []
  else
    let size := Z.to_nat batch_size in
    (λ i, take size (drop i converted_rows))
      <$> range_step (length converted_rows) size.

(** The row-by-row replay, lines 247-257. *)
Definition insert_single (table_name : string) (columns : list string)
    (acc : Z * connection) (single_row : row) : Z * connection :=
  let '(insert_count, c) := acc in
  match execute (INSERT table_name columns single_row) c with
  | (true, c) => (insert_count + 1, c)
  | (false, c) => (insert_count, c)
  end.

(** One turn of the batch loop, lines 227-257. *)
Definition insert_batch (table_name : string) (columns : list string)
    (acc : Z * connection) (batch : list row) : Z * connection :=
  let '(insert_count, c) := acc in
  match executemany table_name columns batch c with
  | (true, c) => (insert_count + Z.of_nat (length batch), c)
  | (false, c) =>
      foldl (insert_single table_name columns) (insert_count, rollback c) batch
  end.

Definition insert_batches (cfg : config) (table_name : string)
    (columns : list string) (converted_rows : list row) (c : connection)
    : Z * connection :=
  foldl (insert_batch table_name columns) (0, c)
    (batches (batch_size cfg) converted_rows).

(** Returns [insert_count] and the connection.  The outer [except] rolls
    back and returns 0: it is reached when a source query raises and when
    [range] refuses a zero step. *)
Definition migrate_table_data (cfg : config) (mysql_conn : database)
    (postgres_conn : connection) (table_name : string) : Z * connection :=
  match select_all mysql_conn table_name with
  | None => (0, rollback postgres_conn)
  | Some [] => (0, postgres_conn)
  | Some rows =>
      match show_columns mysql_conn table_name with
      | None => (0, rollback postgres_conn)
      | Some columns =>
          let converted_rows := convert_data_types cfg table_name columns rows in
          if batch_size cfg =? 0 then (0, rollback postgres_conn)
          else
            let '(insert_count, c) :=
              insert_batches cfg table_name columns converted_rows postgres_conn in
            (insert_count, commit c)
      end
  end.

(** *** update_sequences *)

Definition sequence_mappings : list (string * string) := [
  ("x_portal_user", "x_portal_user_seq");
  ("x_portal_user_role", "x_portal_user_role_seq");
  ("xa_access_audit", "xa_access_audit_seq");
  ("x_asset", "x_asset_seq");
  ("x_auth_sess", "x_auth_sess_seq");
  ("x_cred_store", "x_cred_store_seq");
  ("x_db_base", "x_db_base_seq");
  ("x_group", "x_group_seq");
  ("x_group_groups", "x_group_groups_seq");
  ("x_user", "x_user_seq");
  ("x_group_users", "x_group_users_seq");
  ("x_policy_export_audit", "x_policy_export_seq");
  ("x_resource", "x_resource_seq");
  ("x_perm_map", "x_perm_map_seq");
  ("x_audit_map", "x_audit_map_seq");
  ("x_trx_log_v2", "x_trx_log_v2_seq");
  ("x_service_def", "x_service_def_seq");
  ("x_service", "x_service_seq");
  ("x_security_zone", "x_security_zone_seq");
  ("x_ranger_global_state", "x_ranger_global_state_seq");
  ("x_policy", "x_policy_seq");
  ("x_service_config_def", "x_service_config_def_seq");
  ("x_resource_def", "x_resource_def_seq");
  ("x_access_type_def", "x_access_type_def_seq");
  ("x_access_type_def_grants", "x_access_type_def_grants_seq");
  ("x_policy_condition_def", "x_policy_condition_def_seq");
  ("x_context_enricher_def", "x_context_enricher_def_seq");
  ("x_enum_def", "x_enum_def_seq");
  ("x_enum_element_def", "x_enum_element_def_seq");
  ("x_service_config_map", "x_service_config_map_seq");
  ("x_policy_resource", "x_policy_resource_seq");
  ("x_policy_resource_map", "x_policy_resource_map_seq");
  ("x_policy_item", "x_policy_item_seq");
  ("x_policy_item_access", "x_policy_item_access_seq");
  ("x_policy_item_condition", "x_policy_item_condition_seq");
  ("x_policy_item_user_perm", "x_policy_item_user_perm_seq");
  ("x_policy_item_group_perm", "x_policy_item_group_perm_seq");
  ("x_data_hist", "x_data_hist_seq");
  ("x_modules_master", "x_modules_master_seq");
  ("x_user_module_perm", "x_user_module_perm_seq");
  ("x_group_module_perm", "x_group_module_perm_seq");
  ("x_tag_def", "x_tag_def_seq");
  ("x_tag", "x_tag_seq");
  ("x_service_resource", "x_service_resource_seq");
  ("x_tag_resource_map", "x_tag_resource_map_seq");
  ("x_datamask_type_def", "x_datamask_type_def_seq");
  ("x_policy_item_datamask", "x_policy_item_datamask_seq");
  ("x_policy_item_rowfilter", "x_policy_item_rowfilter_seq");
  ("x_service_version_info", "x_service_version_info_seq");
  ("x_plugin_info", "x_plugin_info_seq");
  ("x_policy_label", "x_policy_label_seq");
  ("x_policy_label_map", "x_policy_label_map_seq");
  ("x_ugsync_audit_info", "x_ugsync_audit_info_seq");
  ("x_policy_ref_resource", "x_policy_ref_resource_seq");
  ("x_policy_ref_access_type", "x_policy_ref_access_type_seq");
  ("x_policy_ref_condition", "x_policy_ref_condition_seq");
  ("x_policy_ref_datamask_type", "x_policy_ref_datamask_type_seq");
  ("x_policy_ref_user", "x_policy_ref_user_seq");
  ("x_policy_ref_group", "x_policy_ref_group_seq");
  ("x_security_zone_ref_service", "x_sec_zone_ref_service_seq");
  ("x_security_zone_ref_tag_srvc", "x_sec_zone_ref_tag_srvc_seq");
  ("x_security_zone_ref_resource", "x_sec_zone_ref_resource_seq");
  ("x_security_zone_ref_user", "x_sec_zone_ref_user_seq");
  ("x_security_zone_ref_group", "x_sec_zone_ref_group_seq");
  ("x_policy_change_log", "x_policy_change_log_seq");
  ("x_role", "x_role_seq");
  ("x_role_ref_user", "x_role_ref_user_seq");
  ("x_role_ref_group", "x_role_ref_group_seq");
  ("x_policy_ref_role", "x_policy_ref_role_seq");
  ("x_role_ref_role", "x_role_ref_role_seq");
  ("x_security_zone_ref_role", "x_sec_zone_ref_role_seq");
  ("x_tag_change_log", "x_tag_change_log_seq");
  ("x_rms_service_resource", "x_rms_service_resource_seq");
  ("x_rms_notification", "x_rms_notification_seq");
  ("x_rms_resource_mapping", "x_rms_resource_mapping_seq");
  ("x_rms_mapping_provider", "x_rms_mapping_provider_seq");
  ("x_gds_dataset", "x_gds_dataset_seq");
  ("x_gds_project", "x_gds_project_seq");
  ("x_gds_data_share", "x_gds_data_share_seq");
  ("x_gds_shared_resource", "x_gds_shared_resource_seq");
  ("x_gds_data_share_in_dataset", "x_gds_data_share_in_dataset_seq");
  ("x_gds_dataset_in_project", "x_gds_dataset_in_project_seq");
  ("x_gds_dataset_policy_map", "x_gds_dataset_policy_map_seq");
  ("x_gds_project_policy_map", "x_gds_project_policy_map_seq")
].

(** One turn of [for table_name, sequence_name in sequence_mappings],
    lines 367-409.  The [except] branch sends ROLLBACK. *)
Definition update_sequence (acc : Z * connection) (binding : string * string)
    : Z * connection :=
  let '(updated_count, postgres_conn) := acc in
  let '(table_name, sequence_name) := binding in
  if negb (table_exists postgres_conn table_name) then (updated_count, postgres_conn)
  else
    match query (λ db, Some (exists_in_sequences db sequence_name)) postgres_conn with
    | (None, c) => (updated_count, (execute ROLLBACK c).2)
    | (Some false, c) => (updated_count, c)
    | (Some true, c) =>
        match query (λ db, select_max_id db table_name) c with
        | (None, c) => (updated_count, (execute ROLLBACK c).2)
        | (Some max_id, c) =>
            if 0 <? max_id then
              match execute (SETVAL sequence_name max_id) c with
              | (true, c) => (updated_count + 1, commit c)
              | (false, c) => (updated_count, (execute ROLLBACK c).2)
              end
            else (updated_count, commit c)
        end
    end.

Definition update_sequences_over (mappings : list (string * string))
    (postgres_conn : connection) : Z * connection :=
  foldl update_sequence (0, postgres_conn) mappings.

Definition update_sequences (postgres_conn : connection) : Z * connection :=
  update_sequences_over sequence_mappings postgres_conn.

(** *** main *)

Definition migrate_tables (cfg : config) (mysql_conn : database)
    (postgres_conn : connection) (mysql_tables : list string) : Z * connection :=
  foldl (λ acc table,
           let '(migrated_count, c) := migrate_table_data cfg mysql_conn acc.2 table in
           (acc.1 + migrated_count, c))
        (0, postgres_conn) mysql_tables.

(** Lines 420-446: connect, reset if configured, resolve the order, transfer
    every table. *)
Definition load (cfg : config) (mysql : database) (postgres : database)
    : Z * connection :=
  let mysql_conn := mysql in
  let postgres_conn := connect postgres in
  let postgres_conn :=
    if truncate_before_insert cfg
    then reset_conn (truncate_postgres_tables cfg postgres_conn)
    else postgres_conn in
  let mysql_tables := get_mysql_tables_ordered cfg mysql_conn postgres_conn in
  migrate_tables cfg mysql_conn postgres_conn mysql_tables.

(** Returns the total of the per-table counts and the final connection;
    the databases are reachable, so the process ends with status 0. *)
Definition main (cfg : config) (mysql : database) (postgres : database)
    : Z * connection :=
  let '(total_migrated, postgres_conn) := load cfg mysql postgres in
  let '(_, postgres_conn) := update_sequences postgres_conn in
  (total_migrated, postgres_conn).

End Migrate.

(** ** verify-migration.py *)

Module Verify.

Inductive db_type := postgresql | mysql.

(** A read through a cursor of [conn].  The callers pass [postgresql] with
    the psycopg2 connection and [mysql] with the MySQLdb one.  The script
    never ends a transaction, so on PostgreSQL the aborted state a query
    leaves is the state every later query meets; a MySQL session stays
    usable after a statement that raises. *)
Definition fetch {A} (dialect : db_type) (q : database → option A)
    (conn : connection) : option A * connection :=
  match dialect with
  | postgresql => query q conn
  | mysql => (q (working conn), conn)
  end.

(** The queries of [is_view] and [table_exists] read the information
    schema: they raise only in an aborted transaction, which stays aborted,
    and then the [except] branch returns [False].  Either way the connection
    is as before. *)
Definition is_view (postgres_conn : connection) (object_name : string) : bool :=
  match (query (λ db, Some (exists_in_views db object_name)) postgres_conn).1 with
  | Some is_view => is_view
  | None => false
  end.

(** [bool(exists)]: a flag on PostgreSQL, a count on MySQL. *)
Definition table_exists (conn : connection) (table_name : string) (dialect : db_type)
    : bool :=
  match dialect with
  | postgresql =>
      match (fetch postgresql (λ db, Some (exists_in_tables db table_name)) conn).1 with
      | Some exists_ => exists_
      | None => false
      end
  | mysql =>
      match (fetch mysql
               (λ db, Some (if exists_in_tables db table_name then 1 else 0)) conn).1 with
      | Some exists_ => bool_decide (exists_ ≠ 0)
      | None => false
      end
  end.

(** The [except] branch returns -1. *)
Definition get_table_row_count (conn : connection) (table_name : string)
    (dialect : db_type) : Z * connection :=
  match fetch dialect (λ db, select_count db table_name) conn with
  | (Some count, conn) => (count, conn)
  | (None, conn) => (-1, conn)
  end.

(** MySQL answers from its information schema, PostgreSQL from the
    relation itself; the [except] branch returns "N/A". *)
Definition get_table_size (conn : connection) (table_name : string)
    (dialect : db_type) : string * connection :=
  match dialect with
  | postgresql =>
      match fetch postgresql (λ db, select_size db table_name) conn with
      | (Some size, conn) => (size, conn)
      | (None, conn) => ("N/A", conn)
      end
  | mysql =>
      match fetch mysql (λ db, rel_size <$> relations db !! table_name) conn with
      | (Some size, conn) => (size, conn)
      | (None, conn) => ("N/A", conn)
      end
  end.

Definition valid_table (cfg : config) (postgres_conn : connection) (table : string)
    : bool :=
  if bool_decide (table ∈ skip_tables cfg) then false
  else if is_view postgres_conn table then false
  else true.

Definition select_valid_tables (cfg : config) (postgres_conn : connection)
    (all_tables : list string) : list string :=
  filter (λ table, valid_table cfg postgres_conn table) all_tables.

(** [set(mysql_tables + postgres_tables)] is a finite set; the loop visits
    its elements in some order.  When the list query raises, the [except]
    branch leaves [postgres_tables] empty. *)
Definition get_all_tables (cfg : config) (mysql_conn postgres_conn : connection)
    : list string :=
  let mysql_tables := show_tables (working mysql_conn) in
  let postgres_tables :=
    match (query (λ db, Some (base_tables db)) postgres_conn).1 with
    | Some tables => tables
    | None => []
    end in
  let all_tables : gset string := list_to_set (mysql_tables ++ postgres_tables) in
  let valid_tables := select_valid_tables cfg postgres_conn (elements all_tables) in
  order_by_priority (PRIORITY_TABLES_ORDER cfg) valid_tables.

Inductive status :=
| UNKNOWN | MATCH | MISMATCH | MISSING_MYSQL | MISSING_POSTGRES | MISSING_BOTH
| EMPTY_MYSQL | EMPTY_POSTGRES.

Global Instance status_eq_dec : EqDecision status.
Proof. solve_decision. Defined.

Record result := mkResult {
  r_table : string;
  r_mysql_exists : bool;
  r_postgres_exists : bool;
  r_mysql_count : Z;
  r_postgres_count : Z;
  r_mysql_size : string;
  r_postgres_size : string;
  r_status : status
}.

(** Returns the result and the PostgreSQL connection as the probes leave
    it; the MySQL session is not changed by a read. *)
Definition verify_table_data (mysql_conn postgres_conn : connection)
    (table_name : string) : result * connection :=
  let mysql_exists := table_exists mysql_conn table_name mysql in
  let postgres_exists := table_exists postgres_conn table_name postgresql in
  if negb mysql_exists && negb postgres_exists then
    (mkResult table_name mysql_exists postgres_exists 0 0 "N/A" "N/A" MISSING_BOTH,
     postgres_conn)
  else if negb mysql_exists then
    (mkResult table_name mysql_exists postgres_exists 0 0 "N/A" "N/A" MISSING_MYSQL,
     postgres_conn)
  else if negb postgres_exists then
    (mkResult table_name mysql_exists postgres_exists 0 0 "N/A" "N/A" MISSING_POSTGRES,
     postgres_conn)
  else
    let mysql_count := (get_table_row_count mysql_conn table_name mysql).1 in
    let '(postgres_count, postgres_conn) :=
      get_table_row_count postgres_conn table_name postgresql in
    let mysql_size := (get_table_size mysql_conn table_name mysql).1 in
    let '(postgres_size, postgres_conn) :=
      get_table_size postgres_conn table_name postgresql in
    (mkResult table_name mysql_exists postgres_exists mysql_count postgres_count
       mysql_size postgres_size
       (if mysql_count =? postgres_count then MATCH
        else if postgres_count =? 0 then EMPTY_POSTGRES
        else if mysql_count =? 0 then EMPTY_MYSQL
        else MISMATCH),
     postgres_conn).

(** *** generate_report *)

Definition count_status (s : status) (verification_results : list result) : nat :=
  length (filter (λ r, r_status r = s) verification_results).

Definition status_str (s : status) : string :=
  match s with
  | MATCH => "✓ MATCH"
  | MISMATCH => "✗ MISMATCH"
  | MISSING_MYSQL => "! NO IN MYSQL"
  | MISSING_POSTGRES => "! NO IN PGSQL"
  | MISSING_BOTH => "! NO IN BOTH"
  | EMPTY_MYSQL => "○ EMPTY MYSQL"
  | EMPTY_POSTGRES => "○ EMPTY PGSQL"
  | UNKNOWN => "? UNKNOWN"
  end.

Record detail_line := mkLine {
  l_table : string;
  l_mysql : string;
  l_postgres : string;
  l_mysql_size : string;
  l_postgres_size : string;
  l_status : string
}.

Definition detail (r : result) : detail_line :=
  mkLine (String.substring 0 39 (r_table r))
    (if r_mysql_exists r then pretty (r_mysql_count r) else "N/A")
    (if r_postgres_exists r then pretty (r_postgres_count r) else "N/A")
    (r_mysql_size r) (r_postgres_size r) (status_str (r_status r)).

(** "{0}: MySQL={1}, PostgreSQL={2} (difference: {3})" *)
Definition mismatch_line (r : result) : string * Z * Z * string :=
  let difference := r_postgres_count r - r_mysql_count r in
  (r_table r, r_mysql_count r, r_postgres_count r,
   if 0 <? difference then "+" +:+ pretty difference else pretty difference).

Record report := mkReport {
  total_tables : nat;
  matched_tables : nat;
  mismatch_tables : nat;
  missing_mysql_tables : nat;
  missing_postgres_tables : nat;
  missing_both_tables : nat;
  empty_mysql_tables : nat;
  empty_postgres_tables : nat;
  detailed_report : list detail_line;
  tables_with_mismatches : list (string * Z * Z * string);
  tables_missing_in_postgresql : list string;
  tables_missing_in_mysql : list string
}.

Definition generate_report (verification_results : list result) : report :=
  mkReport
    (length verification_results)
    (count_status MATCH verification_results)
    (count_status MISMATCH verification_results)
    (count_status MISSING_MYSQL verification_results)
    (count_status MISSING_POSTGRES verification_results)
    (count_status MISSING_BOTH verification_results)
    (count_status EMPTY_MYSQL verification_results)
    (count_status EMPTY_POSTGRES verification_results)
    (detail <$> verification_results)
    (mismatch_line <$> filter (λ r, r_status r = MISMATCH) verification_results)
    (r_table <$> filter (λ r, r_status r = MISSING_POSTGRES) verification_results)
    (r_table <$> filter (λ r, r_status r = MISSING_MYSQL) verification_results).

(** *** main *)

(** The loop of lines 325-331: every call works on the connection as the
    calls before it left it. *)
Definition verify_tables (mysql_conn postgres_conn : connection)
    (all_tables : list string) : list result * connection :=
  foldl (λ acc table,
           let '(result, c) := verify_table_data mysql_conn acc.2 table in
           (acc.1 ++ [result], c))
        ([], postgres_conn) all_tables.

(** Lines 310-331: connect, list the tables, verify each. *)
Definition verify_all (cfg : config) (mysql postgres : database) : list result :=
  let mysql_conn := connect mysql in
  let postgres_conn := connect postgres in
  let all_tables := get_all_tables cfg mysql_conn postgres_conn in
  (verify_tables mysql_conn postgres_conn all_tables).1.

(** Lines 337-346: the tables that make the pass fail. *)
Definition mismatched_tables (verification_results : list result) : list result :=
  filter (λ r, r_status r ∈ [MISMATCH; MISSING_POSTGRES; EMPTY_POSTGRES])
    verification_results.

(** The report printed and the status the process exits with. *)
Definition main (cfg : config) (mysql postgres : database) : report * Z :=
  let verification_results := verify_all cfg mysql postgres in
  let printed := generate_report verification_results in
  match mismatched_tables verification_results with
  | [] => (printed, 0)
  | _ :: _ => (printed, 1)
  end.

End Verify.

(** ** Vocabulary of the statements *)

(** In [out], every name of the priority list stands before every name
    outside it. *)
Definition priority_first (priority out : list string) : Prop :=
  ∀ i j a b, out !! i = Some a → out !! j = Some b →
    a ∈ priority → b ∉ priority → (i < j)%nat.

(** In [out], the names outside the priority list ascend in the byte-wise
    lexicographic order. *)
Definition rest_ascending (priority out : list string) : Prop :=
  ∀ i j a b, out !! i = Some a → out !! j = Some b →
    a ∉ priority → b ∉ priority → (i < j)%nat → String.le a b ∧ a ≠ b.

(** [out] lists exactly the eligible names, each once, priority names
    first, the others ascending. *)
Definition resolved (priority : list string) (eligible : string → Prop)
    (out : list string) : Prop :=
  NoDup out ∧ (∀ t, t ∈ out ↔ eligible t)
  ∧ priority_first priority out ∧ rest_ascending priority out.

(** Eligible for the migration: a source table that is not skipped, is no
    view on the destination and exists on the destination. *)
Definition eligible_to_migrate (cfg : config) (mysql_conn : database)
    (postgres_conn : connection) (t : string) : Prop :=
  is_Some (relations mysql_conn !! t) ∧ (t ∉ skip_tables cfg)
  ∧ Migrate.is_view postgres_conn t = false
  ∧ Migrate.table_exists postgres_conn t = true.

(** Eligible for the verification: a source table or a destination base
    table that is not skipped and is no view on the destination. *)
Definition eligible_to_verify (cfg : config) (mysql_conn postgres_conn : connection)
    (t : string) : Prop :=
  (is_Some (relations (working mysql_conn) !! t)
   ∨ (aborted postgres_conn = false ∧ t ∈ base_tables (working postgres_conn)))
  ∧ (t ∉ skip_tables cfg) ∧ Verify.is_view postgres_conn t = false.

(** No statement of the scripts creates or drops a relation: the committed
    and the working catalogue hold the same names. *)
Definition same_names (c : connection) : Prop :=
  dom (relations (committed c)) = dom (relations (working c)).

(** Nothing is pending on the connection: no uncommitted work and no
    aborted transaction. *)
Definition settled (c : connection) : Prop :=
  working c = committed c ∧ aborted c = false.

(** The tables a list of statements asks to clear. *)
Definition truncate_targets (l : list statement) : list string :=
  omap (λ s, match s with TRUNCATE_CASCADE t => Some t | _ => None end) l.

(** The tables the reset reports as missing. *)
Definition skipped_tables (log : list Migrate.message) : list string :=
  omap (λ m, match m with
             | Migrate.Skipping_truncation t | Migrate.Warning_missing t => Some t
             | _ => None
             end) log.

Definition set_skip_missing_tables (b : bool) (cfg : config) : config :=
  mkConfig (batch_size cfg) (skip_tables cfg) (truncate_before_insert cfg) b
    (PRIORITY_TABLES_ORDER cfg) (TYPE_CONVERSIONS cfg).

(** ** Small databases for the examples *)

Definition table (columns : list string) (rows : list row) : relation :=
  mkRelation BASE_TABLE columns rows "8192 bytes".

Definition view (columns : list string) (rows : list row) : relation :=
  mkRelation VIEW columns rows "0 bytes".

Definition unconstrained : string → list row → row → bool := λ _ _ _, false.

(** [id] is the first column and is NOT NULL. *)
Definition id_not_null : string → list row → row → bool :=
  λ _ _ r, match r !! 0%nat with Some VNone | None => true | Some _ => false end.

Definition no_cascade : string → list string := λ _, [].

Definition ex_cfg : config :=
  mkConfig 2 ["vx_principal"] true true ["x_user"; "x_group"]
    (TYPE_CONVERSIONS MIGRATION_CONFIG).

(** A source with four users, the last one without an id, no groups, and a
    table the destination does not have. *)
Definition ex_mysql : database :=
  mkDatabase
    (list_to_map [
       ("x_user", table ["id"] [[VInt 1]; [VInt 2]; [VInt 3]; [VNone]]);
       ("x_group", table ["id"] []);
       ("legacy_only", table ["id"] [[VInt 1]]);
       ("vx_principal", view ["id"] [])])
    ∅ ∅ unconstrained no_cascade.

(** The same table names with other contents. *)
Definition ex_mysql_later : database :=
  mkDatabase
    (list_to_map [
       ("vx_principal", view ["id"] []);
       ("legacy_only", table ["id"] []);
       ("x_group", table ["id"] [[VInt 5]]);
       ("x_user", table ["id"] [[VInt 1]])])
    ∅ ∅ unconstrained no_cascade.

(** A source whose only table is empty. *)
Definition ex_mysql_empty : database :=
  mkDatabase (list_to_map [("x_group", table ["id"] [])])
    ∅ ∅ unconstrained no_cascade.

Definition ex_postgres : database :=
  mkDatabase
    (list_to_map [
       ("x_user", table ["id"] []);
       ("x_group", table ["id"] [[VInt 7]]);
       ("vx_principal", view ["id"] [])])
    (list_to_map [("x_user_seq", 1); ("x_group_seq", 1)])
    ∅ id_not_null no_cascade.

(** Both servers refuse to read [x_user]. *)
Definition ex_mysql_unreadable : database :=
  mkDatabase (relations ex_mysql) ∅ {["x_user"]} unconstrained no_cascade.

Definition ex_postgres_unreadable : database :=
  mkDatabase (relations ex_postgres) (sequences ex_postgres) {["x_user"]}
    id_not_null no_cascade.

(** The filter of the migration path as the specification words it: a name
    that only the existence check can drop is dropped exactly when
    [skip_missing_tables] is set. *)
Definition dropped_iff_skip_missing (cfg : config) (mysql_conn : database)
    (postgres_conn : connection) (t : string) : Prop :=
  t ∈ show_tables mysql_conn → (t ∉ skip_tables cfg) →
  Migrate.is_view postgres_conn t = false →
  Migrate.table_exists postgres_conn t = false →
  (t ∉ Migrate.get_mysql_tables_ordered cfg mysql_conn postgres_conn
   ↔ skip_missing_tables cfg = true).

(** [r], inserted under the column list [columns], is a row of [t] in [db]. *)
Definition stored_in (db : database) (t : string) (columns : list string) (r : row)
    : Prop :=
  match relations db !! t with
  | Some rel => stored_row (rel_columns rel) columns r ∈ rel_rows rel
  | None => False
  end.

(** Batch inserts as commit boundaries, as the specification words it: the
    rows of a batch whose multi-row insert succeeded are committed when the
    transfer of the table returns, whatever happens to later batches. *)
Definition successful_batches_survive (cfg : config) (mysql_conn : database)
    (postgres_conn : connection) (t : string) : Prop :=
  ∀ columns rows k batch n c r,
    show_columns mysql_conn t = Some columns →
    select_all mysql_conn t = Some rows →
    Migrate.batches (batch_size cfg)
      (Migrate.convert_data_types cfg t columns rows) !! k = Some batch →
    foldl (Migrate.insert_batch t columns) (0, postgres_conn)
      (take k (Migrate.batches (batch_size cfg)
                 (Migrate.convert_data_types cfg t columns rows))) = (n, c) →
    (executemany t columns batch c).1 = true →
    r ∈ batch →
    stored_in (committed (Migrate.migrate_table_data cfg mysql_conn postgres_conn t).2)
      t columns r.

(** The value of sequence [q] after the turn of the reconciler for the
    binding [(t, q)]. *)
Definition reconciled (c : connection) (t q : string) : option Z :=
  if Migrate.table_exists c t && exists_in_sequences (working c) q then
    match select_max_id (working c) t with
    | Some m => if 0 <? m then Some m else sequences (working c) !! q
    | None => sequences (working c) !! q
    end
  else sequences (working c) !! q.

(** A verified table that does not make the verification fail: by the
    flags and counts its result records, it is missing on the source, or it
    is on both sides with equal counts or with a source count of 0. *)
Definition passing (r : Verify.result) : Prop :=
  Verify.r_mysql_exists r = false
  ∨ (Verify.r_postgres_exists r = true
     ∧ (Verify.r_mysql_count r = Verify.r_postgres_count r
        ∨ Verify.r_mysql_count r = 0)).

(** The exit contract as the specification words it: status 0 only when the
    counts of every checked table match and none is missing or empty on the
    destination. *)
Definition passes_only_when_counts_match (cfg : config)
    (mysql postgres : database) : Prop :=
  (Verify.main cfg mysql postgres).2 = 0 →
  ∀ r, r ∈ Verify.verify_all cfg mysql postgres →
    Verify.r_mysql_count r = Verify.r_postgres_count r
    ∧ Verify.r_status r ≠ Verify.MISSING_POSTGRES
    ∧ Verify.r_status r ≠ Verify.EMPTY_POSTGRES.

(** [db] with the rows [new] appended to the relation [t]. *)
Definition add_rows (t : string) (new : list row) (db : database) : database :=
  with_relations db
    (alter (λ rel, set_rows (rel_rows rel ++ new) rel) t (relations db)).

(** While a table is transferred, nothing is committed, the transaction sees
    the committed state with rows appended to the table, and the count is at
    least the number of these rows. *)
Definition transferring (t : string) (base : database) (n0 : Z)
    (acc : Z * connection) : Prop :=
  committed acc.2 = base
  ∧ ∃ new, working acc.2 = add_rows t new base
           ∧ n0 + Z.of_nat (length new) ≤ acc.1.

(** The session can clear [t]: it is a base table on which statements do
    not raise. *)
Definition truncatable (db : database) (t : string) : bool :=
  match readable db t with
  | Some rel => bool_decide (rel_kind rel = BASE_TABLE)
  | None => false
  end.

(** [db] with the relations [names] emptied. *)
Definition emptied (db : database) (names : list string) : database :=
  with_relations db (foldl clear (relations db) names).

(** The relations a reset over [tables] empties: every table it can clear,
    each with what cascades from it. *)
Definition cleared_by_reset (db : database) (tables : list string) : list string :=
  filter (λ t, truncatable db t) tables ≫= (λ t, t :: cascade db t).

(** The turn of the reconciler for the binding [(t, q)] advances the
    sequence: table and sequence exist and the maximum id is positive. *)
Definition advances (c : connection) (binding : string * string) : bool :=
  Migrate.table_exists c binding.1
  && exists_in_sequences (working c) binding.2
  && match select_max_id (working c) binding.1 with
     | Some m => 0 <? m
     | None => false
     end.

(** [db] is [db0] with rows appended to some relations: no relation and no
    sequence is created or dropped, and every relation keeps its kind, its
    columns and the rows it had, in front. *)
Definition grown (db0 db : database) : Prop :=
  dom (sequences db) = dom (sequences db0)
  ∧ ∀ x, ∃ new, relations db !! x
                = (λ rel, set_rows (rel_rows rel ++ new) rel) <$> relations db0 !! x.

(** [db] has the schema of [db0]: the same sequences by name and the same
    relations, each with its kind and columns and with some rows. *)
Definition reshaped (db0 db : database) : Prop :=
  dom (sequences db) = dom (sequences db0)
  ∧ ∀ x, ∃ rows, relations db !! x = set_rows rows <$> relations db0 !! x.

(** The statements the reset sends for one entry of its list: nothing for a
    missing table; for a table it can clear, the switch to replica, the
    TRUNCATE, the switch back and a COMMIT; for a table whose TRUNCATE raises,
    the recovery of the [except] branch. *)
Definition reset_statements (db : database) (t : string) : list statement :=
  if exists_in_tables db t then
    if truncatable db t
    then [SET_REPLICATION_ROLE "replica"; TRUNCATE_CASCADE t;
          SET_REPLICATION_ROLE "origin"; COMMIT]
    else [SET_REPLICATION_ROLE "replica"; TRUNCATE_CASCADE t;
          ROLLBACK; ROLLBACK; COMMIT]
  else [].

(** The sequences a list of statements sets. *)
Definition setval_targets (l : list statement) : list string :=
  omap (λ s, match s with SETVAL q _ => Some q | _ => None end) l.

(** The reset as the specification words it: a table that loses rows in the
    reset is on the priority list. *)
Definition clears_only_priority_tables (cfg : config) (postgres : database) : Prop :=
  ∀ t,
    rows_of (committed (Migrate.reset_conn
                          (Migrate.truncate_postgres_tables cfg (connect postgres)))) t
    ≠ rows_of postgres t →
    t ∈ PRIORITY_TABLES_ORDER cfg.

(** A destination where [x_portal_user_role], which is on no priority list,
    references [x_portal_user]. *)
Definition ex_postgres_cascade : database :=
  mkDatabase
    (list_to_map [
       ("x_portal_user", table ["id"] [[VInt 1]]);
       ("x_portal_user_role", table ["id"; "user_id"] [[VInt 1; VInt 1]])])
    ∅ ∅ unconstrained
    (λ t, if decide (t = "x_portal_user") then ["x_portal_user_role"] else []).


(** No table that both sides list raises on the destination when it is
    read: no probe of the verification aborts the transaction. *)
Definition probes_succeed (mysql postgres : database) : Prop :=
  ∀ t, is_Some (relations mysql !! t) → is_Some (relations postgres !! t) →
       t ∉ failing postgres.


(** The rows in front of the first row that [bad] marks. *)
Fixpoint accepted_prefix (bad : row → bool) (rows : list row) : list row :=
  match rows with
  | [] => []
  | r :: rows' => if bad r then [] else r :: accepted_prefix bad rows'
  end.


(** * Properties *)

(** ** The ordering *)

Section ordering.
Implicit Types (l v o : list string) (x p : string).

Lemma filter_all (P : string → Prop) `{!∀ x, Decision (P x)} l :
  (∀ x, x ∈ l → P x) → filter P l = l.
Proof.
  induction l as [|y l IH]; intros Hall; [done|].
  rewrite filter_cons_True by (apply Hall; left).
  f_equal. apply IH. intros x Hx. apply Hall. by right.
Qed.

Lemma filter_iff_elem (P Q : string → Prop)
    `{!∀ x, Decision (P x), !∀ x, Decision (Q x)} l :
  (∀ x, x ∈ l → (P x ↔ Q x)) → filter P l = filter Q l.
Proof.
  induction l as [|y l IH]; intros Hall; [done|].
  rewrite !filter_cons, IH by (intros x Hx; apply Hall; by right).
  apply decide_ext, Hall. left.
Qed.

(** On a list without duplicates [list.remove] removes the name. *)
Lemma remove_first_NoDup x l :
  NoDup l → remove_first x l = filter (λ y, y ≠ x) l.
Proof.
  induction l as [|y l IH]; intros Hnd; [done|].
  apply NoDup_cons in Hnd as [Hy Hnd]. simpl.
  destruct (decide (x = y)) as [->|Hne].
  - rewrite filter_cons_False by (intros H; by apply H).
    symmetry. apply filter_all. intros z Hz ->. contradiction.
  - rewrite filter_cons_True by congruence.
    f_equal. by apply IH.
Qed.

(** What the walk over the priority list leaves behind: the names it moved
    are the priority names that were valid, each once, and the rest are the
    valid names outside the priority list, in their old order. *)
Lemma priority_walk priority : ∀ o v,
  NoDup v →
  ∃ a, foldl priority_step (o, v) priority
         = (o ++ a, filter (λ x, x ∉ priority) v)
       ∧ NoDup a ∧ ∀ x, x ∈ a ↔ x ∈ priority ∧ x ∈ v.
Proof.
  induction priority as [|p priority IH]; intros o v Hnd; simpl.
  - exists []. rewrite app_nil_r. split_and!.
    + f_equal. symmetry. apply filter_all. intros x _. apply not_elem_of_nil.
    + constructor.
    + intros x. split; [by intros ?%elem_of_nil|by intros [?%elem_of_nil _]].
  - destruct (decide (p ∈ v)) as [Hin|Hnin].
    + rewrite remove_first_NoDup by done.
      destruct (IH (o ++ [p]) (filter (λ y, y ≠ p) v)) as (a & Heq & Hnda & Ha).
      { by apply NoDup_filter. }
      exists (p :: a). split_and!.
      * rewrite Heq, <-app_assoc. f_equal.
        rewrite list_filter_filter. apply list_filter_iff.
        intros x. rewrite not_elem_of_cons. tauto.
      * constructor; [|done].
        rewrite Ha, list_elem_of_filter. tauto.
      * intros x. rewrite !elem_of_cons, Ha, list_elem_of_filter.
        destruct (decide (x = p)) as [->|]; tauto.
    + destruct (IH o v Hnd) as (a & Heq & Hnda & Ha).
      exists a. split_and!; [|done|].
      * rewrite Heq. f_equal. apply filter_iff_elem.
        intros x Hx. rewrite not_elem_of_cons.
        split; [|tauto]. intros ?. split; [|done]. by intros ->.
      * intros x. rewrite Ha, elem_of_cons.
        split; [tauto|]. intros [[->|?] ?]; tauto.
Qed.

Lemma sort_sorted l : StronglySorted String.le (sort l).
Proof. apply StronglySorted_merge_sort; apply _. Qed.

Lemma sort_perm l : sort l ≡ₚ l.
Proof. apply merge_sort_Permutation. Qed.

(** The sorted list of a set of names does not depend on the order the
    names come in. *)
Lemma sort_proper l l' : l ≡ₚ l' → sort l = sort l'.
Proof.
  intros Hp. apply (StronglySorted_unique String.le); [apply sort_sorted..|].
  by rewrite !sort_perm.
Qed.

Lemma order_by_priority_split priority v :
  NoDup v →
  ∃ a, order_by_priority priority v = a ++ sort (filter (λ x, x ∉ priority) v)
       ∧ NoDup a ∧ ∀ x, x ∈ a ↔ x ∈ priority ∧ x ∈ v.
Proof.
  intros Hnd. destruct (priority_walk priority [] v Hnd) as (a & Heq & Hnda & Ha).
  exists a. unfold order_by_priority. by rewrite Heq.
Qed.

Lemma order_by_priority_perm priority v :
  NoDup v → order_by_priority priority v ≡ₚ v.
Proof.
  intros Hnd. destruct (order_by_priority_split priority v Hnd) as (a & -> & Hnda & Ha).
  rewrite sort_perm.
  etrans; [|apply (filter_app_complement (λ x, x ∈ priority) v)].
  apply Permutation_app; [|done].
  apply NoDup_Permutation; [done|by apply NoDup_filter|].
  intros x. by rewrite Ha, list_elem_of_filter.
Qed.

Lemma priority_walk_proper priority : ∀ o v v',
  NoDup v → v ≡ₚ v' →
  (foldl priority_step (o, v) priority).1 = (foldl priority_step (o, v') priority).1.
Proof.
  induction priority as [|p priority IH]; intros o v v' Hnd Hp; simpl; [done|].
  assert (NoDup v') as Hnd' by by rewrite <-Hp.
  destruct (decide (p ∈ v)) as [Hin|Hnin]; destruct (decide (p ∈ v')) as [Hin'|Hnin'].
  - rewrite !remove_first_NoDup by done.
    apply IH; [by apply NoDup_filter|by rewrite Hp].
  - by rewrite Hp in Hin.
  - by rewrite <-Hp in Hin'.
  - by apply IH.
Qed.

(** Determinism on candidate sets: two enumerations of the same set of
    valid names are ordered alike. *)
Lemma order_by_priority_proper priority v v' :
  NoDup v → v ≡ₚ v' →
  order_by_priority priority v = order_by_priority priority v'.
Proof.
  intros Hnd Hp. assert (NoDup v') as Hnd' by by rewrite <-Hp.
  pose proof (priority_walk_proper priority [] v v' Hnd Hp) as Hfst.
  destruct (priority_walk priority [] v Hnd) as (a & Heq & _).
  destruct (priority_walk priority [] v' Hnd') as (a' & Heq' & _).
  unfold order_by_priority. rewrite Heq, Heq' in *. simpl in Hfst.
  rewrite Hfst. f_equal. apply sort_proper. by rewrite Hp.
Qed.

End ordering.

(** ** The two resolvers *)

Section resolvers.
Implicit Types (cfg : config) (db : database) (t : string).

Lemma StronglySorted_lookup (R : string → string → Prop) (l : list string) :
  StronglySorted R l →
  ∀ i j a b, l !! i = Some a → l !! j = Some b → (i < j)%nat → R a b.
Proof.
  induction 1 as [|x l Hs IH Hall]; intros [|i] [|j] a b Hi Hj Hlt;
    simplify_eq/=; try lia.
  - rewrite Forall_forall in Hall. apply Hall. by eapply list_elem_of_lookup_2.
  - eapply IH; [done..|lia].
Qed.

Lemma order_by_priority_resolved priority (v : list string) :
  NoDup v → resolved priority (λ t, t ∈ v) (order_by_priority priority v).
Proof.
  intros Hnd. pose proof (order_by_priority_perm priority v Hnd) as Hperm.
  assert (NoDup (order_by_priority priority v)) as Hndo by by rewrite Hperm.
  destruct (order_by_priority_split priority v Hnd) as (a & Heq & Hnda & Ha).
  assert (∀ x, x ∈ sort (filter (λ x, x ∉ priority) v) → x ∉ priority) as Hrest.
  { intros x. rewrite sort_perm, list_elem_of_filter. tauto. }
  split_and!; [done|by intros t; rewrite Hperm|..].
  - intros i j x y Hi Hj Hx Hy. rewrite Heq in Hi, Hj.
    apply lookup_app_Some in Hi as [Hi|[_ Hi]].
    2:{ apply list_elem_of_lookup_2, Hrest in Hi. contradiction. }
    apply lookup_app_Some in Hj as [Hj|[Hj _]].
    { apply list_elem_of_lookup_2, Ha in Hj. tauto. }
    apply lookup_lt_Some in Hi. lia.
  - intros i j x y Hi Hj Hx Hy Hlt. split.
    2:{ intros ->. pose proof (NoDup_lookup _ _ _ _ Hndo Hi Hj). lia. }
    rewrite Heq in Hi, Hj.
    apply lookup_app_Some in Hi as [Hi|[Hia Hi]].
    { apply list_elem_of_lookup_2, Ha in Hi. tauto. }
    apply lookup_app_Some in Hj as [Hj|[Hja Hj]].
    { apply list_elem_of_lookup_2, Ha in Hj. tauto. }
    eapply (StronglySorted_lookup _ _ (sort_sorted _)); [done..|lia].
Qed.

Lemma elem_of_show_tables db t :
  t ∈ show_tables db ↔ is_Some (relations db !! t).
Proof.
  unfold show_tables. rewrite list_elem_of_fmap. split.
  - intros ([k r] & -> & Hkr). apply elem_of_map_to_list in Hkr. by exists r.
  - intros [r Hr]. exists (t, r). split; [done|]. by apply elem_of_map_to_list.
Qed.

Lemma NoDup_show_tables db : NoDup (show_tables db).
Proof. apply NoDup_fst_map_to_list. Qed.

(** SHOW TABLES of two sources with the same table names. *)
Lemma show_tables_dom db db' :
  dom (relations db) = dom (relations db') → show_tables db ≡ₚ show_tables db'.
Proof.
  intros Hdom. apply NoDup_Permutation; [apply NoDup_show_tables..|].
  intros t. by rewrite !elem_of_show_tables, <-!elem_of_dom, Hdom.
Qed.

(** The probes on a usable and on an aborted transaction. *)
Lemma query_usable {A} (q : database → option A) (c : connection) a :
  aborted c = false → q (working c) = Some a → query q c = (Some a, c).
Proof. unfold query. by intros -> ->. Qed.

Lemma table_exists_usable (c : connection) t :
  aborted c = false → Migrate.table_exists c t = exists_in_tables (working c) t.
Proof. unfold Migrate.table_exists, query. by intros ->. Qed.

Lemma table_exists_aborted (c : connection) t :
  aborted c = true → Migrate.table_exists c t = false.
Proof. unfold Migrate.table_exists, query. by intros ->. Qed.

Lemma table_exists_true (c : connection) t :
  Migrate.table_exists c t = true →
  aborted c = false ∧ exists_in_tables (working c) t = true.
Proof. unfold Migrate.table_exists, query. by destruct (aborted c). Qed.

Lemma verify_table_exists_usable (c : connection) t :
  aborted c = false →
  Verify.table_exists c t Verify.postgresql = exists_in_tables (working c) t.
Proof. unfold Verify.table_exists, Verify.fetch, query. by intros ->. Qed.

Lemma verify_table_exists_aborted (c : connection) t :
  aborted c = true → Verify.table_exists c t Verify.postgresql = false.
Proof. unfold Verify.table_exists, Verify.fetch, query. by intros ->. Qed.

Lemma verify_table_exists_mysql (c : connection) t :
  Verify.table_exists c t Verify.mysql = exists_in_tables (working c) t.
Proof.
  unfold Verify.table_exists, Verify.fetch. simpl.
  by destruct (exists_in_tables (working c) t).
Qed.

Lemma migrate_valid_table_true cfg pg t :
  Migrate.valid_table cfg pg t = true ↔
    (t ∉ skip_tables cfg) ∧ Migrate.is_view pg t = false
    ∧ Migrate.table_exists pg t = true.
Proof.
  unfold Migrate.valid_table. case_bool_decide as Hskip.
  - split; [done|tauto].
  - destruct (Migrate.is_view pg t), (Migrate.table_exists pg t); simpl;
      intuition congruence.
Qed.

Lemma verify_valid_table_true cfg pg t :
  Verify.valid_table cfg pg t = true ↔
    (t ∉ skip_tables cfg) ∧ Verify.is_view pg t = false.
Proof.
  unfold Verify.valid_table. case_bool_decide as Hskip.
  - split; [done|tauto].
  - destruct (Verify.is_view pg t); intuition congruence.
Qed.

Lemma get_mysql_tables_ordered_resolved cfg mysql pg :
  resolved (PRIORITY_TABLES_ORDER cfg) (eligible_to_migrate cfg mysql pg)
    (Migrate.get_mysql_tables_ordered cfg mysql pg).
Proof.
  unfold Migrate.get_mysql_tables_ordered, Migrate.select_valid_tables.
  destruct (order_by_priority_resolved (PRIORITY_TABLES_ORDER cfg)
    (filter (λ table, Migrate.valid_table cfg pg table) (show_tables mysql)))
    as (Hnd & Hin & Hfirst & Hasc).
  { apply NoDup_filter, NoDup_show_tables. }
  split_and!; [done| |done..].
  intros t. rewrite Hin, list_elem_of_filter, elem_of_show_tables.
  unfold eligible_to_migrate. rewrite Is_true_true, migrate_valid_table_true. tauto.
Qed.

Lemma get_mysql_tables_ordered_dom cfg mysql mysql' pg :
  dom (relations mysql) = dom (relations mysql') →
  Migrate.get_mysql_tables_ordered cfg mysql pg
  = Migrate.get_mysql_tables_ordered cfg mysql' pg.
Proof.
  intros Hdom. unfold Migrate.get_mysql_tables_ordered, Migrate.select_valid_tables.
  apply order_by_priority_proper.
  - apply NoDup_filter, NoDup_show_tables.
  - by rewrite (show_tables_dom _ _ Hdom).
Qed.

Lemma get_all_tables_resolved cfg (mysql pg : connection) :
  resolved (PRIORITY_TABLES_ORDER cfg) (eligible_to_verify cfg mysql pg)
    (Verify.get_all_tables cfg mysql pg).
Proof.
  unfold Verify.get_all_tables, Verify.select_valid_tables.
  set (postgres_tables :=
         match (query (λ db, Some (base_tables db)) pg).1 with
         | Some tables => tables
         | None => []
         end).
  assert (∀ t, t ∈ postgres_tables
               ↔ aborted pg = false ∧ t ∈ base_tables (working pg)) as Hpg.
  { intros t. subst postgres_tables. unfold query.
    destruct (aborted pg); simpl.
    - split; [by intros ?%elem_of_nil|by intros [? _]].
    - split; [by intros ?|by intros [_ ?]]. }
  destruct (order_by_priority_resolved (PRIORITY_TABLES_ORDER cfg)
    (filter (λ table, Verify.valid_table cfg pg table)
       (elements (list_to_set (C:=gset string)
                    (show_tables (working mysql) ++ postgres_tables)))))
    as (Hnd & Hin & Hfirst & Hasc).
  { apply NoDup_filter, NoDup_elements. }
  split_and!; [done| |done..].
  intros t. rewrite Hin, list_elem_of_filter, elem_of_elements, elem_of_list_to_set,
    elem_of_app, elem_of_show_tables, Hpg.
  unfold eligible_to_verify. rewrite Is_true_true, verify_valid_table_true. tauto.
Qed.

Lemma get_all_tables_dom cfg (mysql mysql' pg : connection) :
  dom (relations (working mysql)) = dom (relations (working mysql')) →
  Verify.get_all_tables cfg mysql pg = Verify.get_all_tables cfg mysql' pg.
Proof.
  intros Hdom. unfold Verify.get_all_tables, Verify.select_valid_tables.
  apply order_by_priority_proper.
  - apply NoDup_filter, NoDup_elements.
  - apply filter_Permutation.
    apply NoDup_Permutation; [apply NoDup_elements..|].
    intros t. rewrite !elem_of_elements, !elem_of_list_to_set, !elem_of_app.
    by rewrite (show_tables_dom _ _ Hdom).
Qed.

End resolvers.

(** ** Statements and the catalogue *)

Section statements.
Implicit Types (db : database) (c : connection) (s : statement) (t : string).

Lemma foldl_clear_dom (l : list string) : ∀ m : gmap string relation,
  dom (foldl clear m l) = dom m.
Proof.
  induction l as [|t l IH]; intros m; simpl; [done|].
  rewrite IH. apply dom_alter_L.
Qed.

Lemma readable_Some db t r : readable db t = Some r → relations db !! t = Some r.
Proof. unfold readable. by case_decide. Qed.

(** No statement changes the set of relation names. *)
Lemma effect_names s db db' :
  effect s db = Some db' → dom (relations db') = dom (relations db).
Proof.
  destruct s as [role|t|t cols vals|q n| |]; simpl; try by intros [= <-].
  - unfold truncate_cascade. destruct (readable db t) as [r|]; [|done].
    destruct (rel_kind r); [|done]. intros [= <-]. simpl.
    rewrite foldl_clear_dom. apply dom_alter_L.
  - unfold insert_row. destruct (readable db t) as [r|] eqn:Hr; [|done].
    destruct (rel_kind r); [|done].
    repeat (case_match; try done). intros [= <-]. simpl.
    apply dom_insert_lookup_L. apply readable_Some in Hr. by eexists.
  - unfold setval. destruct (sequences db !! q); [|done]. by intros [= <-].
Qed.

Lemma execute_issued s c : issued (execute s c).2 = issued c ++ [s].
Proof.
  destruct s; simpl; unfold commit, rollback; repeat case_match; done.
Qed.

Lemma commit_settled c : settled (commit c).
Proof. unfold settled, commit. by case_match. Qed.

Lemma commit_issued c : issued (commit c) = issued c ++ [COMMIT].
Proof. unfold commit. by case_match. Qed.

Lemma table_exists_names c c' t :
  aborted c' = aborted c →
  dom (relations (working c')) = dom (relations (working c)) →
  Migrate.table_exists c' t = Migrate.table_exists c t.
Proof.
  intros Hab Hdom. unfold Migrate.table_exists, query. rewrite Hab.
  destruct (aborted c); [done|]. simpl. unfold exists_in_tables.
  apply bool_decide_ext. by rewrite <-!elem_of_dom, Hdom.
Qed.

End statements.

(** ** The destructive reset *)

Section reset.
Implicit Types (cfg : config) (st : Migrate.reset) (t : string).

(** One turn of the reset loop on a usable transaction, written out. *)
Lemma truncate_table_usable cfg st t :
  aborted (Migrate.reset_conn st) = false →
  Migrate.truncate_table cfg st t
  = let c := Migrate.reset_conn st in
    if exists_in_tables (working c) t then
      match truncate_cascade (working c) t with
      | Some db' =>
          Migrate.mkReset
            (mkConnection db' db'
               (issued c ++ [SET_REPLICATION_ROLE "replica"; TRUNCATE_CASCADE t;
                             SET_REPLICATION_ROLE "origin"; COMMIT]) false)
            (Migrate.truncated_count st + 1)
            (Migrate.reset_log st ++ [Migrate.Cleared_table t])
      | None =>
          Migrate.mkReset
            (mkConnection (committed c) (committed c)
               (issued c ++ [SET_REPLICATION_ROLE "replica"; TRUNCATE_CASCADE t;
                             ROLLBACK; ROLLBACK; COMMIT]) false)
            (Migrate.truncated_count st)
            (Migrate.reset_log st ++ [Migrate.Failed_to_clear t])
      end
    else
      Migrate.mkReset c (Migrate.truncated_count st)
        (Migrate.reset_log st
           ++ [if skip_missing_tables cfg
               then Migrate.Skipping_truncation t else Migrate.Warning_missing t]).
Proof.
  intros Hab. unfold Migrate.truncate_table.
  rewrite (table_exists_usable _ _ Hab). cbv zeta.
  destruct (exists_in_tables (working (Migrate.reset_conn st)) t); simpl.
  2:{ by destruct (skip_missing_tables cfg). }
  rewrite Hab. simpl.
  destruct (truncate_cascade (working (Migrate.reset_conn st)) t) as [db'|]; simpl.
  - unfold commit. simpl. by rewrite <-!app_assoc.
  - unfold Migrate.recover, commit, rollback. simpl. by rewrite <-!app_assoc.
Qed.

(** A turn of the reset loop hands on a usable transaction. *)
Lemma truncate_table_aborted cfg st t :
  aborted (Migrate.reset_conn st) = false →
  aborted (Migrate.reset_conn (Migrate.truncate_table cfg st t)) = false.
Proof.
  intros Hab. rewrite truncate_table_usable by done. cbv zeta.
  repeat case_match; done.
Qed.

(** One turn of the reset loop: it asks to clear [t] exactly when [t]
    exists, and leaves the names of the catalogue alone. *)
Lemma truncate_table_trace cfg st t :
  same_names (Migrate.reset_conn st) →
  aborted (Migrate.reset_conn st) = false →
  let st' := Migrate.truncate_table cfg st t in
  same_names (Migrate.reset_conn st')
  ∧ dom (relations (working (Migrate.reset_conn st')))
    = dom (relations (working (Migrate.reset_conn st)))
  ∧ ∃ new, issued (Migrate.reset_conn st') = issued (Migrate.reset_conn st) ++ new
           ∧ truncate_targets new
             = if Migrate.table_exists (Migrate.reset_conn st) t then [t] else [].
Proof.
  intros Hst Hab. cbv zeta. rewrite truncate_table_usable by done.
  rewrite (table_exists_usable _ _ Hab). unfold same_names in *. cbv zeta.
  destruct (exists_in_tables (working (Migrate.reset_conn st)) t); simpl.
  2:{ split_and!; [done..|]. exists []; by rewrite app_nil_r. }
  destruct (truncate_cascade (working (Migrate.reset_conn st)) t) as [db'|] eqn:He;
    simpl.
  - apply (effect_names (TRUNCATE_CASCADE t)) in He. split_and!; [done..|].
    eexists. split; [done|]. done.
  - split_and!; [done..|].
    eexists. split; [done|]. done.
Qed.

Lemma truncate_loop_trace cfg (tables : list string) : ∀ st,
  same_names (Migrate.reset_conn st) →
  aborted (Migrate.reset_conn st) = false →
  ∃ new, issued (Migrate.reset_conn (foldl (Migrate.truncate_table cfg) st tables))
           = issued (Migrate.reset_conn st) ++ new
         ∧ truncate_targets new
           = filter (λ t, Migrate.table_exists (Migrate.reset_conn st) t) tables.
Proof.
  induction tables as [|t tables IH]; intros st Hst Hab; simpl.
  - exists []. by rewrite app_nil_r.
  - destruct (truncate_table_trace cfg st t Hst Hab) as (Hst' & Hdom & new & Hnew & Ht).
    pose proof (truncate_table_aborted cfg st t Hab) as Hab'.
    destruct (IH _ Hst' Hab') as (new' & Hnew' & Ht').
    exists (new ++ new'). split.
    + by rewrite Hnew', Hnew, app_assoc.
    + unfold truncate_targets in *. rewrite omap_app, Ht, Ht'.
      assert (∀ x, Migrate.table_exists
                     (Migrate.reset_conn (Migrate.truncate_table cfg st t)) x
                   = Migrate.table_exists (Migrate.reset_conn st) x) as Hsame.
      { intros x. apply table_exists_names; [congruence|done]. }
      rewrite (list_filter_iff _
        (λ t, Migrate.table_exists (Migrate.reset_conn st) t))
        by (intros x; by rewrite Hsame).
      destruct (Migrate.table_exists (Migrate.reset_conn st) t) eqn:Hex.
      * by rewrite filter_cons_True by (simpl; by rewrite Hex).
      * by rewrite filter_cons_False by (simpl; rewrite Hex; by intros []).
Qed.

(** The flag [skip_missing_tables] only selects the wording of a console
    line. *)
Lemma truncate_table_flag cfg b b' st st' t :
  Migrate.reset_conn st = Migrate.reset_conn st' →
  Migrate.truncated_count st = Migrate.truncated_count st' →
  skipped_tables (Migrate.reset_log st) = skipped_tables (Migrate.reset_log st') →
  let r := Migrate.truncate_table (set_skip_missing_tables b cfg) st t in
  let r' := Migrate.truncate_table (set_skip_missing_tables b' cfg) st' t in
  Migrate.reset_conn r = Migrate.reset_conn r'
  ∧ Migrate.truncated_count r = Migrate.truncated_count r'
  ∧ skipped_tables (Migrate.reset_log r) = skipped_tables (Migrate.reset_log r').
Proof.
  intros Hc Hn Hl. unfold Migrate.truncate_table. rewrite <-Hc, <-Hn.
  destruct (Migrate.table_exists (Migrate.reset_conn st) t); simpl.
  2:{ destruct b, b'; simpl; unfold skipped_tables in *;
        rewrite !omap_app, Hl; done. }
  unfold Migrate.recover.
  destruct (aborted (Migrate.reset_conn st)); simpl;
    [|destruct (truncate_cascade (working (Migrate.reset_conn st)) t); simpl];
    unfold skipped_tables in *; rewrite !omap_app, Hl; done.
Qed.

Lemma truncate_loop_flag cfg b b' (tables : list string) : ∀ st st',
  Migrate.reset_conn st = Migrate.reset_conn st' →
  Migrate.truncated_count st = Migrate.truncated_count st' →
  skipped_tables (Migrate.reset_log st) = skipped_tables (Migrate.reset_log st') →
  let r := foldl (Migrate.truncate_table (set_skip_missing_tables b cfg)) st tables in
  let r' := foldl (Migrate.truncate_table (set_skip_missing_tables b' cfg)) st' tables in
  Migrate.reset_conn r = Migrate.reset_conn r'
  ∧ Migrate.truncated_count r = Migrate.truncated_count r'
  ∧ skipped_tables (Migrate.reset_log r) = skipped_tables (Migrate.reset_log r').
Proof.
  induction tables as [|t tables IH]; intros st st' Hc Hn Hl; simpl; [done|].
  destruct (truncate_table_flag cfg b b' st st' t Hc Hn Hl) as (Hc' & Hn' & Hl').
  by apply IH.
Qed.

(** The reset reports as missing the tables it does not find. *)
Lemma truncate_loop_skipped cfg (tables : list string) : ∀ st,
  same_names (Migrate.reset_conn st) →
  aborted (Migrate.reset_conn st) = false →
  skipped_tables (Migrate.reset_log (foldl (Migrate.truncate_table cfg) st tables))
  = skipped_tables (Migrate.reset_log st)
    ++ filter (λ t, ¬ Migrate.table_exists (Migrate.reset_conn st) t) tables.
Proof.
  induction tables as [|t tables IH]; intros st Hst Hab; simpl.
  - by rewrite app_nil_r.
  - destruct (truncate_table_trace cfg st t Hst Hab) as (Hst' & Hdom & _).
    pose proof (truncate_table_aborted cfg st t Hab) as Hab'.
    rewrite (IH _ Hst' Hab').
    assert (∀ x, Migrate.table_exists
                   (Migrate.reset_conn (Migrate.truncate_table cfg st t)) x
                 = Migrate.table_exists (Migrate.reset_conn st) x) as Hsame.
    { intros x. apply table_exists_names; [congruence|done]. }
    rewrite (list_filter_iff _
      (λ t, ¬ Migrate.table_exists (Migrate.reset_conn st) t))
      by (intros x; by rewrite Hsame).
    rewrite truncate_table_usable by done. cbv zeta.
    destruct (exists_in_tables (working (Migrate.reset_conn st)) t) eqn:Hex; simpl.
    + rewrite filter_cons_False
        by (simpl; rewrite (table_exists_usable _ t Hab), Hex; by intros H; apply H).
      destruct (truncate_cascade (working (Migrate.reset_conn st)) t); simpl;
        unfold skipped_tables; rewrite ?omap_app; simpl; by rewrite ?app_nil_r.
    + rewrite filter_cons_True
        by (simpl; rewrite (table_exists_usable _ t Hab), Hex; by intros []).
      destruct (skip_missing_tables cfg); simpl;
        unfold skipped_tables; rewrite omap_app, <-app_assoc; done.
Qed.

End reset.

(** ** The row transfer *)

Section transfer.
Implicit Types (cfg : config) (c : connection) (t : string) (r : row).

(** An INSERT with one value per column on a usable transaction. *)
Lemma execute_insert_usable t columns r c :
  aborted c = false → length r = length columns →
  execute (INSERT t columns r) c
  = match insert_row (working c) t columns r with
    | Some db' =>
        (true, mkConnection (committed c) db' (issued c ++ [INSERT t columns r]) false)
    | None =>
        (false, mkConnection (committed c) (working c)
                  (issued c ++ [INSERT t columns r]) true)
    end.
Proof.
  intros Hab Hlen. cbn [execute bindable effect].
  by rewrite bool_decide_eq_true_2, Hab by done.
Qed.

(** An INSERT in an aborted transaction raises and leaves it aborted. *)
Lemma execute_insert_aborted t columns r c :
  aborted c = true →
  execute (INSERT t columns r) c
  = (false, mkConnection (committed c) (working c)
              (issued c ++ [INSERT t columns r]) true).
Proof.
  intros Hab. cbn [execute]. rewrite Hab. by destruct (negb _).
Qed.

Lemma execute_insert_committed t columns r c :
  committed (execute (INSERT t columns r) c).2 = committed c.
Proof. simpl. by repeat case_match. Qed.

Lemma executemany_committed t columns (batch : list row) : ∀ c,
  committed (executemany t columns batch c).2 = committed c.
Proof.
  induction batch as [|r batch IH]; intros c; [done|].
  cbn [executemany].
  pose proof (execute_insert_committed t columns r c) as Hc.
  destruct (execute (INSERT t columns r) c) as [[] c']; simpl in *.
  - by rewrite IH.
  - done.
Qed.

(** The statements a multi-row insert sends are INSERTs. *)
Lemma executemany_issued t columns (batch : list row) : ∀ c,
  ∃ new, issued (executemany t columns batch c).2 = issued c ++ new
         ∧ COMMIT ∉ new.
Proof.
  induction batch as [|r batch IH]; intros c.
  - exists []. rewrite app_nil_r. split; [done|apply not_elem_of_nil].
  - cbn [executemany].
    pose proof (execute_issued (INSERT t columns r) c) as Hi.
    destruct (execute (INSERT t columns r) c) as [[] c']; simpl in *.
    + destruct (IH c') as (new & Hnew & Hc).
      exists (INSERT t columns r :: new). split.
      * by rewrite Hnew, Hi, <-app_assoc.
      * rewrite not_elem_of_cons. by split.
    + exists [INSERT t columns r]. split; [done|].
      rewrite not_elem_of_cons. split; [done|apply not_elem_of_nil].
Qed.

Lemma insert_single_committed t columns (batch : list row) : ∀ n c,
  committed (foldl (Migrate.insert_single t columns) (n, c) batch).2 = committed c.
Proof.
  induction batch as [|r batch IH]; intros n c; [done|].
  cbn [foldl]. unfold Migrate.insert_single at 2.
  pose proof (execute_insert_committed t columns r c) as Hc.
  destruct (execute (INSERT t columns r) c) as [[] c']; simpl in *;
    by rewrite IH.
Qed.

Lemma insert_single_issued t columns (batch : list row) : ∀ n c,
  ∃ new, issued (foldl (Migrate.insert_single t columns) (n, c) batch).2
           = issued c ++ new
         ∧ COMMIT ∉ new.
Proof.
  induction batch as [|r batch IH]; intros n c.
  - exists []. rewrite app_nil_r. split; [done|apply not_elem_of_nil].
  - cbn [foldl]. unfold Migrate.insert_single at 2.
    pose proof (execute_issued (INSERT t columns r) c) as Hi.
    destruct (execute (INSERT t columns r) c) as [[] c']; simpl in *.
    + destruct (IH (n + 1) c') as (new & Hnew & Hc).
      exists (INSERT t columns r :: new). split.
      * by rewrite Hnew, Hi, <-app_assoc.
      * rewrite not_elem_of_cons. by split.
    + destruct (IH n c') as (new & Hnew & Hc).
      exists (INSERT t columns r :: new). split.
      * by rewrite Hnew, Hi, <-app_assoc.
      * rewrite not_elem_of_cons. by split.
Qed.

(** One turn of the batch loop commits nothing. *)
Lemma insert_batch_committed t columns n c (batch : list row) :
  committed (Migrate.insert_batch t columns (n, c) batch).2 = committed c.
Proof.
  unfold Migrate.insert_batch.
  pose proof (executemany_committed t columns batch c) as Hc.
  destruct (executemany t columns batch c) as [[] c']; simpl in *; [done|].
  by rewrite insert_single_committed.
Qed.

Lemma insert_batch_issued t columns n c (batch : list row) :
  ∃ new, issued (Migrate.insert_batch t columns (n, c) batch).2 = issued c ++ new
         ∧ COMMIT ∉ new.
Proof.
  unfold Migrate.insert_batch.
  destruct (executemany_issued t columns batch c) as (new & Hnew & Hc).
  destruct (executemany t columns batch c) as [[] c']; simpl in *.
  - by exists new.
  - destruct (insert_single_issued t columns batch n (rollback c'))
      as (new' & Hnew' & Hc').
    exists (new ++ ROLLBACK :: new'). split.
    + rewrite Hnew'. simpl. by rewrite Hnew, <-!app_assoc.
    + rewrite not_elem_of_app, not_elem_of_cons. by split_and!.
Qed.

Lemma insert_batches_loop t columns (bs : list (list row)) : ∀ n c,
  committed (foldl (Migrate.insert_batch t columns) (n, c) bs).2 = committed c
  ∧ ∃ new, issued (foldl (Migrate.insert_batch t columns) (n, c) bs).2
             = issued c ++ new
           ∧ COMMIT ∉ new.
Proof.
  induction bs as [|batch bs IH]; intros n c.
  - split; [done|]. exists []. rewrite app_nil_r. split; [done|apply not_elem_of_nil].
  - cbn [foldl].
    pose proof (insert_batch_committed t columns n c batch) as Hc.
    destruct (insert_batch_issued t columns n c batch) as (new & Hnew & Hn).
    destruct (Migrate.insert_batch t columns (n, c) batch) as [n' c']; simpl in *.
    destruct (IH n' c') as (Hc' & new' & Hnew' & Hn').
    split; [by rewrite Hc'|].
    exists (new ++ new'). split.
    + by rewrite Hnew', Hnew, <-app_assoc.
    + rewrite not_elem_of_app. by split.
Qed.

(** The transfer of a table either does not touch the connection or leaves
    nothing pending. *)
Lemma migrate_table_data_settled cfg mysql c t :
  (Migrate.migrate_table_data cfg mysql c t).2 = c
  ∨ settled (Migrate.migrate_table_data cfg mysql c t).2.
Proof.
  unfold Migrate.migrate_table_data.
  destruct (select_all mysql t) as [[|r rows]|]; simpl; [by left| |by right].
  destruct (show_columns mysql t) as [columns|]; simpl; [|by right].
  destruct (batch_size cfg =? 0); simpl; [by right|].
  destruct (Migrate.insert_batches _ _ _ _ _); simpl. right. apply commit_settled.
Qed.

Lemma truncate_table_settled cfg (st : Migrate.reset) t :
  Migrate.reset_conn (Migrate.truncate_table cfg st t) = Migrate.reset_conn st
  ∨ settled (Migrate.reset_conn (Migrate.truncate_table cfg st t)).
Proof.
  destruct (Migrate.table_exists (Migrate.reset_conn st) t) eqn:Hex.
  2:{ left. unfold Migrate.truncate_table. rewrite Hex. simpl.
      by destruct (skip_missing_tables cfg). }
  right. apply table_exists_true in Hex as [Hab Hex].
  rewrite truncate_table_usable by done. cbv zeta. rewrite Hex.
  by destruct (truncate_cascade (working (Migrate.reset_conn st)) t).
Qed.

(** One turn of the reconciler on a usable transaction, written out. *)
Lemma update_sequence_usable n c t q :
  aborted c = false →
  Migrate.update_sequence (n, c) (t, q)
  = if negb (exists_in_tables (working c) t) then (n, c)
    else if negb (exists_in_sequences (working c) q) then (n, c)
    else
      match select_max_id (working c) t with
      | None => (n, rollback c)
      | Some max_id =>
          if 0 <? max_id then
            match setval (working c) q max_id with
            | Some db' =>
                (n + 1, mkConnection db' db'
                          (issued c ++ [SETVAL q max_id; COMMIT]) false)
            | None =>
                (n, mkConnection (committed c) (committed c)
                      (issued c ++ [SETVAL q max_id; ROLLBACK]) false)
            end
          else (n, commit c)
      end.
Proof.
  intros Hab. unfold Migrate.update_sequence.
  rewrite (table_exists_usable _ _ Hab).
  destruct (exists_in_tables (working c) t); [|done]. cbn [negb].
  unfold query at 1. rewrite Hab.
  destruct (exists_in_sequences (working c) q); [|done]. cbn [negb].
  unfold query. rewrite Hab.
  destruct (select_max_id (working c) t) as [m|]; [|done].
  destruct (0 <? m); [|done].
  unfold execute. rewrite Hab. cbn [effect].
  destruct (setval (working c) q m); unfold commit, rollback; simpl;
    by rewrite <-app_assoc.
Qed.

(** In an aborted transaction the turn finds no table and does nothing. *)
Lemma update_sequence_aborted n c (binding : string * string) :
  aborted c = true → Migrate.update_sequence (n, c) binding = (n, c).
Proof.
  intros Hab. destruct binding as [t q]. unfold Migrate.update_sequence.
  by rewrite (table_exists_aborted _ _ Hab).
Qed.

Lemma update_sequence_settled n c (binding : string * string) :
  (Migrate.update_sequence (n, c) binding).2 = c
  ∨ settled (Migrate.update_sequence (n, c) binding).2.
Proof.
  destruct (aborted c) eqn:Hab.
  { left. by rewrite update_sequence_aborted. }
  destruct binding as [t q]. rewrite update_sequence_usable by done.
  destruct (exists_in_tables (working c) t); simpl; [|by left].
  destruct (exists_in_sequences (working c) q); simpl; [|by left].
  destruct (select_max_id (working c) t) as [m|]; simpl; [|by right].
  destruct (0 <? m); simpl; [|right; apply commit_settled].
  destruct (setval (working c) q m); simpl; by right.
Qed.

(** The slices of the batch loop cover the rows, in order. *)
Lemma slices_concat (step : nat) : ∀ (k : nat) (rows : list row),
  (length rows ≤ k * step)%nat →
  concat ((λ i, take step (drop (i * step) rows)) <$> seq 0 k) = rows.
Proof.
  induction k as [|k IH]; intros rows Hlen.
  - simpl in *. destruct rows; [done|simpl in Hlen; lia].
  - cbn [seq fmap list_fmap concat]. rewrite <-fmap_S_seq, <-list_fmap_compose.
    change (0 * step)%nat with 0%nat. rewrite drop_0.
    etrans; [|apply (take_drop step rows)]. f_equal.
    etrans; [|apply (IH (drop step rows)); rewrite length_drop; lia].
    f_equal. apply list_fmap_ext. intros _ i _. simpl.
    by rewrite drop_drop.
Qed.

Lemma batches_concat (size : Z) (rows : list row) :
  0 < size → concat (Migrate.batches size rows) = rows.
Proof.
  intros Hpos. unfold Migrate.batches, Migrate.range_step.
  rewrite (proj2 (Z.ltb_ge size 0)) by lia.
  rewrite <-list_fmap_compose. apply slices_concat.
  assert (Z.to_nat size ≠ 0)%nat as Hne by lia.
  pose proof (Nat.div_mod (length rows + Z.to_nat size - 1) (Z.to_nat size) Hne).
  pose proof (Nat.mod_upper_bound (length rows + Z.to_nat size - 1) (Z.to_nat size) Hne).
  lia.
Qed.

(** The transfers of a run keep the connection without pending work. *)
Lemma migrate_tables_settled cfg mysql (tables : list string) : ∀ n c,
  settled c →
  settled (foldl (λ acc table,
                    let '(migrated_count, c) :=
                      Migrate.migrate_table_data cfg mysql acc.2 table in
                    (acc.1 + migrated_count, c)) (n, c) tables).2.
Proof.
  induction tables as [|t tables IH]; intros n c Hc; [done|].
  cbn [foldl]. simpl.
  destruct (migrate_table_data_settled cfg mysql c t) as [Heq|Hs];
    destruct (Migrate.migrate_table_data cfg mysql c t) as [m c']; simpl in *;
    apply IH; congruence.
Qed.

Lemma truncate_loop_settled cfg (tables : list string) : ∀ st,
  settled (Migrate.reset_conn st) →
  settled (Migrate.reset_conn (foldl (Migrate.truncate_table cfg) st tables)).
Proof.
  induction tables as [|t tables IH]; intros st Hst; [done|].
  cbn [foldl]. apply IH.
  destruct (truncate_table_settled cfg st t) as [Heq|Hs]; congruence.
Qed.

(** [main] hands the reconciler a connection without pending work. *)
Lemma load_settled cfg mysql postgres :
  settled (Migrate.load cfg mysql postgres).2.
Proof.
  unfold Migrate.load, Migrate.migrate_tables. apply migrate_tables_settled.
  destruct (truncate_before_insert cfg); [|done].
  unfold Migrate.truncate_postgres_tables. simpl. by apply truncate_loop_settled.
Qed.

Lemma settled_usable c : settled c → aborted c = false.
Proof. by intros [_ ?]. Qed.

(** When the source has rows and columns to offer and the batch size is not
    zero, the transfer is the batch loop followed by [commit]. *)
Lemma migrate_table_data_loop cfg mysql c t (rows : list row) (columns : list string) :
  select_all mysql t = Some rows → rows ≠ [] →
  show_columns mysql t = Some columns → batch_size cfg ≠ 0 →
  Migrate.migrate_table_data cfg mysql c t
  = ((Migrate.insert_batches cfg t columns
        (Migrate.convert_data_types cfg t columns rows) c).1,
     commit (Migrate.insert_batches cfg t columns
               (Migrate.convert_data_types cfg t columns rows) c).2).
Proof.
  intros Hrows Hne Hcols Hsize. unfold Migrate.migrate_table_data.
  rewrite Hrows, Hcols. destruct rows as [|r rows]; [done|].
  rewrite (proj2 (Z.eqb_neq _ _) Hsize).
  by destruct (Migrate.insert_batches _ _ _ _ _).
Qed.

End transfer.

(** ** The reset as a whole *)

Lemma truncate_postgres_tables_targets (cfg : config) (postgres : database) :
  truncate_targets
    (issued (Migrate.reset_conn (Migrate.truncate_postgres_tables cfg (connect postgres))))
  = filter (λ t, Migrate.table_exists (connect postgres) t)
      (reverse (PRIORITY_TABLES_ORDER cfg)).
Proof.
  unfold Migrate.truncate_postgres_tables. simpl.
  destruct (truncate_loop_trace cfg (reverse (PRIORITY_TABLES_ORDER cfg))
              (Migrate.mkReset (connect postgres) 0 []))
    as (new & Hnew & Ht); [done..|].
  rewrite Hnew. simpl. exact Ht.
Qed.

(** ** The sequence reconciler *)

Section sequences.
Implicit Types (c : connection) (t q : string) (n : Z).

Lemma exists_in_sequences_true db q :
  exists_in_sequences db q = true → ∃ v, sequences db !! q = Some v.
Proof.
  unfold exists_in_sequences. intros H%bool_decide_eq_true. destruct H as [v Hv].
  by exists v.
Qed.

(** A table without rows has maximum 0, if it can be read and has an [id]. *)
Lemma select_max_id_empty db t rel :
  readable db t = Some rel → "id" ∈ rel_columns rel → rel_rows rel = [] →
  select_max_id db t = Some 0.
Proof.
  intros Hr Hid Hrows. unfold select_max_id. rewrite Hr, Hrows.
  by rewrite decide_True.
Qed.

(** What one turn of the loop does to a connection with nothing pending:
    the data stay, and only the bound sequence can change. *)
Lemma update_sequence_frame n c t q :
  settled c →
  let c' := (Migrate.update_sequence (n, c) (t, q)).2 in
  settled c'
  ∧ relations (working c') = relations (working c)
  ∧ failing (working c') = failing (working c)
  ∧ dom (sequences (working c')) = dom (sequences (working c))
  ∧ ∀ q', q' ≠ q → sequences (working c') !! q' = sequences (working c) !! q'.
Proof.
  unfold settled. intros [Hc Hab]. cbv zeta. rewrite update_sequence_usable by done.
  destruct (exists_in_tables (working c) t); simpl; [|done].
  destruct (exists_in_sequences (working c) q) eqn:Hq; simpl; [|done].
  destruct (select_max_id (working c) t) as [m|]; simpl.
  2:{ by rewrite <-Hc. }
  destruct (0 <? m); simpl.
  2:{ unfold commit. rewrite Hab. simpl. done. }
  apply exists_in_sequences_true in Hq as [v Hv].
  unfold setval. rewrite Hv. simpl. split_and!; [done..| |].
  - apply dom_insert_lookup_L. by eexists.
  - intros q' Hne. by rewrite lookup_insert_ne.
Qed.

Lemma select_max_id_rows_nil db t m :
  rows_of db t = [] → select_max_id db t = Some m → m = 0.
Proof.
  unfold select_max_id, readable, rows_of.
  case_decide; [done|].
  destruct (relations db !! t) as [rel|]; [|done].
  intros ->. case_decide; simpl; congruence.
Qed.

Lemma select_max_id_ext db db' t :
  relations db' = relations db → failing db' = failing db →
  select_max_id db' t = select_max_id db t.
Proof. intros Hr Hf. unfold select_max_id, readable. by rewrite Hr, Hf. Qed.

Lemma exists_in_sequences_ext db db' q :
  dom (sequences db') = dom (sequences db) →
  exists_in_sequences db' q = exists_in_sequences db q.
Proof.
  intros Hd. unfold exists_in_sequences. apply bool_decide_ext.
  by rewrite <-!elem_of_dom, Hd.
Qed.

Lemma table_exists_ext c c' t :
  aborted c' = aborted c →
  relations (working c') = relations (working c) →
  Migrate.table_exists c' t = Migrate.table_exists c t.
Proof.
  intros Hab Hr. unfold Migrate.table_exists, query, exists_in_tables.
  rewrite Hab, Hr. by destruct (aborted c).
Qed.

(** The loop leaves the sequences it has no binding for alone. *)
Lemma update_sequences_over_frame (mappings : list (string * string)) : ∀ n c,
  settled c →
  let c' := (foldl Migrate.update_sequence (n, c) mappings).2 in
  settled c'
  ∧ relations (working c') = relations (working c)
  ∧ failing (working c') = failing (working c)
  ∧ dom (sequences (working c')) = dom (sequences (working c))
  ∧ ∀ q, q ∉ mappings.*2 → sequences (working c') !! q = sequences (working c) !! q.
Proof.
  induction mappings as [|[t q0] mappings IH]; intros n c Hc; [done|].
  cbn [foldl].
  destruct (update_sequence_frame n c t q0 Hc) as (Hc1 & Hr1 & Hf1 & Hd1 & Hq1).
  destruct (Migrate.update_sequence (n, c) (t, q0)) as [n1 c1]; simpl in *.
  destruct (IH n1 c1 Hc1) as (Hc2 & Hr2 & Hf2 & Hd2 & Hq2).
  split_and!; [done|congruence..|].
  intros q [Hne Hq]%not_elem_of_cons. rewrite Hq2 by done. by apply Hq1.
Qed.

Lemma update_sequence_reconciled n c t q :
  settled c →
  sequences (working (Migrate.update_sequence (n, c) (t, q)).2) !! q
  = reconciled c t q.
Proof.
  unfold settled, reconciled. intros [Hc Hab].
  rewrite update_sequence_usable, (table_exists_usable _ _ Hab) by done.
  destruct (exists_in_tables (working c) t); simpl; [|done].
  destruct (exists_in_sequences (working c) q) eqn:Hq; simpl; [|done].
  destruct (select_max_id (working c) t) as [m|]; simpl.
  2:{ by rewrite <-Hc. }
  destruct (0 <? m); simpl.
  2:{ unfold commit. by rewrite Hab. }
  apply exists_in_sequences_true in Hq as [v Hv].
  unfold setval. rewrite Hv. simpl. by rewrite lookup_insert_eq.
Qed.

(** After the whole loop a bound sequence is as its own turn left it, when
    no two bindings name the same sequence. *)
Lemma update_sequences_over_final (mappings : list (string * string)) : ∀ n c t q,
  settled c → NoDup (mappings.*2) → (t, q) ∈ mappings →
  sequences (working (foldl Migrate.update_sequence (n, c) mappings).2) !! q
  = reconciled c t q.
Proof.
  induction mappings as [|[t0 q0] mappings IH]; intros n c t q Hc Hnd Hin.
  { by apply elem_of_nil in Hin. }
  cbn [foldl]. simpl in Hnd. apply NoDup_cons in Hnd as [Hq0 Hnd].
  destruct (update_sequence_frame n c t0 q0 Hc) as (Hc1 & Hr1 & Hf1 & Hd1 & Hq1).
  pose proof (update_sequence_reconciled n c t0 q0 Hc) as Hrec.
  destruct (Migrate.update_sequence (n, c) (t0, q0)) as [n1 c1]; simpl in *.
  apply elem_of_cons in Hin as [[= -> ->]|Hin].
  - destruct (update_sequences_over_frame mappings n1 c1 Hc1) as (_ & _ & _ & _ & Hq).
    by rewrite Hq.
  - rewrite (IH n1 c1 t q Hc1 Hnd Hin).
    assert (q ≠ q0) as Hne.
    { intros ->. apply Hq0. apply list_elem_of_fmap. by exists (t, q0). }
    unfold reconciled.
    rewrite (table_exists_ext c c1 t), (exists_in_sequences_ext _ _ q Hd1),
      (select_max_id_ext _ _ t Hr1 Hf1), (Hq1 q Hne); [done| |done].
    destruct Hc as [_ ->]. by destruct Hc1 as [_ ->].
Qed.

Lemma sequence_mappings_NoDup : NoDup (Migrate.sequence_mappings.*2).
Proof. apply (bool_decide_unpack _). by vm_compute. Qed.

(** The reconciler of the script, with its own table of bindings. *)
Lemma update_sequences_final c t q :
  settled c → (t, q) ∈ Migrate.sequence_mappings →
  sequences (working (Migrate.update_sequences c).2) !! q = reconciled c t q.
Proof.
  intros Hc Hin. unfold Migrate.update_sequences, Migrate.update_sequences_over.
  apply update_sequences_over_final; [done| |done].
  apply sequence_mappings_NoDup.
Qed.

(** At the end of a run every bound sequence is as its turn of the
    reconciler left it. *)
Lemma main_reconciles cfg mysql postgres t q :
  (t, q) ∈ Migrate.sequence_mappings →
  sequences (working (Migrate.main cfg mysql postgres).2) !! q
  = reconciled (Migrate.load cfg mysql postgres).2 t q.
Proof.
  intros Hin. unfold Migrate.main.
  pose proof (load_settled cfg mysql postgres) as Hs.
  destruct (Migrate.load cfg mysql postgres) as [total c]. cbn [snd] in *.
  pose proof (update_sequences_final c t q Hs Hin) as Hfinal.
  destruct (Migrate.update_sequences c) as [updated c']. exact Hfinal.
Qed.

Lemma advances_ext c c' (binding : string * string) :
  aborted c' = aborted c →
  relations (working c') = relations (working c) →
  failing (working c') = failing (working c) →
  dom (sequences (working c')) = dom (sequences (working c)) →
  advances c' binding = advances c binding.
Proof.
  intros Hab Hr Hf Hd. unfold advances.
  by rewrite (table_exists_ext c c' _ Hab Hr), (exists_in_sequences_ext _ _ _ Hd),
    (select_max_id_ext _ _ _ Hr Hf).
Qed.

(** The [setval] of one turn: one for the bound sequence when the turn
    advances it, none otherwise. *)
Lemma update_sequence_setvals n c t q :
  aborted c = false →
  ∃ new, issued (Migrate.update_sequence (n, c) (t, q)).2 = issued c ++ new
         ∧ setval_targets new = if advances c (t, q) then [q] else [].
Proof.
  intros Hab. rewrite update_sequence_usable by done. unfold advances. cbn [fst snd].
  rewrite (table_exists_usable _ _ Hab).
  destruct (exists_in_tables (working c) t); simpl.
  2:{ exists []. by rewrite app_nil_r. }
  destruct (exists_in_sequences (working c) q) eqn:Hq; simpl.
  2:{ exists []. by rewrite app_nil_r. }
  destruct (select_max_id (working c) t) as [m|]; simpl.
  2:{ by exists [ROLLBACK]. }
  destruct (0 <? m); simpl.
  2:{ exists [COMMIT]. by rewrite commit_issued. }
  apply exists_in_sequences_true in Hq as [v Hv]. unfold setval. rewrite Hv. simpl.
  by exists [SETVAL q m; COMMIT].
Qed.

Lemma update_sequences_over_setvals (mappings : list (string * string)) : ∀ n c,
  settled c →
  ∃ new, issued (foldl Migrate.update_sequence (n, c) mappings).2 = issued c ++ new
         ∧ setval_targets new = (filter (λ b, advances c b) mappings).*2.
Proof.
  induction mappings as [|[t q] mappings IH]; intros n c Hc.
  - exists []. by rewrite app_nil_r.
  - cbn [foldl].
    destruct (update_sequence_frame n c t q Hc) as (Hc1 & Hr1 & Hf1 & Hd1 & _).
    destruct (update_sequence_setvals n c t q (settled_usable _ Hc))
      as (new & Hnew & Ht).
    destruct (Migrate.update_sequence (n, c) (t, q)) as [n1 c1]. cbn [fst snd] in *.
    destruct (IH n1 c1 Hc1) as (new' & Hnew' & Ht').
    exists (new ++ new'). split; [by rewrite Hnew', Hnew, app_assoc|].
    assert (aborted c1 = aborted c) as Hab1.
    { by rewrite (settled_usable _ Hc), (settled_usable _ Hc1). }
    unfold setval_targets in *. rewrite omap_app, Ht, Ht'.
    rewrite (list_filter_iff (λ b, advances c1 b) (λ b, advances c b))
      by (intros b; by rewrite (advances_ext c c1 b Hab1 Hr1 Hf1 Hd1)).
    rewrite filter_cons. destruct (advances c (t, q)) eqn:Ha.
    + by rewrite decide_True by done.
    + by rewrite decide_False by (by intros ?).
Qed.

(** A sequence is bound to one table. *)
Lemma bound_once (mappings : list (string * string)) t t' q :
  NoDup (mappings.*2) → (t, q) ∈ mappings → (t', q) ∈ mappings → t = t'.
Proof.
  induction mappings as [|[t0 q0] mappings IH]; intros Hnd Hin Hin'.
  { by apply elem_of_nil in Hin. }
  simpl in Hnd. apply NoDup_cons in Hnd as [Hq0 Hnd].
  assert (∀ x, (x, q0) ∈ mappings → False) as Hfresh.
  { intros x Hx. apply Hq0. apply list_elem_of_fmap. by exists (x, q0). }
  apply elem_of_cons in Hin as [Heq|Hin]; apply elem_of_cons in Hin' as [Heq'|Hin'].
  - congruence.
  - injection Heq as -> ->. by apply Hfresh in Hin'.
  - injection Heq' as -> ->. by apply Hfresh in Hin.
  - by apply IH.
Qed.

Lemma setval_sent_iff c (mappings : list (string * string)) t q :
  NoDup (mappings.*2) → (t, q) ∈ mappings →
  q ∈ (filter (λ b, advances c b) mappings).*2 ↔ advances c (t, q) = true.
Proof.
  intros Hnd Hin. rewrite list_elem_of_fmap. split.
  - intros ([t' q'] & Heq & Hf). simpl in Heq. subst q'.
    apply list_elem_of_filter in Hf as [Ha Hin'].
    rewrite (bound_once mappings t t' q Hnd Hin Hin'). by apply Is_true_true.
  - intros Ha. exists (t, q). split; [done|].
    apply list_elem_of_filter. split; [by apply Is_true_true|done].
Qed.

End sequences.

(** ** The verification *)

Section verification.
Implicit Types (r : Verify.result) (t : string).

Lemma filter_nil_iff {A} (P : A → Prop) `{!∀ x, Decision (P x)} (l : list A) :
  filter P l = [] ↔ ∀ x, x ∈ l → ¬ P x.
Proof.
  split.
  - intros Hnil x Hx HP. by eapply filter_nil_not_elem_of.
  - intros Hall. destruct (filter P l) as [|x l'] eqn:Hf; [done|].
    assert (x ∈ filter P l) as Hx by (rewrite Hf; left).
    apply list_elem_of_filter in Hx as [HP Hx]. by apply Hall in Hx.
Qed.

Ltac status_not_listed :=
  rewrite !not_elem_of_cons; split_and!; try done; apply not_elem_of_nil.

Ltac status_listed :=
  let H := fresh in intros H; exfalso; apply H; repeat constructor.

(** On tables present on both sides equal counts decide first. *)
Lemma verify_table_data_equal_counts (mysql postgres : connection) t :
  Verify.table_exists mysql t Verify.mysql = true →
  Verify.table_exists postgres t Verify.postgresql = true →
  (Verify.get_table_row_count mysql t Verify.mysql).1
  = (Verify.get_table_row_count postgres t Verify.postgresql).1 →
  Verify.r_status (Verify.verify_table_data mysql postgres t).1 = Verify.MATCH.
Proof.
  intros Hm Hp Heq. unfold Verify.verify_table_data. rewrite Hm, Hp, Heq.
  cbn [negb andb].
  destruct (Verify.get_table_row_count postgres t Verify.postgresql) as [n c1].
  destruct (Verify.get_table_size c1 t Verify.postgresql) as [size c2].
  cbn [fst snd Verify.r_status]. by rewrite Z.eqb_refl.
Qed.

Lemma verify_table_data_passing (mysql postgres : connection) t :
  let r := (Verify.verify_table_data mysql postgres t).1 in
  Verify.r_status r ∉ [Verify.MISMATCH; Verify.MISSING_POSTGRES; Verify.EMPTY_POSTGRES]
  ↔ passing r.
Proof.
  unfold Verify.verify_table_data, passing.
  destruct (Verify.table_exists mysql t Verify.mysql),
    (Verify.table_exists postgres t Verify.postgresql); cbn [negb andb].
  - destruct (Verify.get_table_row_count postgres t Verify.postgresql) as [n c1].
    destruct (Verify.get_table_size c1 t Verify.postgresql) as [size c2].
    destruct (Verify.get_table_row_count mysql t Verify.mysql) as [m c3].
    cbn [fst snd Verify.r_status Verify.r_mysql_exists Verify.r_postgres_exists
         Verify.r_mysql_count Verify.r_postgres_count].
    destruct (Z.eqb_spec m n) as [Heq|Hne].
    { split; [tauto|]. intros _. status_not_listed. }
    destruct (Z.eqb_spec n 0) as [Hp|Hp].
    { split; [status_listed|]. intros [|[_ [|]]]; [done|done|congruence]. }
    destruct (Z.eqb_spec m 0) as [Hm|Hm].
    { split; [tauto|]. intros _. status_not_listed. }
    split; [status_listed|]. intros [|[_ [|]]]; done.
  - simpl. split; [status_listed|]. intros [|[? _]]; done.
  - simpl. split; [tauto|]. intros _. status_not_listed.
  - simpl. split; [tauto|]. intros _. status_not_listed.
Qed.

(** Every result of the loop is the result of one call, on the connection
    as the calls before it left it. *)
Lemma verify_tables_elem (mysql_conn : connection) (tables : list string) :
  ∀ (acc : list Verify.result) (c : connection) r,
    r ∈ (foldl (λ acc table,
                  let '(result, c) := Verify.verify_table_data mysql_conn acc.2 table in
                  (acc.1 ++ [result], c)) (acc, c) tables).1 →
    r ∈ acc ∨ ∃ c' t, t ∈ tables ∧ r = (Verify.verify_table_data mysql_conn c' t).1.
Proof.
  induction tables as [|t tables IH]; intros acc c r Hr; [by left|].
  cbn [foldl] in Hr. cbn [snd fst] in Hr.
  destruct (Verify.verify_table_data mysql_conn c t) as [res c1] eqn:Hv.
  apply IH in Hr as [Hr|(c' & t' & Ht' & ->)].
  - apply elem_of_app in Hr as [Hr|Hr]; [by left|].
    apply list_elem_of_singleton in Hr as ->.
    right. exists c, t. split; [left|by rewrite Hv].
  - right. exists c', t'. split; [by right|done].
Qed.

Lemma verify_all_elem cfg (mysql postgres : database) r :
  r ∈ Verify.verify_all cfg mysql postgres →
  ∃ c t, r = (Verify.verify_table_data (connect mysql) c t).1.
Proof.
  unfold Verify.verify_all, Verify.verify_tables. cbv zeta.
  intros [Hr|(c & t & _ & ->)]%verify_tables_elem.
  - by apply elem_of_nil in Hr.
  - by exists c, t.
Qed.

End verification.

(** ** What the reset does to the data *)

Section reset_effect.
Implicit Types (db : database) (c : connection) (t x : string)
  (m : gmap string relation).

Lemma clear_lookup m t x :
  clear m t !! x = if decide (t = x) then set_rows [] <$> m !! x else m !! x.
Proof. unfold clear. rewrite lookup_alter. case_decide; by subst. Qed.

Lemma foldl_clear_lookup (l : list string) : ∀ m x,
  foldl clear m l !! x = if decide (x ∈ l) then set_rows [] <$> m !! x else m !! x.
Proof.
  induction l as [|t l IH]; intros m x; cbn [foldl].
  - by rewrite decide_False by apply not_elem_of_nil.
  - rewrite IH, clear_lookup.
    destruct (decide (x ∈ l)) as [Hl|Hl], (decide (t = x)) as [->|Hne].
    + rewrite decide_True by (by right). by destruct (m !! x).
    + by rewrite decide_True by (by right).
    + by rewrite decide_True by left.
    + rewrite decide_False; [done|]. rewrite not_elem_of_cons. by split.
Qed.

Lemma emptied_nil db : emptied db [] = db.
Proof. by destruct db. Qed.

Lemma emptied_app db (l l' : list string) :
  emptied (emptied db l) l' = emptied db (l ++ l').
Proof. unfold emptied, with_relations. simpl. by rewrite foldl_app. Qed.

Lemma emptied_lookup db (l : list string) x :
  relations (emptied db l) !! x
  = if decide (x ∈ l) then set_rows [] <$> relations db !! x else relations db !! x.
Proof. apply foldl_clear_lookup. Qed.

Lemma truncatable_emptied db (l : list string) t :
  truncatable (emptied db l) t = truncatable db t.
Proof.
  unfold truncatable, readable. simpl. case_decide; [done|].
  rewrite foldl_clear_lookup. case_decide; [|done].
  by destruct (relations db !! t).
Qed.

Lemma truncate_cascade_emptied db t :
  truncate_cascade db t
  = if truncatable db t then Some (emptied db (t :: cascade db t)) else None.
Proof.
  unfold truncate_cascade, truncatable. destruct (readable db t) as [rel|]; [|done].
  by destruct (rel_kind rel).
Qed.

Lemma truncatable_exists db t :
  truncatable db t = true → exists_in_tables db t = true.
Proof.
  unfold truncatable, exists_in_tables.
  destruct (readable db t) as [rel|] eqn:Hr; [|done].
  intros _. apply readable_Some in Hr. apply bool_decide_eq_true. by eexists.
Qed.

(** One turn of the reset on a connection with nothing pending. *)
Lemma truncate_table_effect cfg (st : Migrate.reset) t :
  settled (Migrate.reset_conn st) →
  let st' := Migrate.truncate_table cfg st t in
  let db := working (Migrate.reset_conn st) in
  settled (Migrate.reset_conn st')
  ∧ working (Migrate.reset_conn st')
    = emptied db (if truncatable db t then t :: cascade db t else [])
  ∧ Migrate.truncated_count st'
    = Migrate.truncated_count st + (if truncatable db t then 1 else 0).
Proof.
  unfold settled. intros [Hst Hab]. cbv zeta.
  rewrite truncate_table_usable by done. cbv zeta.
  destruct (exists_in_tables (working (Migrate.reset_conn st)) t) eqn:Hex; simpl.
  2:{ assert (truncatable (working (Migrate.reset_conn st)) t = false) as ->.
      { destruct (truncatable _ t) eqn:Htr; [|done].
        apply truncatable_exists in Htr. congruence. }
      by rewrite emptied_nil, Z.add_0_r. }
  rewrite truncate_cascade_emptied.
  destruct (truncatable (working (Migrate.reset_conn st)) t); simpl.
  - done.
  - by rewrite emptied_nil, Z.add_0_r.
Qed.

Lemma truncate_loop_effect cfg (tables : list string) : ∀ st,
  settled (Migrate.reset_conn st) →
  let st' := foldl (Migrate.truncate_table cfg) st tables in
  let db := working (Migrate.reset_conn st) in
  settled (Migrate.reset_conn st')
  ∧ working (Migrate.reset_conn st') = emptied db (cleared_by_reset db tables)
  ∧ Migrate.truncated_count st'
    = Migrate.truncated_count st
      + Z.of_nat (length (filter (λ t, truncatable db t) tables)).
Proof.
  induction tables as [|t tables IH]; intros st Hst.
  - simpl. unfold cleared_by_reset. simpl. rewrite emptied_nil. split_and!; [done..|lia].
  - cbn [foldl].
    destruct (truncate_table_effect cfg st t Hst) as (Hst1 & Hw1 & Hn1).
    destruct (IH _ Hst1) as (Hst2 & Hw2 & Hn2).
    split; [done|].
    set (db := working (Migrate.reset_conn st)) in *.
    assert (∀ x, truncatable (working (Migrate.reset_conn
                                         (Migrate.truncate_table cfg st t))) x
                 = truncatable db x) as Htr.
    { intros x. rewrite Hw1. apply truncatable_emptied. }
    assert (cleared_by_reset
              (working (Migrate.reset_conn (Migrate.truncate_table cfg st t))) tables
            = cleared_by_reset db tables) as Hcl.
    { unfold cleared_by_reset.
      rewrite (list_filter_iff _ (λ t, truncatable db t))
        by (intros x; by rewrite Htr).
      by rewrite Hw1. }
    rewrite Hw2, Hn2, Hn1, Hcl, Hw1, emptied_app.
    rewrite (list_filter_iff (λ t0, truncatable (emptied db _) t0)
               (λ t0, truncatable db t0))
      by (intros x; by rewrite truncatable_emptied).
    unfold cleared_by_reset. rewrite filter_cons.
    destruct (truncatable db t) eqn:Ht.
    + rewrite decide_True by done. simpl. split; [done|]. lia.
    + rewrite decide_False by (by intros ?). simpl. split; [done|]. lia.
Qed.

End reset_effect.

(** * The claims *)

(** C4. The ordering resolver of both scripts is deterministic on candidate
    sets (two sources with the same table names are ordered alike), lists
    every eligible name exactly once and no other name, puts every eligible
    name of the priority list before every eligible name outside it, and
    lists the names outside the priority list in ascending lexicographic
    order. *)
Theorem ordering_resolver_resolved (cfg : config) (mysql mysql' : database)
    (postgres_conn : connection) :
  dom (relations mysql) = dom (relations mysql') →
  (Migrate.get_mysql_tables_ordered cfg mysql postgres_conn
     = Migrate.get_mysql_tables_ordered cfg mysql' postgres_conn
   ∧ resolved (PRIORITY_TABLES_ORDER cfg) (eligible_to_migrate cfg mysql postgres_conn)
       (Migrate.get_mysql_tables_ordered cfg mysql postgres_conn))
  ∧ (Verify.get_all_tables cfg (connect mysql) postgres_conn
       = Verify.get_all_tables cfg (connect mysql') postgres_conn
     ∧ resolved (PRIORITY_TABLES_ORDER cfg)
         (eligible_to_verify cfg (connect mysql) postgres_conn)
         (Verify.get_all_tables cfg (connect mysql) postgres_conn)).
Proof.
  intros Hdom. split; split.
  - by apply get_mysql_tables_ordered_dom.
  - apply get_mysql_tables_ordered_resolved.
  - by apply get_all_tables_dom.
  - apply get_all_tables_resolved.
Qed.

Lemma ordering_resolver_resolved_witness :
  dom (relations ex_mysql) = dom (relations ex_mysql_later)
  ∧ (Migrate.get_mysql_tables_ordered ex_cfg ex_mysql (connect ex_postgres)
       = Migrate.get_mysql_tables_ordered ex_cfg ex_mysql_later (connect ex_postgres)
     ∧ resolved (PRIORITY_TABLES_ORDER ex_cfg)
         (eligible_to_migrate ex_cfg ex_mysql (connect ex_postgres))
         (Migrate.get_mysql_tables_ordered ex_cfg ex_mysql (connect ex_postgres)))
  ∧ (Verify.get_all_tables ex_cfg (connect ex_mysql) (connect ex_postgres)
       = Verify.get_all_tables ex_cfg (connect ex_mysql_later) (connect ex_postgres)
     ∧ resolved (PRIORITY_TABLES_ORDER ex_cfg)
         (eligible_to_verify ex_cfg (connect ex_mysql) (connect ex_postgres))
         (Verify.get_all_tables ex_cfg (connect ex_mysql) (connect ex_postgres))).
Proof.
  assert (dom (relations ex_mysql) = dom (relations ex_mysql_later)) as Hdom
    by (vm_compute; reflexivity).
  split; [exact Hdom|].
  exact (ordering_resolver_resolved ex_cfg ex_mysql ex_mysql_later
           (connect ex_postgres) Hdom).
Defined.

(** C3, as stated, fails: with [skip_missing_tables] switched off the
    resolver still drops a source table that the destination lacks. *)
Lemma absent_table_dropped_with_flag_off :
  ¬ dropped_iff_skip_missing (set_skip_missing_tables false ex_cfg) ex_mysql
      (connect ex_postgres) "legacy_only".
Proof.
  intros H.
  assert ("legacy_only" ∉ Migrate.get_mysql_tables_ordered
            (set_skip_missing_tables false ex_cfg) ex_mysql (connect ex_postgres))
    as Hdropped.
  { apply (bool_decide_unpack _). by vm_compute. }
  apply H in Hdropped; [discriminate Hdropped|..].
  - apply (bool_decide_unpack _). by vm_compute.
  - apply (bool_decide_unpack _). by vm_compute.
  - reflexivity.
  - reflexivity.
Qed.

(** C3, amended.  In the migration path a candidate that is absent from the
    destination is always dropped from the processing sequence; the resolver
    does not read [skip_missing_tables], so its result is the same for both
    values of the flag. *)
Theorem absent_tables_always_dropped (cfg : config) (b : bool) (mysql : database)
    (postgres_conn : connection) (t : string) :
  Migrate.table_exists postgres_conn t = false →
  (t ∉ Migrate.get_mysql_tables_ordered (set_skip_missing_tables b cfg) mysql
         postgres_conn)
  ∧ Migrate.get_mysql_tables_ordered (set_skip_missing_tables b cfg) mysql
      postgres_conn
    = Migrate.get_mysql_tables_ordered cfg mysql postgres_conn.
Proof.
  intros Habsent. split; [|done].
  destruct (get_mysql_tables_ordered_resolved (set_skip_missing_tables b cfg)
              mysql postgres_conn) as (_ & Hin & _).
  rewrite Hin. unfold eligible_to_migrate. rewrite Habsent.
  by intros (_ & _ & _ & ?).
Qed.

Lemma absent_tables_always_dropped_witness :
  Migrate.table_exists (connect ex_postgres) "legacy_only" = false
  ∧ ("legacy_only" ∉ Migrate.get_mysql_tables_ordered
                       (set_skip_missing_tables false ex_cfg) ex_mysql
                       (connect ex_postgres))
  ∧ Migrate.get_mysql_tables_ordered (set_skip_missing_tables false ex_cfg) ex_mysql
      (connect ex_postgres)
    = Migrate.get_mysql_tables_ordered ex_cfg ex_mysql (connect ex_postgres).
Proof.
  split; [reflexivity|].
  apply (absent_tables_always_dropped ex_cfg false ex_mysql (connect ex_postgres)
           "legacy_only").
  reflexivity.
Defined.

(** C5, as stated, fails: the reset of the shipped configuration names
    [x_portal_user] in a clear statement, and TRUNCATE ... CASCADE empties
    [x_portal_user_role] with it, a table that is not on the priority
    list. *)
Lemma cascade_clears_table_outside_priority :
  ¬ clears_only_priority_tables MIGRATION_CONFIG ex_postgres_cascade.
Proof.
  intros H.
  assert ("x_portal_user_role" ∈ PRIORITY_TABLES_ORDER MIGRATION_CONFIG) as Hin.
  { apply H. vm_compute. discriminate. }
  revert Hin. apply (bool_decide_unpack _). by vm_compute.
Qed.

(** C5, amended.  For every priority list and destination, the tables the
    reset names in a clear statement are, in this order, the reverse of the
    priority list filtered to the relations the destination has: no clear
    statement names a table outside the priority list and none is left out
    for a priority table that exists.  A table outside the priority list can
    still lose its rows: every relation the reset changes is a table named
    in a clear statement or one that TRUNCATE ... CASCADE clears with such a
    table. *)
Theorem reset_clears_reverse_priority (cfg : config) (postgres : database) :
  let r := Migrate.truncate_postgres_tables cfg (connect postgres) in
  let cleared := truncate_targets (issued (Migrate.reset_conn r)) in
  cleared = filter (λ t, Migrate.table_exists (connect postgres) t)
              (reverse (PRIORITY_TABLES_ORDER cfg))
  ∧ (∀ t, t ∈ cleared → t ∈ PRIORITY_TABLES_ORDER cfg)
  ∧ (∀ t, t ∈ PRIORITY_TABLES_ORDER cfg →
          Migrate.table_exists (connect postgres) t = true → t ∈ cleared)
  ∧ (∀ x, relations (committed (Migrate.reset_conn r)) !! x ≠ relations postgres !! x →
          ∃ t, t ∈ cleared ∧ x ∈ t :: cascade postgres t).
Proof.
  intros r cleared.
  assert (cleared = filter (λ t, Migrate.table_exists (connect postgres) t)
                      (reverse (PRIORITY_TABLES_ORDER cfg))) as Heq.
  { apply truncate_postgres_tables_targets. }
  split_and!; [done|..].
  - intros t. rewrite Heq, list_elem_of_filter, elem_of_reverse. tauto.
  - intros t Ht Hex. rewrite Heq, list_elem_of_filter, elem_of_reverse.
    split; [by rewrite Hex|done].
  - intros x Hx.
    destruct (truncate_loop_effect cfg (reverse (PRIORITY_TABLES_ORDER cfg))
                (Migrate.mkReset (connect postgres) 0 []))
      as ([Hs _] & Hw & _); [done|].
    assert (committed (Migrate.reset_conn r)
            = emptied postgres
                (cleared_by_reset postgres (reverse (PRIORITY_TABLES_ORDER cfg))))
      as Hcommitted.
    { subst r. unfold Migrate.truncate_postgres_tables. cbn [Migrate.reset_conn].
      by rewrite <-Hs, Hw. }
    rewrite Hcommitted, emptied_lookup in Hx.
    destruct (decide (x ∈ cleared_by_reset postgres
                            (reverse (PRIORITY_TABLES_ORDER cfg)))) as [Hin|]; [|done].
    unfold cleared_by_reset in Hin.
    apply list_elem_of_bind in Hin as (t & Hxt & Ht).
    apply list_elem_of_filter in Ht as [Htr Ht].
    exists t. split; [|done].
    rewrite Heq, list_elem_of_filter. split; [|done].
    apply Is_true_true in Htr. apply truncatable_exists in Htr.
    apply Is_true_true. by rewrite table_exists_usable.
Qed.

(** C10. Two resets that differ only in [skip_missing_tables] send the same
    statements and end in the same state, so they ask to clear the same
    tables; they report the same tables as missing, namely the priority
    tables the destination lacks; they count the same number of cleared
    tables; and neither asks to clear a missing table. *)
Theorem reset_independent_of_skip_missing (cfg : config) (b b' : bool)
    (postgres : database) :
  let r := Migrate.truncate_postgres_tables (set_skip_missing_tables b cfg)
             (connect postgres) in
  let r' := Migrate.truncate_postgres_tables (set_skip_missing_tables b' cfg)
              (connect postgres) in
  Migrate.reset_conn r = Migrate.reset_conn r'
  ∧ truncate_targets (issued (Migrate.reset_conn r))
    = truncate_targets (issued (Migrate.reset_conn r'))
  ∧ skipped_tables (Migrate.reset_log r) = skipped_tables (Migrate.reset_log r')
  ∧ skipped_tables (Migrate.reset_log r)
    = filter (λ t, ¬ Migrate.table_exists (connect postgres) t)
        (reverse (PRIORITY_TABLES_ORDER cfg))
  ∧ Migrate.truncated_count r = Migrate.truncated_count r'
  ∧ ∀ t, Migrate.table_exists (connect postgres) t = false →
         (t ∉ truncate_targets (issued (Migrate.reset_conn r)))
         ∧ (t ∉ truncate_targets (issued (Migrate.reset_conn r'))).
Proof.
  intros r r'.
  destruct (truncate_loop_flag cfg b b' (reverse (PRIORITY_TABLES_ORDER cfg))
              (Migrate.mkReset (connect postgres) 0 [])
              (Migrate.mkReset (connect postgres) 0 []))
    as (Hc & Hn & Hl); [done..|].
  assert (Migrate.reset_conn r = Migrate.reset_conn r') as Hconn by exact Hc.
  assert (∀ t, Migrate.table_exists (connect postgres) t = false →
               t ∉ truncate_targets (issued (Migrate.reset_conn r))) as Hnever.
  { intros t Hex. subst r.
    rewrite truncate_postgres_tables_targets, list_elem_of_filter, Hex.
    by intros [? _]. }
  split_and!.
  - done.
  - by rewrite Hconn.
  - subst r r'. unfold Migrate.truncate_postgres_tables. simpl.
    unfold skipped_tables in *. rewrite !omap_app, Hl. done.
  - subst r. unfold Migrate.truncate_postgres_tables. simpl.
    unfold skipped_tables at 1. rewrite omap_app. simpl. rewrite app_nil_r.
    fold (skipped_tables (Migrate.reset_log
      (foldl (Migrate.truncate_table (set_skip_missing_tables b cfg))
         (Migrate.mkReset (connect postgres) 0 [])
         (reverse (PRIORITY_TABLES_ORDER cfg))))).
    by rewrite truncate_loop_skipped.
  - exact Hn.
  - intros t Hex. split; [|rewrite <-Hconn]; by apply Hnever.
Qed.

(** C6. When the source read of a table returns no row, the transfer returns
    0 and hands the connection back as it was: neither the committed nor the
    working state changes and no statement, so no INSERT, is sent. *)
Theorem empty_table_no_writes (cfg : config) (mysql : database)
    (postgres_conn : connection) (t : string) :
  select_all mysql t = Some [] →
  let '(count, c) := Migrate.migrate_table_data cfg mysql postgres_conn t in
  count = 0 ∧ c = postgres_conn
  ∧ committed c = committed postgres_conn ∧ working c = working postgres_conn
  ∧ issued c = issued postgres_conn.
Proof.
  intros Hrows. unfold Migrate.migrate_table_data. by rewrite Hrows.
Qed.

Lemma empty_table_no_writes_witness :
  select_all ex_mysql "x_group" = Some []
  ∧ let '(count, c) :=
      Migrate.migrate_table_data ex_cfg ex_mysql (connect ex_postgres) "x_group" in
    count = 0 ∧ c = connect ex_postgres
    ∧ committed c = committed (connect ex_postgres)
    ∧ working c = working (connect ex_postgres)
    ∧ issued c = issued (connect ex_postgres).
Proof.
  split; [reflexivity|].
  apply (empty_table_no_writes ex_cfg ex_mysql (connect ex_postgres) "x_group").
  reflexivity.
Defined.

(** C1, failing input.  Batches of two; the source holds the rows 1, 2, 3
    and one row without id, which the destination rejects.  The first batch
    is inserted, the second raises, [postgres_conn.rollback()] discards the
    first batch with it, and the replay inserts row 3 and is rejected on
    the last row, which aborts the transaction: the [commit()] of line 259
    ends it as a rollback.  The transfer returns 3 = 4 - 1, yet no row is
    committed. *)
Theorem fallback_discards_earlier_batches :
  select_all ex_mysql "x_user" = Some [[VInt 1]; [VInt 2]; [VInt 3]; [VNone]]
  ∧ batch_size ex_cfg = 2
  ∧ rows_of ex_postgres "x_user" = []
  ∧ (Migrate.migrate_table_data ex_cfg ex_mysql (connect ex_postgres) "x_user").1 = 3
  ∧ rows_of (committed (Migrate.migrate_table_data ex_cfg ex_mysql
                          (connect ex_postgres) "x_user").2) "x_user"
    = []
  ∧ committed (Migrate.migrate_table_data ex_cfg ex_mysql
                 (connect ex_postgres) "x_user").2
    = ex_postgres
  ∧ issued (Migrate.migrate_table_data ex_cfg ex_mysql
              (connect ex_postgres) "x_user").2
    = [INSERT "x_user" ["id"] [VInt 1]; INSERT "x_user" ["id"] [VInt 2];
       INSERT "x_user" ["id"] [VInt 3]; INSERT "x_user" ["id"] [VNone];
       ROLLBACK;
       INSERT "x_user" ["id"] [VInt 3]; INSERT "x_user" ["id"] [VNone];
       COMMIT].
Proof. by vm_compute. Qed.

(** C2, as stated, fails: the first batch of [x_user] is inserted without
    error, and its rows are not committed when the transfer returns. *)
Lemma first_batch_not_durable :
  ¬ successful_batches_survive ex_cfg ex_mysql (connect ex_postgres) "x_user".
Proof.
  intros H.
  specialize (H ["id"] [[VInt 1]; [VInt 2]; [VInt 3]; [VNone]] 0%nat
                [[VInt 1]; [VInt 2]] 0 (connect ex_postgres) [VInt 1]).
  assert (stored_in
            (committed (Migrate.migrate_table_data ex_cfg ex_mysql
                          (connect ex_postgres) "x_user").2)
            "x_user" ["id"] [VInt 1]) as Hin.
  { apply H; [reflexivity..|left]. }
  vm_compute in Hin.
  apply list_elem_of_In in Hin. simpl in Hin. exact Hin.
Qed.

(** C2, amended.  The clear of one table, the transfer of one table and the
    update of one sequence each end at a commit or rollback: when the unit
    returns, the connection is as it was handed in or nothing is pending on
    it.  The batch inserts of one table are no commit boundaries: the batch
    loop changes nothing in the committed state and sends no COMMIT.  When
    the batch loop has run, the transfer sends exactly one COMMIT, as its
    last statement; it makes durable what the loop left pending, and nothing
    when the loop left the transaction aborted. *)
Theorem commit_boundaries :
  (∀ cfg st t,
     Migrate.reset_conn (Migrate.truncate_table cfg st t) = Migrate.reset_conn st
     ∨ settled (Migrate.reset_conn (Migrate.truncate_table cfg st t)))
  ∧ (∀ cfg mysql c t,
       (Migrate.migrate_table_data cfg mysql c t).2 = c
       ∨ settled (Migrate.migrate_table_data cfg mysql c t).2)
  ∧ (∀ n c binding,
       (Migrate.update_sequence (n, c) binding).2 = c
       ∨ settled (Migrate.update_sequence (n, c) binding).2)
  ∧ (∀ cfg t columns converted_rows c,
       committed (Migrate.insert_batches cfg t columns converted_rows c).2
       = committed c
       ∧ ∃ new, issued (Migrate.insert_batches cfg t columns converted_rows c).2
                  = issued c ++ new
                ∧ COMMIT ∉ new)
  ∧ (∀ cfg mysql c t rows columns,
       select_all mysql t = Some rows → rows ≠ [] →
       show_columns mysql t = Some columns → batch_size cfg ≠ 0 →
       let loop := (Migrate.insert_batches cfg t columns
                      (Migrate.convert_data_types cfg t columns rows) c).2 in
       let c' := (Migrate.migrate_table_data cfg mysql c t).2 in
       (∃ new, issued c' = issued c ++ new ++ [COMMIT] ∧ COMMIT ∉ new)
       ∧ committed c' = (if aborted loop then committed c else working loop)
       ∧ settled c').
Proof.
  split_and!.
  - apply truncate_table_settled.
  - apply migrate_table_data_settled.
  - apply update_sequence_settled.
  - intros. apply insert_batches_loop.
  - intros cfg mysql c t rows columns Hrows Hne Hcols Hsize loop c'.
    subst c'. rewrite (migrate_table_data_loop cfg mysql c t rows columns) by done.
    cbn [snd]. fold loop.
    destruct (insert_batches_loop t columns
                (Migrate.batches (batch_size cfg)
                   (Migrate.convert_data_types cfg t columns rows)) 0 c)
      as (Hcommitted & new & Hnew & Hno).
    fold (Migrate.insert_batches cfg t columns
            (Migrate.convert_data_types cfg t columns rows) c) in Hcommitted, Hnew.
    fold loop in Hcommitted, Hnew.
    split_and!.
    + exists new. by rewrite commit_issued, Hnew, <-app_assoc.
    + unfold commit. destruct (aborted loop); simpl; congruence.
    + apply commit_settled.
Qed.

Lemma commit_boundaries_witness :
  select_all ex_mysql "x_user" = Some [[VInt 1]; [VInt 2]; [VInt 3]; [VNone]]
  ∧ show_columns ex_mysql "x_user" = Some ["id"]
  ∧ batch_size ex_cfg ≠ 0
  ∧ let c' := (Migrate.migrate_table_data ex_cfg ex_mysql (connect ex_postgres)
                 "x_user").2 in
    (∃ new, issued c' = issued (connect ex_postgres) ++ new ++ [COMMIT]
            ∧ COMMIT ∉ new)
    ∧ settled c'.
Proof.
  split_and!; [reflexivity|reflexivity|discriminate|].
  destruct commit_boundaries as (_ & _ & _ & _ & H).
  destruct (H ex_cfg ex_mysql (connect ex_postgres) "x_user"
              [[VInt 1]; [VInt 2]; [VInt 3]; [VNone]] ["id"])
    as (Hissued & _ & Hsettled); [reflexivity|discriminate|reflexivity|discriminate|].
  split; [exact Hissued|exact Hsettled].
Defined.

(** C7. The reconciler on a connection with nothing pending, for every
    binding of its table.  When table and sequence both exist: a maximum id
    N > 0 leaves the bound sequence at exactly N, set by a [setval]; an empty
    table leaves the sequence at its value and no [setval] names it.  When
    the table or the sequence does not exist, the sequence is as before and
    no [setval] names it.  The reconciler leaves nothing pending. *)
Theorem sequence_reconciled (postgres_conn : connection) (t q : string) :
  settled postgres_conn →
  (t, q) ∈ Migrate.sequence_mappings →
  let '(updated_count, c') := Migrate.update_sequences postgres_conn in
  ∃ new, issued c' = issued postgres_conn ++ new
  ∧ settled c'
  ∧ (Migrate.table_exists postgres_conn t = true →
     exists_in_sequences (working postgres_conn) q = true →
       (∀ N, select_max_id (working postgres_conn) t = Some N → 0 < N →
          sequences (committed c') !! q = Some N ∧ q ∈ setval_targets new)
       ∧ (rows_of (working postgres_conn) t = [] →
          sequences (committed c') !! q = sequences (committed postgres_conn) !! q
          ∧ (q ∉ setval_targets new)))
  ∧ (Migrate.table_exists postgres_conn t = false
     ∨ exists_in_sequences (working postgres_conn) q = false →
     sequences (committed c') !! q = sequences (committed postgres_conn) !! q
     ∧ (q ∉ setval_targets new)).
Proof.
  intros Hc Hin.
  pose proof (update_sequences_final postgres_conn t q Hc Hin) as Hfinal.
  destruct (update_sequences_over_frame Migrate.sequence_mappings 0 postgres_conn Hc)
    as (Hc' & _).
  destruct (update_sequences_over_setvals Migrate.sequence_mappings 0 postgres_conn Hc)
    as (new & Hnew & Hsent).
  pose proof (setval_sent_iff postgres_conn Migrate.sequence_mappings t q
                sequence_mappings_NoDup Hin) as Hiff.
  rewrite <-Hsent in Hiff.
  fold (Migrate.update_sequences_over Migrate.sequence_mappings postgres_conn) in *.
  fold (Migrate.update_sequences postgres_conn) in *.
  destruct (Migrate.update_sequences postgres_conn) as [updated_count c'].
  cbn [fst snd] in *. exists new.
  assert (sequences (committed c') !! q = reconciled postgres_conn t q) as Hq.
  { destruct Hc' as [<- _]. exact Hfinal. }
  assert (sequences (committed postgres_conn) = sequences (working postgres_conn))
    as Hold by (by destruct Hc as [-> _]).
  unfold reconciled in Hq. unfold advances in Hiff. cbn [fst snd] in Hiff.
  split_and!; [done|done|..].
  - intros Ht Hs. rewrite Ht, Hs in Hq, Hiff. cbn [andb] in Hq, Hiff. split.
    + intros N HN Hpos. rewrite HN in Hq, Hiff.
      rewrite (proj2 (Z.ltb_lt 0 N) Hpos) in Hq, Hiff. split; [done|by apply Hiff].
    + intros Hrows. rewrite Hold.
      destruct (select_max_id (working postgres_conn) t) as [m|] eqn:Hm.
      * apply (select_max_id_rows_nil _ _ _ Hrows) in Hm. subst m.
        cbn in Hq, Hiff. split; [done|]. intros Hsent'. by apply Hiff in Hsent'.
      * split; [done|]. intros Hsent'. by apply Hiff in Hsent'.
  - intros Hmissing. rewrite Hold.
    assert (Migrate.table_exists postgres_conn t
            && exists_in_sequences (working postgres_conn) q = false) as Hno.
    { destruct Hmissing as [-> | ->]; [done|apply andb_false_r]. }
    rewrite Hno in Hq, Hiff. split; [done|].
    intros Hsent'. by apply Hiff in Hsent'.
Qed.

Lemma sequence_reconciled_witness :
  settled (connect ex_postgres)
  ∧ ("x_group", "x_group_seq") ∈ Migrate.sequence_mappings
  ∧ ("x_user", "x_user_seq") ∈ Migrate.sequence_mappings
  ∧ ("x_tag", "x_tag_seq") ∈ Migrate.sequence_mappings
  ∧ select_max_id (working (connect ex_postgres)) "x_group" = Some 7
  ∧ rows_of (working (connect ex_postgres)) "x_user" = []
  ∧ Migrate.table_exists (connect ex_postgres) "x_tag" = false
  ∧ (let '(updated_count, c') := Migrate.update_sequences (connect ex_postgres) in
     sequences (committed c') !! "x_group_seq" = Some 7
     ∧ sequences (committed c') !! "x_user_seq" = Some 1
     ∧ sequences (committed c') !! "x_tag_seq" = None).
Proof.
  assert (settled (connect ex_postgres)) as Hc by (by split).
  assert (("x_group", "x_group_seq") ∈ Migrate.sequence_mappings) as Hgroup
    by (apply (bool_decide_unpack _); by vm_compute).
  assert (("x_user", "x_user_seq") ∈ Migrate.sequence_mappings) as Huser
    by (apply (bool_decide_unpack _); by vm_compute).
  assert (("x_tag", "x_tag_seq") ∈ Migrate.sequence_mappings) as Htag
    by (apply (bool_decide_unpack _); by vm_compute).
  split_and!; [exact Hc|exact Hgroup|exact Huser|exact Htag|reflexivity..|].
  pose proof (sequence_reconciled (connect ex_postgres) "x_group" "x_group_seq"
                Hc Hgroup) as H1.
  pose proof (sequence_reconciled (connect ex_postgres) "x_user" "x_user_seq"
                Hc Huser) as H2.
  pose proof (sequence_reconciled (connect ex_postgres) "x_tag" "x_tag_seq"
                Hc Htag) as H3.
  destruct (Migrate.update_sequences (connect ex_postgres)) as [updated_count c'].
  destruct H1 as (new1 & _ & _ & H1 & _).
  destruct H2 as (new2 & _ & _ & H2 & _).
  destruct H3 as (new3 & _ & _ & _ & H3).
  split_and!.
  - destruct (H1 eq_refl eq_refl) as [H7 _].
    by destruct (H7 7 eq_refl eq_refl) as [? _].
  - destruct (H2 eq_refl eq_refl) as [_ H0].
    by destruct (H0 eq_refl) as [-> _].
  - destruct H3 as [-> _]; [by left|reflexivity].
Defined.

(** C8, as stated, fails: the source table [x_group] is empty, the
    destination holds one row of it, and the verification exits with 0. *)
Lemma verification_passes_with_unequal_counts :
  ¬ passes_only_when_counts_match ex_cfg ex_mysql_empty ex_postgres.
Proof.
  intros H.
  destruct (H eq_refl
              (Verify.verify_table_data (connect ex_mysql_empty) (connect ex_postgres)
                 "x_group").1)
    as [Hcount _].
  - apply (list_elem_of_lookup_2 _ 1%nat). vm_compute. reflexivity.
  - vm_compute in Hcount. discriminate Hcount.
Qed.

(** C8, amended.  The verification prints the report and exits with 0
    exactly when no checked table has status MISMATCH, MISSING_POSTGRES or
    EMPTY_POSTGRES, that is, when every checked table is recorded as missing
    on the source, or as present on both sides with equal recorded counts or
    with a recorded source count of 0; otherwise it exits with 1. *)
Theorem verification_exit_status (cfg : config) (mysql postgres : database) :
  let '(printed, code) := Verify.main cfg mysql postgres in
  printed = Verify.generate_report (Verify.verify_all cfg mysql postgres)
  ∧ (code = 0 ∨ code = 1)
  ∧ (code = 0 ↔
       ∀ r, r ∈ Verify.verify_all cfg mysql postgres →
            Verify.r_status r ≠ Verify.MISMATCH
            ∧ Verify.r_status r ≠ Verify.MISSING_POSTGRES
            ∧ Verify.r_status r ≠ Verify.EMPTY_POSTGRES)
  ∧ (code = 0 ↔ ∀ r, r ∈ Verify.verify_all cfg mysql postgres → passing r).
Proof.
  unfold Verify.main.
  assert (Verify.mismatched_tables (Verify.verify_all cfg mysql postgres) = [] ↔
          ∀ r, r ∈ Verify.verify_all cfg mysql postgres →
               Verify.r_status r ∉
                 [Verify.MISMATCH; Verify.MISSING_POSTGRES; Verify.EMPTY_POSTGRES])
    as Hnil by apply filter_nil_iff.
  assert (∀ r, r ∈ Verify.verify_all cfg mysql postgres →
               (Verify.r_status r ∉
                  [Verify.MISMATCH; Verify.MISSING_POSTGRES; Verify.EMPTY_POSTGRES]
                ↔ passing r)) as Hpass.
  { intros r (c & t & ->)%verify_all_elem. apply verify_table_data_passing. }
  assert (∀ s : Verify.status,
            s ∉ [Verify.MISMATCH; Verify.MISSING_POSTGRES; Verify.EMPTY_POSTGRES]
            ↔ s ≠ Verify.MISMATCH ∧ s ≠ Verify.MISSING_POSTGRES
              ∧ s ≠ Verify.EMPTY_POSTGRES) as Hthree.
  { intros s. rewrite !not_elem_of_cons. pose proof (not_elem_of_nil s). tauto. }
  destruct (Verify.mismatched_tables (Verify.verify_all cfg mysql postgres))
    as [|bad rest] eqn:Hbad.
  - split_and!; [done|by left|..]; (split; [intros _|done]); intros r Hr.
    + apply Hthree. by apply Hnil.
    + apply Hpass; [done|]. by apply Hnil.
  - split_and!; [done|by right|..]; (split; [done|]); intros Hall; exfalso.
    + assert (bad :: rest = []) as Hcontra; [|done].
      apply Hnil. intros r Hr. apply Hthree. by apply Hall.
    + assert (bad :: rest = []) as Hcontra; [|done].
      apply Hnil. intros r Hr. apply Hpass; [done|]. by apply Hall.
Qed.

(** C9. For a table that both databases list, when the row-count probe
    fails on both sides and each returns -1, the status is MATCH: equality of
    the two recorded counts is tested first. *)
Theorem both_probes_failing_is_match (mysql_conn postgres_conn : connection)
    (t : string) :
  Verify.table_exists mysql_conn t Verify.mysql = true →
  Verify.table_exists postgres_conn t Verify.postgresql = true →
  (Verify.get_table_row_count mysql_conn t Verify.mysql).1 = -1 →
  (Verify.get_table_row_count postgres_conn t Verify.postgresql).1 = -1 →
  Verify.r_status (Verify.verify_table_data mysql_conn postgres_conn t).1
  = Verify.MATCH.
Proof.
  intros Hm Hp Hcm Hcp. apply verify_table_data_equal_counts; [done..|].
  by rewrite Hcm, Hcp.
Qed.

Lemma both_probes_failing_is_match_witness :
  Verify.table_exists (connect ex_mysql_unreadable) "x_user" Verify.mysql = true
  ∧ Verify.table_exists (connect ex_postgres_unreadable) "x_user" Verify.postgresql
    = true
  ∧ (Verify.get_table_row_count (connect ex_mysql_unreadable) "x_user"
       Verify.mysql).1 = -1
  ∧ (Verify.get_table_row_count (connect ex_postgres_unreadable) "x_user"
       Verify.postgresql).1 = -1
  ∧ Verify.r_status
      (Verify.verify_table_data (connect ex_mysql_unreadable)
         (connect ex_postgres_unreadable) "x_user").1
    = Verify.MATCH.
Proof.
  split_and!; [reflexivity..|].
  apply (both_probes_failing_is_match (connect ex_mysql_unreadable)
           (connect ex_postgres_unreadable) "x_user"); reflexivity.
Defined.

(** * Further properties *)

(** ** Type conversion *)

Section conversion.
Implicit Types (f : value → option value) (columns cs : list string) (r : row).

Lemma convert_column_length f columns r c :
  length (Migrate.convert_column f columns r c) = length r.
Proof.
  unfold Migrate.convert_column. case_decide; [|done].
  destruct (r !! index_of c columns); [|done].
  destruct (f v); [|done]. apply length_insert.
Qed.

Lemma convert_column_other f columns r c (j : nat) :
  index_of c columns ≠ j → Migrate.convert_column f columns r c !! j = r !! j.
Proof.
  intros Hne. unfold Migrate.convert_column. case_decide; [|done].
  destruct (r !! index_of c columns); [|done].
  destruct (f v); [|done]. by apply list_lookup_insert_ne.
Qed.

Lemma convert_columns_length f columns cs : ∀ r,
  length (foldl (Migrate.convert_column f columns) r cs) = length r.
Proof.
  induction cs as [|c cs IH]; intros r; [done|].
  cbn [foldl]. by rewrite IH, convert_column_length.
Qed.

Lemma convert_columns_other f columns cs (j : nat) : ∀ r,
  (∀ c, c ∈ cs → c ∈ columns → index_of c columns ≠ j) →
  foldl (Migrate.convert_column f columns) r cs !! j = r !! j.
Proof.
  induction cs as [|c cs IH]; intros r Hj; [done|].
  cbn [foldl]. rewrite IH by (intros c' Hc'; apply Hj; by right).
  destruct (decide (c ∈ columns)) as [Hc|Hc].
  - apply convert_column_other, Hj; [left|done].
  - unfold Migrate.convert_column. by rewrite decide_False.
Qed.

Lemma apply_conversion_length t columns r (entry : string * conversion_config) :
  length (Migrate.apply_conversion t columns r entry) = length r.
Proof.
  unfold Migrate.apply_conversion.
  destruct (conv_tables entry.2 !! t); [|done].
  destruct (conv_conversion entry.2); [|done]. apply convert_columns_length.
Qed.

Lemma apply_conversion_other t columns r (entry : string * conversion_config) (j : nat) :
  (∀ cs c, conv_tables entry.2 !! t = Some cs → c ∈ cs → c ∈ columns →
           index_of c columns ≠ j) →
  Migrate.apply_conversion t columns r entry !! j = r !! j.
Proof.
  intros Hj. unfold Migrate.apply_conversion.
  destruct (conv_tables entry.2 !! t) as [cs|]; [|done].
  destruct (conv_conversion entry.2); [|done].
  apply convert_columns_other. intros c. by apply Hj.
Qed.

Lemma convert_row_length t columns (entries : list (string * conversion_config)) :
  ∀ r, length (foldl (Migrate.apply_conversion t columns) r entries) = length r.
Proof.
  induction entries as [|e entries IH]; intros r; [done|].
  cbn [foldl]. by rewrite IH, apply_conversion_length.
Qed.

Lemma convert_row_other t columns (entries : list (string * conversion_config))
    (j : nat) : ∀ r,
  (∀ e cs c, e ∈ entries → conv_tables e.2 !! t = Some cs → c ∈ cs → c ∈ columns →
             index_of c columns ≠ j) →
  foldl (Migrate.apply_conversion t columns) r entries !! j = r !! j.
Proof.
  induction entries as [|e entries IH]; intros r Hj; [done|].
  cbn [foldl]. rewrite IH by (intros e' cs c He'; apply Hj; by right).
  apply apply_conversion_other. intros cs c. apply Hj. left.
Qed.

Lemma convert_data_types_length cfg t columns (rows : list row) :
  length (Migrate.convert_data_types cfg t columns rows) = length rows.
Proof. unfold Migrate.convert_data_types. apply length_fmap. Qed.

Lemma convert_data_types_widths cfg t columns (rows : list row) (n : nat) :
  Forall (λ r, length r = n) rows →
  Forall (λ r, length r = n) (Migrate.convert_data_types cfg t columns rows).
Proof.
  intros Hall. unfold Migrate.convert_data_types. apply Forall_fmap.
  eapply Forall_impl; [done|]. intros r Hr. simpl. by rewrite convert_row_length.
Qed.

End conversion.

(** X1. Type conversion changes values only where a rule for the table names
    a column: it keeps the number of rows, the length of every row, and the
    value at every position that is not the position of a configured column
    of that table. *)
Theorem conversion_touches_only_configured_columns (cfg : config) (t : string)
    (columns : list string) (rows : list row) :
  length (Migrate.convert_data_types cfg t columns rows) = length rows
  ∧ ∀ (k : nat) (r r' : row),
      rows !! k = Some r →
      Migrate.convert_data_types cfg t columns rows !! k = Some r' →
      length r' = length r
      ∧ ∀ j : nat,
          (∀ e cs c, e ∈ TYPE_CONVERSIONS cfg → conv_tables e.2 !! t = Some cs →
                     c ∈ cs → c ∈ columns → index_of c columns ≠ j) →
          r' !! j = r !! j.
Proof.
  split; [apply convert_data_types_length|].
  intros k r r' Hr Hr'. unfold Migrate.convert_data_types in Hr'.
  rewrite list_lookup_fmap, Hr in Hr'. simpl in Hr'. injection Hr' as <-.
  split; [apply convert_row_length|].
  intros j Hj. by apply convert_row_other.
Qed.

Section boolean_rule.
Implicit Types (f : value → option value) (columns cs : list string) (r : row).

Lemma index_of_lookup c columns : c ∈ columns → columns !! index_of c columns = Some c.
Proof.
  induction columns as [|y columns IH]; intros Hin; [by apply elem_of_nil in Hin|].
  simpl. destruct (decide (c = y)) as [->|Hne]; [done|].
  apply elem_of_cons in Hin as [|Hin]; [done|]. by apply IH.
Qed.

Lemma index_of_inj c c' columns :
  c ∈ columns → c' ∈ columns → index_of c columns = index_of c' columns → c = c'.
Proof.
  intros Hc Hc' Heq. apply index_of_lookup in Hc, Hc'. rewrite Heq in Hc. congruence.
Qed.

(** A converted value stays as it is under further turns when the conversion
    maps it to itself. *)
Lemma convert_column_stable f columns r c (i : nat) b :
  r !! i = Some b → f b = Some b →
  Migrate.convert_column f columns r c !! i = Some b.
Proof.
  intros Hb Hfb. unfold Migrate.convert_column. case_decide; [|done].
  destruct (decide (index_of c columns = i)) as [->|Hne].
  - rewrite Hb, Hfb. apply list_lookup_insert_eq. by eapply lookup_lt_Some.
  - destruct (r !! index_of c columns); [|done].
    destruct (f v); [|done]. etrans; [by apply list_lookup_insert_ne|done].
Qed.

Lemma convert_columns_stable f columns cs (i : nat) b : ∀ r,
  r !! i = Some b → f b = Some b →
  foldl (Migrate.convert_column f columns) r cs !! i = Some b.
Proof.
  induction cs as [|c cs IH]; intros r Hb Hfb; [done|].
  cbn [foldl]. apply IH; [|done]. by apply convert_column_stable.
Qed.

Lemma convert_columns_hit f columns cs c v b :
  c ∈ columns → f v = Some b → f b = Some b →
  ∀ r, c ∈ cs →
       r !! index_of c columns = Some v ∨ r !! index_of c columns = Some b →
       foldl (Migrate.convert_column f columns) r cs !! index_of c columns = Some b.
Proof.
  intros Hc Hfv Hfb. induction cs as [|c0 cs IH]; intros r Hin Hr.
  { by apply elem_of_nil in Hin. }
  cbn [foldl]. destruct (decide (c0 = c)) as [->|Hne].
  - apply convert_columns_stable; [|done].
    destruct Hr as [Hr|Hr]; [|by apply convert_column_stable].
    unfold Migrate.convert_column. rewrite decide_True by done.
    rewrite Hr, Hfv. apply list_lookup_insert_eq. by eapply lookup_lt_Some.
  - apply elem_of_cons in Hin as [->|Hin]; [done|].
    apply IH; [done|].
    destruct (decide (c0 ∈ columns)) as [Hc0|Hc0].
    + rewrite convert_column_other; [done|].
      intros Heq. apply Hne. by eapply index_of_inj.
    + unfold Migrate.convert_column. by rewrite decide_False.
Qed.

Lemma boolean_conversion_idempotent v b :
  boolean_conversion v = Some b → boolean_conversion b = Some b.
Proof.
  unfold boolean_conversion. intros [= <-].
  destruct v as [|z|[]|s]; try done.
  destruct z as [|p|p]; try done. by destruct p.
Qed.

End boolean_rule.

(** X2. With the boolean rule of [config.py] as the only conversion, every
    configured column of a table that the source has is converted in every
    row: 1 and True become True, 0 and False become False, anything else
    becomes None. *)
Theorem boolean_rule_applied (cfg : config) (name : string)
    (tables : gmap string (list string)) (t c : string) (cs columns : list string)
    (rows : list row) (k : nat) (r : row) (v : value) :
  TYPE_CONVERSIONS cfg = [(name, mkConversion tables (Some boolean_conversion))] →
  tables !! t = Some cs → c ∈ cs → c ∈ columns →
  rows !! k = Some r → r !! index_of c columns = Some v →
  ∃ r', Migrate.convert_data_types cfg t columns rows !! k = Some r'
        ∧ r' !! index_of c columns
          = Some (match v with
                  | VInt 1 | VBool true => VBool true
                  | VInt 0 | VBool false => VBool false
                  | _ => VNone
                  end).
Proof.
  intros Hcfg Ht Hc Hcol Hr Hv. eexists. split.
  - unfold Migrate.convert_data_types. by rewrite list_lookup_fmap, Hr.
  - rewrite Hcfg. cbn [foldl]. unfold Migrate.apply_conversion. simpl. rewrite Ht.
    eapply (convert_columns_hit boolean_conversion columns cs c v); [done| | |done|by left].
    + reflexivity.
    + by eapply boolean_conversion_idempotent.
Qed.

Lemma boolean_rule_applied_witness :
  TYPE_CONVERSIONS MIGRATION_CONFIG
    = [("boolean", mkConversion boolean_tables (Some boolean_conversion))]
  ∧ ∃ r', Migrate.convert_data_types MIGRATION_CONFIG "x_policy"
            ["id"; "is_enabled"; "is_audit_enabled"] [[VInt 5; VInt 1; VInt 0]]
            !! 0%nat = Some r'
          ∧ r' !! index_of "is_audit_enabled" ["id"; "is_enabled"; "is_audit_enabled"]
            = Some (VBool false).
Proof.
  split; [reflexivity|].
  apply (boolean_rule_applied MIGRATION_CONFIG "boolean" boolean_tables "x_policy"
           "is_audit_enabled" ["is_enabled"; "is_audit_enabled"]
           ["id"; "is_enabled"; "is_audit_enabled"] [[VInt 5; VInt 1; VInt 0]]
           0%nat [VInt 5; VInt 1; VInt 0] (VInt 0)).
  - reflexivity.
  - reflexivity.
  - apply (bool_decide_unpack _). by vm_compute.
  - apply (bool_decide_unpack _). by vm_compute.
  - reflexivity.
  - reflexivity.
Defined.

(** ** Batches *)

(** X3. For a positive batch size the slices of the batch loop partition the
    rows: put together in order they give the rows back, no slice is empty
    and none is longer than the batch size. *)
Theorem batches_partition (size : Z) (rows : list row) :
  0 < size →
  concat (Migrate.batches size rows) = rows
  ∧ Forall (λ batch, batch ≠ [] ∧ Z.of_nat (length batch) ≤ size)
      (Migrate.batches size rows).
Proof.
  intros Hpos. split; [by apply batches_concat|].
  unfold Migrate.batches, Migrate.range_step.
  rewrite (proj2 (Z.ltb_ge size 0)) by lia.
  rewrite <-list_fmap_compose. apply Forall_fmap, Forall_forall.
  intros k Hk. apply elem_of_seq in Hk as [_ Hk]. simpl in *.
  assert (Z.to_nat size ≠ 0)%nat as Hne by lia.
  pose proof (Nat.div_mod (length rows + Z.to_nat size - 1) (Z.to_nat size) Hne).
  pose proof (Nat.mod_upper_bound (length rows + Z.to_nat size - 1) (Z.to_nat size) Hne).
  assert (k * Z.to_nat size < length rows)%nat as Hlt by nia.
  split.
  - intros Hnil. apply (f_equal length) in Hnil.
    rewrite length_take, length_drop in Hnil. simpl in Hnil. lia.
  - rewrite length_take. lia.
Qed.

Lemma batches_partition_witness :
  0 < 2
  ∧ concat (Migrate.batches 2 [[VInt 1]; [VInt 2]; [VInt 3]])
    = [[VInt 1]; [VInt 2]; [VInt 3]]
  ∧ Forall (λ batch, batch ≠ [] ∧ Z.of_nat (length batch) ≤ 2)
      (Migrate.batches 2 [[VInt 1]; [VInt 2]; [VInt 3]]).
Proof.
  split; [lia|].
  apply (batches_partition 2 [[VInt 1]; [VInt 2]; [VInt 3]]). lia.
Defined.

(** ** Appending rows *)

Section appending.
Implicit Types (db : database) (c : connection) (t : string) (r : row)
  (new : list row).

Lemma set_rows_same (rel : relation) : set_rows (rel_rows rel) rel = rel.
Proof. by destruct rel. Qed.

Lemma add_rows_nil t db : add_rows t [] db = db.
Proof.
  destruct db as [rels seqs fl rj cs]. unfold add_rows, with_relations. simpl.
  f_equal. apply map_eq. intros x. rewrite lookup_alter. case_decide; [|done].
  subst. destruct (rels !! x) as [rel|]; [|done]. simpl.
  by rewrite app_nil_r, set_rows_same.
Qed.

Lemma add_rows_app t new new' db :
  add_rows t new' (add_rows t new db) = add_rows t (new ++ new') db.
Proof.
  unfold add_rows, with_relations. simpl. f_equal.
  rewrite alter_alter_eq. apply alter_ext. intros rel _. simpl.
  unfold set_rows. simpl. by rewrite app_assoc.
Qed.

Lemma add_rows_lookup t new db :
  relations (add_rows t new db) !! t
  = (λ rel, set_rows (rel_rows rel ++ new) rel) <$> relations db !! t.
Proof. unfold add_rows. simpl. apply lookup_alter_eq. Qed.

Lemma add_rows_lookup_ne t t' new db :
  t' ≠ t → relations (add_rows t new db) !! t' = relations db !! t'.
Proof. intros Hne. unfold add_rows. simpl. by apply lookup_alter_ne. Qed.

Lemma add_rows_readable t new db :
  readable (add_rows t new db) t
  = (λ rel, set_rows (rel_rows rel ++ new) rel) <$> readable db t.
Proof.
  unfold readable. simpl. case_decide; [done|]. apply lookup_alter_eq.
Qed.

Lemma add_rows_rows_of t new db :
  is_Some (relations db !! t) →
  rows_of (add_rows t new db) t = rows_of db t ++ new.
Proof.
  intros [rel Hrel]. unfold rows_of. by rewrite add_rows_lookup, Hrel.
Qed.

(** An INSERT that succeeds appends one row to its table and changes
    nothing else. *)
Lemma insert_row_Some db t columns r db' :
  insert_row db t columns r = Some db' →
  ∃ rel, readable db t = Some rel
         ∧ db' = add_rows t [stored_row (rel_columns rel) columns r] db.
Proof.
  unfold insert_row. destruct (readable db t) as [rel|] eqn:Hr; [|done].
  destruct (rel_kind rel); [|done].
  repeat (case_match; try done). intros [= <-]. exists rel. split; [done|].
  unfold add_rows. f_equal. apply readable_Some in Hr.
  apply map_eq. intros x. rewrite lookup_alter, lookup_insert.
  case_decide; [|done]. subst. by rewrite Hr.
Qed.

Lemma insert_row_accepted db t columns r (rel : relation) :
  readable db t = Some rel → rel_kind rel = BASE_TABLE →
  columns ⊆ rel_columns rel → length r = length columns →
  rejects db t (rel_rows rel) (stored_row (rel_columns rel) columns r) = false →
  insert_row db t columns r
  = Some (add_rows t [stored_row (rel_columns rel) columns r] db).
Proof.
  intros Hr Hk Hsub Hlen Hrej.
  destruct (insert_row db t columns r) as [db'|] eqn:Hi.
  - apply insert_row_Some in Hi as (rel' & Hr' & ->). congruence.
  - exfalso. unfold insert_row in Hi. rewrite Hr, Hk in Hi.
    rewrite bool_decide_eq_true_2 in Hi by done.
    rewrite bool_decide_eq_true_2 in Hi by done. simpl in Hi.
    by rewrite Hrej in Hi.
Qed.

End appending.

(** ** The transfer of accepted rows *)

Section accepted.
Implicit Types (c : connection) (t : string) (columns : list string).

Lemma executemany_accepted t columns (batch : list row) : ∀ c (rel : relation),
  aborted c = false →
  readable (working c) t = Some rel → rel_kind rel = BASE_TABLE →
  columns ⊆ rel_columns rel →
  Forall (λ r, length r = length columns) batch →
  (∀ held r, r ∈ batch →
     rejects (working c) t held (stored_row (rel_columns rel) columns r) = false) →
  executemany t columns batch c
  = (true, mkConnection (committed c)
             (add_rows t (stored_row (rel_columns rel) columns <$> batch) (working c))
             (issued c ++ (INSERT t columns <$> batch)) false).
Proof.
  induction batch as [|r batch IH]; intros c rel Hab Hr Hk Hsub Hlen Hrej.
  - simpl. rewrite add_rows_nil, app_nil_r. destruct c. simpl in Hab. by subst.
  - apply Forall_cons in Hlen as [Hlr Hlen]. cbn [executemany].
    rewrite execute_insert_usable by done.
    rewrite (insert_row_accepted _ _ _ _ rel) by (try done; apply Hrej; left).
    rewrite (IH _ (set_rows (rel_rows rel ++ [stored_row (rel_columns rel) columns r])
                     rel)); simpl.
    + rewrite add_rows_app, <-app_assoc. done.
    + done.
    + by rewrite add_rows_readable, Hr.
    + done.
    + done.
    + done.
    + intros held r' Hr'. apply Hrej. by right.
Qed.

Lemma insert_batches_accepted t columns (bs : list (list row)) :
  ∀ n c (rel : relation),
  aborted c = false →
  readable (working c) t = Some rel → rel_kind rel = BASE_TABLE →
  columns ⊆ rel_columns rel →
  Forall (λ r, length r = length columns) (concat bs) →
  (∀ held r, r ∈ concat bs →
     rejects (working c) t held (stored_row (rel_columns rel) columns r) = false) →
  foldl (Migrate.insert_batch t columns) (n, c) bs
  = (n + Z.of_nat (length (concat bs)),
     mkConnection (committed c)
       (add_rows t (stored_row (rel_columns rel) columns <$> concat bs) (working c))
       (issued c ++ (INSERT t columns <$> concat bs)) false).
Proof.
  induction bs as [|batch bs IH]; intros n c rel Hab Hr Hk Hsub Hlen Hrej.
  - simpl. rewrite add_rows_nil, app_nil_r, Z.add_0_r. destruct c.
    simpl in Hab. by subst.
  - cbn [foldl concat] in *. apply Forall_app in Hlen as [Hlb Hlen].
    unfold Migrate.insert_batch at 2.
    rewrite (executemany_accepted _ _ _ _ rel)
      by (try done; intros held r Hin; apply Hrej, elem_of_app; by left).
    rewrite (IH _ _ (set_rows (rel_rows rel
                        ++ (stored_row (rel_columns rel) columns <$> batch)) rel));
      simpl.
    + rewrite add_rows_app, <-app_assoc, !fmap_app, length_app. f_equal. lia.
    + done.
    + by rewrite add_rows_readable, Hr.
    + done.
    + done.
    + done.
    + intros held r Hin. apply Hrej, elem_of_app. by right.
Qed.

End accepted.

(** The transfer when the destination accepts every row. *)
Lemma migrate_table_data_accepted (cfg : config) (mysql : database)
    (postgres_conn : connection) (t : string) (rows : list row)
    (columns : list string) (rel : relation) :
  select_all mysql t = Some rows → rows ≠ [] →
  show_columns mysql t = Some columns →
  0 < batch_size cfg →
  aborted postgres_conn = false →
  readable (working postgres_conn) t = Some rel → rel_kind rel = BASE_TABLE →
  columns ⊆ rel_columns rel →
  Forall (λ r, length r = length columns) rows →
  (∀ held r, r ∈ Migrate.convert_data_types cfg t columns rows →
     rejects (working postgres_conn) t held
       (stored_row (rel_columns rel) columns r) = false) →
  let converted_rows := Migrate.convert_data_types cfg t columns rows in
  let db := add_rows t (stored_row (rel_columns rel) columns <$> converted_rows)
              (working postgres_conn) in
  Migrate.migrate_table_data cfg mysql postgres_conn t
  = (Z.of_nat (length rows),
     mkConnection db db
       (issued postgres_conn ++ (INSERT t columns <$> converted_rows) ++ [COMMIT])
       false).
Proof.
  intros Hrows Hne Hcols Hpos Hab Hr Hk Hsub Hlen Hrej converted_rows db.
  pose proof (batches_concat (batch_size cfg) converted_rows Hpos) as Hcat.
  pose proof (convert_data_types_length cfg t columns rows) as Hlength.
  pose proof (convert_data_types_widths cfg t columns rows _ Hlen) as Hwidths.
  fold converted_rows in Hlength, Hwidths, Hrej.
  unfold Migrate.migrate_table_data. rewrite Hrows, Hcols.
  fold converted_rows. clearbody converted_rows.
  destruct rows as [|r0 rows']; [done|]. cbv beta iota.
  rewrite (proj2 (Z.eqb_neq _ _)) by lia.
  unfold Migrate.insert_batches.
  rewrite (insert_batches_accepted _ _ _ _ _ rel); rewrite ?Hcat; try done.
  subst db. unfold commit. cbn [working committed issued].
  by rewrite Hlength, <-app_assoc.
Qed.

(** X4. When the destination accepts every row (the transaction is usable,
    the table is a readable base table that has the source columns, every
    source row has one value per column, and no converted row violates a
    constraint), the transfer of a
    non-empty table with a positive batch size returns the number of source
    rows, sends one INSERT per row in source order followed by one COMMIT,
    and commits the destination with the converted rows appended to the
    table. *)
Theorem transfer_copies_accepted_rows (cfg : config) (mysql : database)
    (postgres_conn : connection) (t : string) (rows : list row)
    (columns : list string) (rel : relation) :
  select_all mysql t = Some rows → rows ≠ [] →
  show_columns mysql t = Some columns →
  0 < batch_size cfg →
  aborted postgres_conn = false →
  readable (working postgres_conn) t = Some rel → rel_kind rel = BASE_TABLE →
  columns ⊆ rel_columns rel →
  Forall (λ r, length r = length columns) rows →
  (∀ held r, r ∈ Migrate.convert_data_types cfg t columns rows →
     rejects (working postgres_conn) t held
       (stored_row (rel_columns rel) columns r) = false) →
  let converted_rows := Migrate.convert_data_types cfg t columns rows in
  let db := add_rows t (stored_row (rel_columns rel) columns <$> converted_rows)
              (working postgres_conn) in
  Migrate.migrate_table_data cfg mysql postgres_conn t
  = (Z.of_nat (length rows),
     mkConnection db db
       (issued postgres_conn ++ (INSERT t columns <$> converted_rows) ++ [COMMIT])
       false).
Proof. apply migrate_table_data_accepted. Qed.

Lemma transfer_copies_accepted_rows_witness :
  Migrate.migrate_table_data ex_cfg ex_mysql_later (connect ex_postgres) "x_group"
  = (1,
     mkConnection
       (add_rows "x_group" [[VInt 5]] ex_postgres)
       (add_rows "x_group" [[VInt 5]] ex_postgres)
       [INSERT "x_group" ["id"] [VInt 5]; COMMIT] false)
  ∧ rows_of (add_rows "x_group" [[VInt 5]] ex_postgres) "x_group"
    = [[VInt 7]; [VInt 5]].
Proof.
  split; [|reflexivity].
  apply (transfer_copies_accepted_rows ex_cfg ex_mysql_later (connect ex_postgres)
           "x_group" [[VInt 5]] ["id"] (table ["id"] [[VInt 7]])).
  - reflexivity.
  - done.
  - reflexivity.
  - reflexivity.
  - reflexivity.
  - reflexivity.
  - reflexivity.
  - apply (bool_decide_unpack _). by vm_compute.
  - repeat constructor.
  - intros held r Hin. vm_compute in Hin.
    apply list_elem_of_In in Hin. destruct Hin as [<-|[]]. reflexivity.
Defined.

(** ** The transfer in general *)

Section appends.
Implicit Types (c : connection) (t : string) (columns : list string)
  (base : database) (n : Z).

Lemma execute_insert_transferring t columns (r : row) base n0 n c :
  transferring t base n0 (n, c) →
  let '(ok, c') := execute (INSERT t columns r) c in
  transferring t base n0 ((if ok then n + 1 else n), c').
Proof.
  intros (Hc & new & Hw & Hn). simpl in *.
  destruct (negb _); simpl.
  { split; [done|]. exists new. by split. }
  destruct (aborted c); simpl.
  { split; [done|]. exists new. by split. }
  destruct (insert_row (working c) t columns r) as [db'|] eqn:Hi; simpl.
  - apply insert_row_Some in Hi as (rel & _ & ->).
    split; [done|]. eexists. split.
    + simpl. by rewrite Hw, add_rows_app.
    + rewrite length_app. simpl. lia.
  - split; [done|]. exists new. by split.
Qed.

Lemma insert_single_transferring t columns (batch : list row) base n0 : ∀ n c,
  transferring t base n0 (n, c) →
  transferring t base n0 (foldl (Migrate.insert_single t columns) (n, c) batch)
  ∧ n ≤ (foldl (Migrate.insert_single t columns) (n, c) batch).1
      ≤ n + Z.of_nat (length batch).
Proof.
  induction batch as [|r batch IH]; intros n c Hinv.
  - simpl. split; [done|lia].
  - cbn [foldl].
    assert (Migrate.insert_single t columns (n, c) r
            = let '(ok, c') := execute (INSERT t columns r) c in
              ((if ok then n + 1 else n), c')) as ->.
    { unfold Migrate.insert_single.
      by destruct (execute (INSERT t columns r) c) as [[] c']. }
    pose proof (execute_insert_transferring t columns r base n0 n c Hinv) as Hstep.
    destruct (execute (INSERT t columns r) c) as [ok c'].
    destruct (IH _ _ Hstep) as [Hinv' Hb]. split; [done|].
    rewrite length_cons. destruct ok; lia.
Qed.

(** A multi-row insert appends as many rows as it sent INSERTs that
    succeeded; when it succeeds these are all rows of the batch. *)
Lemma executemany_transferring t columns (batch : list row) base : ∀ c new,
  committed c = base → working c = add_rows t new base →
  let '(ok, c') := executemany t columns batch c in
  committed c' = base
  ∧ ∃ added, working c' = add_rows t (new ++ added) base
             ∧ (ok = true → length added = length batch).
Proof.
  induction batch as [|r batch IH]; intros c new Hc Hw.
  - simpl. split; [done|]. exists []. by rewrite app_nil_r.
  - cbn [executemany]. simpl.
    destruct (negb _); simpl.
    { split; [done|]. exists []. rewrite app_nil_r. by split. }
    destruct (aborted c); simpl.
    { split; [done|]. exists []. rewrite app_nil_r. by split. }
    destruct (insert_row (working c) t columns r) as [db'|] eqn:Hi; simpl.
    + apply insert_row_Some in Hi as (rel & _ & ->).
      specialize (IH (mkConnection (committed c)
                        (add_rows t [stored_row (rel_columns rel) columns r] (working c))
                        (issued c ++ [INSERT t columns r]) false)
                     (new ++ [stored_row (rel_columns rel) columns r]) Hc).
      cbn [working] in IH.
      specialize (IH ltac:(by rewrite Hw, add_rows_app)).
      destruct (executemany t columns batch _) as [ok c'].
      destruct IH as (Hc' & added & Hw' & Hall). split; [done|].
      exists (stored_row (rel_columns rel) columns r :: added). split.
      * by rewrite Hw', <-app_assoc.
      * intros Hok. simpl. by rewrite Hall.
    + split; [done|]. exists []. rewrite app_nil_r. by split.
Qed.

Lemma insert_batch_transferring t columns (batch : list row) base n0 n c :
  n0 ≤ n → transferring t base n0 (n, c) →
  transferring t base n0 (Migrate.insert_batch t columns (n, c) batch)
  ∧ n ≤ (Migrate.insert_batch t columns (n, c) batch).1
      ≤ n + Z.of_nat (length batch).
Proof.
  intros Hn0 (Hc & new & Hw & Hn). simpl in *. unfold Migrate.insert_batch.
  pose proof (executemany_transferring t columns batch base c new Hc Hw) as Hmany.
  destruct (executemany t columns batch c) as [[] c'].
  - destruct Hmany as (Hc' & added & Hw' & Hall). split; [|simpl; lia].
    split; [done|]. exists (new ++ added). split; [done|].
    simpl. rewrite length_app, (Hall eq_refl). lia.
  - destruct Hmany as (Hc' & _).
    apply insert_single_transferring.
    split; [done|]. exists []. simpl. rewrite Hc', add_rows_nil. split; [done|lia].
Qed.

Lemma insert_batches_transferring t columns (bs : list (list row)) base n0 :
  ∀ n c,
  n0 ≤ n → transferring t base n0 (n, c) →
  transferring t base n0 (foldl (Migrate.insert_batch t columns) (n, c) bs)
  ∧ n ≤ (foldl (Migrate.insert_batch t columns) (n, c) bs).1
      ≤ n + Z.of_nat (length (concat bs)).
Proof.
  induction bs as [|batch bs IH]; intros n c Hn0 Hinv.
  - simpl. split; [done|lia].
  - cbn [foldl concat].
    destruct (insert_batch_transferring t columns batch base n0 n c Hn0 Hinv)
      as [Hinv' Hb].
    destruct (Migrate.insert_batch t columns (n, c) batch) as [n' c'].
    simpl in Hb. destruct (IH n' c') as [Hinv'' Hb']; [lia|done|].
    split; [done|]. rewrite length_app. lia.
Qed.

(** What the transfer of a table commits, whatever fails on the way. *)
Lemma migrate_table_data_appends cfg mysql c t :
  settled c →
  ∃ new,
    committed (Migrate.migrate_table_data cfg mysql c t).2
      = add_rows t new (committed c)
    ∧ Z.of_nat (length new) ≤ (Migrate.migrate_table_data cfg mysql c t).1
    ∧ (Migrate.migrate_table_data cfg mysql c t).1
      ≤ Z.of_nat (length (default [] (select_all mysql t))).
Proof.
  unfold settled. intros [Hc Hab]. unfold Migrate.migrate_table_data.
  assert (∀ k : nat, committed (rollback c) = add_rows t [] (committed c)
                     ∧ Z.of_nat (length (@nil row)) ≤ 0 ≤ Z.of_nat k) as Hrollback.
  { intros k. rewrite add_rows_nil. simpl. split; [done|lia]. }
  destruct (select_all mysql t) as [rows|] eqn:Hrows; cbn [default].
  2:{ exists []. apply (Hrollback 0%nat). }
  pose proof (convert_data_types_length cfg t) as Hlength.
  destruct rows as [|r0 rows'].
  { exists []. rewrite add_rows_nil. simpl. split; [done|lia]. }
  destruct (show_columns mysql t) as [columns|].
  2:{ exists []. apply Hrollback. }
  specialize (Hlength columns (r0 :: rows')).
  remember (Migrate.convert_data_types cfg t columns (r0 :: rows')) as converted.
  destruct (Z.eqb_spec (batch_size cfg) 0) as [Hz|Hz].
  { exists []. apply Hrollback. }
  unfold Migrate.insert_batches.
  destruct (insert_batches_transferring t columns
              (Migrate.batches (batch_size cfg) converted) (committed c) 0 0 c)
    as [(Hc' & new & Hw & Hn) Hb]; [lia| |].
  { split; [done|]. exists []. simpl. rewrite add_rows_nil. split; [done|lia]. }
  destruct (foldl _ _ _) as [n' c']. cbn [fst snd] in *.
  assert (n' ≤ Z.of_nat (length (r0 :: rows'))) as Hupper.
  { destruct (Z.ltb_spec (batch_size cfg) 0) as [Hneg|Hnn].
    - unfold Migrate.batches in Hb. rewrite (proj2 (Z.ltb_lt _ _)) in Hb by lia.
      simpl in Hb. unfold id in *. lia.
    - rewrite batches_concat in Hb by lia. unfold id in *. lia. }
  unfold commit. destruct (aborted c'); cbn [committed].
  - exists []. rewrite add_rows_nil. split_and!; [done|simpl; lia|done].
  - exists new. split_and!; [congruence|lia|done].
Qed.

End appends.

(** X5. On a connection with nothing pending, the transfer of a table only
    appends rows to that table: in the committed state every other relation,
    every sequence and the kind and columns of the table are as before, and
    the rows the table held are still there, in front. *)
Theorem transfer_only_appends (cfg : config) (mysql : database)
    (postgres_conn : connection) (t : string) :
  settled postgres_conn →
  let c' := (Migrate.migrate_table_data cfg mysql postgres_conn t).2 in
  (∀ t', t' ≠ t →
     relations (committed c') !! t' = relations (committed postgres_conn) !! t')
  ∧ sequences (committed c') = sequences (committed postgres_conn)
  ∧ (rel_kind <$> relations (committed c') !! t)
    = (rel_kind <$> relations (committed postgres_conn) !! t)
  ∧ (rel_columns <$> relations (committed c') !! t)
    = (rel_columns <$> relations (committed postgres_conn) !! t)
  ∧ rows_of (committed postgres_conn) t `prefix_of` rows_of (committed c') t.
Proof.
  intros Hc c'.
  destruct (migrate_table_data_appends cfg mysql postgres_conn t Hc)
    as (new & Heq & _).
  subst c'. rewrite Heq. split_and!.
  - intros t' Hne. by apply add_rows_lookup_ne.
  - done.
  - rewrite add_rows_lookup. by destruct (relations (committed postgres_conn) !! t).
  - rewrite add_rows_lookup. by destruct (relations (committed postgres_conn) !! t).
  - unfold rows_of. rewrite add_rows_lookup.
    destruct (relations (committed postgres_conn) !! t); simpl; [|done].
    by apply prefix_app_r.
Qed.

Lemma transfer_only_appends_witness :
  settled (connect ex_postgres)
  ∧ rows_of ex_postgres "x_group" = [[VInt 7]]
  ∧ rows_of (committed (Migrate.migrate_table_data ex_cfg ex_mysql_later
                          (connect ex_postgres) "x_group").2) "x_group"
    = [[VInt 7]; [VInt 5]]
  ∧ rows_of (committed (connect ex_postgres)) "x_group"
    `prefix_of`
    rows_of (committed (Migrate.migrate_table_data ex_cfg ex_mysql_later
                          (connect ex_postgres) "x_group").2) "x_group".
Proof.
  assert (settled (connect ex_postgres)) as Hc by (by split).
  split_and!; [exact Hc|reflexivity|reflexivity|].
  apply (transfer_only_appends ex_cfg ex_mysql_later (connect ex_postgres) "x_group" Hc).
Defined.

(** X6. On a connection with nothing pending, the count a transfer returns
    lies between the number of rows it added to the committed table and the
    number of source rows: it never reports fewer rows than were committed
    and never more than the source holds. *)
Theorem transfer_count_bounds (cfg : config) (mysql : database)
    (postgres_conn : connection) (t : string) :
  settled postgres_conn →
  let '(count, c') := Migrate.migrate_table_data cfg mysql postgres_conn t in
  Z.of_nat (length (rows_of (committed c') t))
    ≤ Z.of_nat (length (rows_of (committed postgres_conn) t)) + count
  ∧ count ≤ Z.of_nat (length (default [] (select_all mysql t))).
Proof.
  intros Hc.
  destruct (migrate_table_data_appends cfg mysql postgres_conn t Hc)
    as (new & Heq & Hlow & Hup).
  destruct (Migrate.migrate_table_data cfg mysql postgres_conn t) as [count c'].
  simpl in *. split; [|done].
  rewrite Heq. unfold rows_of. rewrite add_rows_lookup.
  destruct (relations (committed postgres_conn) !! t); simpl; [|lia].
  rewrite length_app. lia.
Qed.

Lemma transfer_count_bounds_witness :
  settled (connect ex_postgres)
  ∧ let '(count, c') :=
      Migrate.migrate_table_data ex_cfg ex_mysql (connect ex_postgres) "x_user" in
    Z.of_nat (length (rows_of (committed c') "x_user"))
      ≤ Z.of_nat (length (rows_of (committed (connect ex_postgres)) "x_user")) + count
    ∧ count ≤ Z.of_nat (length (default [] (select_all ex_mysql "x_user"))).
Proof.
  assert (settled (connect ex_postgres)) as Hc by (by split).
  split; [exact Hc|].
  apply (transfer_count_bounds ex_cfg ex_mysql (connect ex_postgres) "x_user" Hc).
Defined.

(** X7. On a connection with nothing pending, a transfer that cannot run its
    batch loop transfers nothing: when a source query raises or the batch
    size is not positive, it returns 0, the destination is as before, and
    the only statement it may send is one COMMIT or ROLLBACK. *)
Theorem transfer_without_batches (cfg : config) (mysql : database)
    (postgres_conn : connection) (t : string) :
  settled postgres_conn →
  select_all mysql t = None ∨ show_columns mysql t = None ∨ batch_size cfg ≤ 0 →
  let '(count, c') := Migrate.migrate_table_data cfg mysql postgres_conn t in
  count = 0
  ∧ committed c' = committed postgres_conn
  ∧ working c' = working postgres_conn
  ∧ (issued c' = issued postgres_conn
     ∨ issued c' = issued postgres_conn ++ [COMMIT]
     ∨ issued c' = issued postgres_conn ++ [ROLLBACK]).
Proof.
  unfold settled. intros [Hc Hab] Hcase. unfold Migrate.migrate_table_data.
  destruct (select_all mysql t) as [[|r0 rows']|].
  - by split_and!; [..|left].
  - destruct (show_columns mysql t) as [columns|].
    2:{ simpl. split_and!; [done..|]. right. by right. }
    destruct Hcase as [|[|Hsize]]; [done..|].
    destruct (Z.eqb_spec (batch_size cfg) 0) as [Hz|Hz].
    { simpl. split_and!; [done..|]. right. by right. }
    unfold Migrate.insert_batches, Migrate.batches.
    rewrite (proj2 (Z.ltb_lt _ _)) by lia. simpl.
    unfold commit. rewrite Hab. simpl.
    split_and!; [done..|]. right. by left.
  - simpl. split_and!; [done..|]. right. by right.
Qed.

Lemma transfer_without_batches_witness :
  settled (connect ex_postgres)
  ∧ batch_size (mkConfig (-5) [] true true [] []) ≤ 0
  ∧ let '(count, c') :=
      Migrate.migrate_table_data (mkConfig (-5) [] true true [] []) ex_mysql
        (connect ex_postgres) "x_user" in
    count = 0
    ∧ committed c' = committed (connect ex_postgres)
    ∧ working c' = working (connect ex_postgres)
    ∧ (issued c' = issued (connect ex_postgres)
       ∨ issued c' = issued (connect ex_postgres) ++ [COMMIT]
       ∨ issued c' = issued (connect ex_postgres) ++ [ROLLBACK]).
Proof.
  assert (settled (connect ex_postgres)) as Hc by (by split).
  assert (batch_size (mkConfig (-5) [] true true [] []) ≤ 0) as Hsize by (simpl; lia).
  split_and!; [exact Hc|exact Hsize|].
  apply (transfer_without_batches (mkConfig (-5) [] true true [] []) ex_mysql
           (connect ex_postgres) "x_user" Hc).
  right. right. exact Hsize.
Defined.

(** X8. Started on a fresh connection, the reset commits the destination
    with exactly the relations of [cleared_by_reset] emptied: every priority
    table the session can clear ends without rows, a relation that is neither
    such a table nor cascades from one is as before, and no sequence
    changes. *)
Theorem reset_empties_what_it_clears (cfg : config) (postgres : database) :
  let c' := Migrate.reset_conn (Migrate.truncate_postgres_tables cfg (connect postgres)) in
  let cleared := cleared_by_reset postgres (reverse (PRIORITY_TABLES_ORDER cfg)) in
  committed c' = emptied postgres cleared
  ∧ working c' = committed c'
  ∧ (∀ t, t ∈ PRIORITY_TABLES_ORDER cfg → truncatable postgres t = true →
          rows_of (committed c') t = [])
  ∧ (∀ x, x ∉ cleared → relations (committed c') !! x = relations postgres !! x)
  ∧ sequences (committed c') = sequences postgres.
Proof.
  intros c' cleared.
  destruct (truncate_loop_effect cfg (reverse (PRIORITY_TABLES_ORDER cfg))
              (Migrate.mkReset (connect postgres) 0 []))
    as ([Hs _] & Hw & _); [done|].
  assert (committed c' = emptied postgres cleared) as Heq.
  { subst c' cleared. unfold Migrate.truncate_postgres_tables. cbn [Migrate.reset_conn].
    by rewrite <-Hs, Hw. }
  split_and!.
  - done.
  - exact Hs.
  - intros t Ht Htr. rewrite Heq. unfold rows_of. rewrite emptied_lookup.
    rewrite decide_True.
    + by destruct (relations postgres !! t).
    + subst cleared. unfold cleared_by_reset. apply list_elem_of_bind.
      exists t. split; [left|].
      apply list_elem_of_filter. split; [by rewrite Htr|by apply elem_of_reverse].
  - intros x Hx. rewrite Heq, emptied_lookup. by rewrite decide_False.
  - by rewrite Heq.
Qed.

(** X9. The number of cleared tables the reset reports is the number of
    entries of the priority list that are base tables on which statements do
    not raise; an entry that is missing, a view or unreadable is not
    counted. *)
Theorem reset_counts_cleared_tables (cfg : config) (postgres : database) :
  Migrate.truncated_count (Migrate.truncate_postgres_tables cfg (connect postgres))
  = Z.of_nat (length (filter (λ t, truncatable postgres t)
                        (PRIORITY_TABLES_ORDER cfg))).
Proof.
  destruct (truncate_loop_effect cfg (reverse (PRIORITY_TABLES_ORDER cfg))
              (Migrate.mkReset (connect postgres) 0 []))
    as (_ & _ & Hn); [done|].
  unfold Migrate.truncate_postgres_tables. cbn [Migrate.truncated_count].
  rewrite Hn. simpl. by rewrite filter_reverse, length_reverse.
Qed.

(** ** The reconciler as a whole *)

Section reconciler.
Implicit Types (c : connection) (n : Z).

Lemma update_sequence_count n c (binding : string * string) :
  (Migrate.update_sequence (n, c) binding).1
  = n + (if advances c binding then 1 else 0).
Proof.
  destruct (aborted c) eqn:Hab.
  { rewrite update_sequence_aborted by done. unfold advances.
    rewrite table_exists_aborted by done. simpl. lia. }
  destruct binding as [t q]. rewrite update_sequence_usable by done.
  unfold advances. rewrite table_exists_usable by done. simpl.
  destruct (exists_in_tables (working c) t); simpl; [|lia].
  destruct (exists_in_sequences (working c) q) eqn:Hq; simpl; [|lia].
  destruct (select_max_id (working c) t) as [m|]; simpl; [|lia].
  destruct (0 <? m); simpl; [|lia].
  apply exists_in_sequences_true in Hq as [v Hv].
  unfold setval. by rewrite Hv.
Qed.

Lemma update_sequences_over_count (mappings : list (string * string)) : ∀ n c,
  settled c →
  (foldl Migrate.update_sequence (n, c) mappings).1
  = n + Z.of_nat (length (filter (λ b, advances c b) mappings)).
Proof.
  induction mappings as [|[t q] mappings IH]; intros n c Hc.
  - simpl. lia.
  - cbn [foldl].
    destruct (update_sequence_frame n c t q Hc) as (Hc1 & Hr1 & Hf1 & Hd1 & _).
    pose proof (update_sequence_count n c (t, q)) as Hn1.
    destruct (Migrate.update_sequence (n, c) (t, q)) as [n1 c1].
    cbn [fst snd] in *. rewrite (IH n1 c1 Hc1), Hn1.
    assert (aborted c1 = aborted c) as Hab1.
    { by rewrite (settled_usable _ Hc), (settled_usable _ Hc1). }
    rewrite (list_filter_iff (λ b, advances c1 b) (λ b, advances c b))
      by (intros b; by rewrite (advances_ext c c1 b Hab1 Hr1 Hf1 Hd1)).
    rewrite filter_cons. destruct (advances c (t, q)) eqn:Ha.
    + rewrite decide_True by done. simpl. lia.
    + rewrite decide_False by (by intros ?). lia.
Qed.

End reconciler.

(** X10. On a connection with nothing pending, the reconciler leaves nothing
    pending, changes no relation, creates and drops no sequence, and leaves
    every sequence that no binding names at its value. *)
Theorem reconciler_changes_only_bound_sequences (postgres_conn : connection) :
  settled postgres_conn →
  let c' := (Migrate.update_sequences postgres_conn).2 in
  settled c'
  ∧ relations (committed c') = relations (committed postgres_conn)
  ∧ dom (sequences (committed c')) = dom (sequences (committed postgres_conn))
  ∧ ∀ q, q ∉ Migrate.sequence_mappings.*2 →
         sequences (committed c') !! q = sequences (committed postgres_conn) !! q.
Proof.
  intros Hc c'.
  destruct (update_sequences_over_frame Migrate.sequence_mappings 0 postgres_conn Hc)
    as (Hc' & Hr & _ & Hd & Hq).
  fold (Migrate.update_sequences_over Migrate.sequence_mappings postgres_conn) in *.
  fold (Migrate.update_sequences postgres_conn) in *. fold c' in Hc', Hr, Hd, Hq.
  split; [done|]. destruct Hc' as [<- _], Hc as [<- _]. by split_and!.
Qed.

Lemma reconciler_changes_only_bound_sequences_witness :
  settled (connect ex_postgres)
  ∧ let c' := (Migrate.update_sequences (connect ex_postgres)).2 in
    settled c'
    ∧ relations (committed c') = relations (committed (connect ex_postgres))
    ∧ dom (sequences (committed c')) = dom (sequences (committed (connect ex_postgres)))
    ∧ ∀ q, q ∉ Migrate.sequence_mappings.*2 →
           sequences (committed c') !! q
           = sequences (committed (connect ex_postgres)) !! q.
Proof.
  assert (settled (connect ex_postgres)) as Hc by (by split).
  split; [exact Hc|].
  exact (reconciler_changes_only_bound_sequences (connect ex_postgres) Hc).
Defined.

(** X11. On a connection with nothing pending, after the whole reconciler a
    bound sequence holds the maximum id of its table when table and sequence
    exist and that maximum is positive, and its old value otherwise: no later
    turn overwrites it, as no two bindings name the same sequence.  The
    number of updates reported is the number of bindings that advance. *)
Theorem reconciler_result (postgres_conn : connection) :
  settled postgres_conn →
  let '(updated_count, c') := Migrate.update_sequences postgres_conn in
  (∀ t q, (t, q) ∈ Migrate.sequence_mappings →
     sequences (committed c') !! q
     = if advances postgres_conn (t, q)
       then select_max_id (working postgres_conn) t
       else sequences (committed postgres_conn) !! q)
  ∧ updated_count
    = Z.of_nat (length (filter (λ b, advances postgres_conn b)
                          Migrate.sequence_mappings)).
Proof.
  intros Hc.
  pose proof (update_sequences_over_count Migrate.sequence_mappings 0 postgres_conn Hc)
    as Hn.
  destruct (update_sequences_over_frame Migrate.sequence_mappings 0 postgres_conn Hc)
    as (Hc' & _).
  assert (∀ t q, (t, q) ∈ Migrate.sequence_mappings →
            sequences (working (Migrate.update_sequences postgres_conn).2) !! q
            = reconciled postgres_conn t q) as Hfinal.
  { intros t q Hin. unfold Migrate.update_sequences, Migrate.update_sequences_over.
    apply update_sequences_over_final; [done|apply sequence_mappings_NoDup|done]. }
  fold (Migrate.update_sequences_over Migrate.sequence_mappings postgres_conn) in *.
  fold (Migrate.update_sequences postgres_conn) in *.
  destruct (Migrate.update_sequences postgres_conn) as [updated_count c'].
  cbn [fst snd] in *. split; [|lia].
  intros t q Hin. destruct Hc' as [<- _], Hc as [<- _]. rewrite (Hfinal t q Hin).
  unfold reconciled, advances. cbn [fst snd].
  destruct (Migrate.table_exists postgres_conn t); simpl; [|done].
  destruct (exists_in_sequences (working postgres_conn) q); simpl; [|done].
  destruct (select_max_id (working postgres_conn) t) as [m|]; [|done].
  by destruct (0 <? m).
Qed.

Lemma reconciler_result_witness :
  settled (connect ex_postgres)
  ∧ advances (connect ex_postgres) ("x_group", "x_group_seq") = true
  ∧ let '(updated_count, c') := Migrate.update_sequences (connect ex_postgres) in
    sequences (committed c') !! "x_group_seq" = Some 7.
Proof.
  assert (settled (connect ex_postgres)) as Hc by (by split).
  split_and!; [exact Hc|reflexivity|].
  pose proof (reconciler_result (connect ex_postgres) Hc) as H.
  destruct (Migrate.update_sequences (connect ex_postgres)) as [updated_count c'].
  destruct H as [H _].
  rewrite (H "x_group" "x_group_seq").
  - reflexivity.
  - apply (bool_decide_unpack _). by vm_compute.
Defined.

(** ** The order of the priority names *)

Lemma priority_walk_exact (priority : list string) :
  NoDup priority → ∀ o v : list string,
  NoDup v →
  (foldl priority_step (o, v) priority).1 = o ++ filter (λ x, x ∈ v) priority.
Proof.
  induction priority as [|p priority IH]; intros Hnd o v Hv.
  - simpl. by rewrite app_nil_r.
  - apply NoDup_cons in Hnd as [Hp Hnd]. cbn [foldl]. unfold priority_step at 2.
    destruct (decide (p ∈ v)) as [Hin|Hnin].
    + rewrite remove_first_NoDup by done.
      rewrite IH by (try done; by apply NoDup_filter).
      rewrite filter_cons_True by done. rewrite <-app_assoc. simpl. do 2 f_equal.
      apply filter_iff_elem. intros x Hx. rewrite list_elem_of_filter.
      split; [tauto|]. intros Hxv. split; [|done]. by intros ->.
    + rewrite IH by done. by rewrite filter_cons_False.
Qed.

Lemma order_by_priority_exact (priority valid : list string) :
  NoDup priority → NoDup valid →
  order_by_priority priority valid
  = filter (λ t, t ∈ valid) priority ++ sort (filter (λ t, t ∉ priority) valid).
Proof.
  intros Hp Hv. unfold order_by_priority.
  pose proof (priority_walk_exact priority Hp [] valid Hv) as H1.
  destruct (priority_walk priority [] valid Hv) as (a & Heq & _).
  rewrite Heq in *. simpl in H1. by rewrite H1.
Qed.

(** X12. When the priority list names no table twice, both resolvers return
    the priority list filtered to the valid names, in the order of the list,
    followed by the other valid names sorted. *)
Theorem resolvers_follow_priority_order (cfg : config) (mysql postgres : database)
    (postgres_conn : connection) :
  NoDup (PRIORITY_TABLES_ORDER cfg) →
  (let valid := Migrate.select_valid_tables cfg postgres_conn (show_tables mysql) in
   Migrate.get_mysql_tables_ordered cfg mysql postgres_conn
   = filter (λ t, t ∈ valid) (PRIORITY_TABLES_ORDER cfg)
     ++ sort (filter (λ t, t ∉ PRIORITY_TABLES_ORDER cfg) valid))
  ∧ (let valid :=
       Verify.select_valid_tables cfg (connect postgres)
         (elements (list_to_set (C:=gset string)
                      (show_tables mysql ++ base_tables postgres))) in
     Verify.get_all_tables cfg (connect mysql) (connect postgres)
     = filter (λ t, t ∈ valid) (PRIORITY_TABLES_ORDER cfg)
       ++ sort (filter (λ t, t ∉ PRIORITY_TABLES_ORDER cfg) valid)).
Proof.
  intros Hp. split.
  - apply order_by_priority_exact; [done|].
    apply NoDup_filter, NoDup_show_tables.
  - apply order_by_priority_exact; [done|].
    apply NoDup_filter, NoDup_elements.
Qed.

Lemma resolvers_follow_priority_order_witness :
  NoDup (PRIORITY_TABLES_ORDER MIGRATION_CONFIG)
  ∧ Migrate.get_mysql_tables_ordered MIGRATION_CONFIG ex_mysql (connect ex_postgres)
    = ["x_user"; "x_group"]
  ∧ Verify.get_all_tables MIGRATION_CONFIG (connect ex_mysql) (connect ex_postgres)
    = ["x_user"; "x_group"; "legacy_only"].
Proof.
  assert (NoDup (PRIORITY_TABLES_ORDER MIGRATION_CONFIG)) as Hp.
  { apply (bool_decide_unpack _). by vm_compute. }
  split; [exact Hp|].
  destruct (resolvers_follow_priority_order MIGRATION_CONFIG ex_mysql ex_postgres
              (connect ex_postgres) Hp) as [Hm Hv].
  split.
  - rewrite Hm. by vm_compute.
  - rewrite Hv. by vm_compute.
Defined.

(** ** The verification of the listed tables *)

Section checked.
Implicit Types (mysql postgres : database) (mysql_conn c : connection) (t : string)
  (r : Verify.result).

Lemma exists_in_tables_false db t :
  exists_in_tables db t = false ↔ relations db !! t = None.
Proof.
  unfold exists_in_tables. rewrite bool_decide_eq_false, <-eq_None_not_Some. done.
Qed.

Lemma exists_in_tables_true db t :
  exists_in_tables db t = true ↔ is_Some (relations db !! t).
Proof. unfold exists_in_tables. by rewrite bool_decide_eq_true. Qed.

Lemma verify_table_data_table mysql_conn c t :
  Verify.r_table (Verify.verify_table_data mysql_conn c t).1 = t.
Proof.
  unfold Verify.verify_table_data.
  destruct (Verify.table_exists mysql_conn t Verify.mysql),
    (Verify.table_exists c t Verify.postgresql); cbn [negb andb]; try done.
  destruct (Verify.get_table_row_count c t Verify.postgresql) as [n c1].
  by destruct (Verify.get_table_size c1 t Verify.postgresql) as [size c2].
Qed.

(** A call never leaves the status at its initial value. *)
Lemma verify_table_data_known mysql_conn c t :
  Verify.r_status (Verify.verify_table_data mysql_conn c t).1 ≠ Verify.UNKNOWN.
Proof.
  unfold Verify.verify_table_data.
  destruct (Verify.table_exists mysql_conn t Verify.mysql),
    (Verify.table_exists c t Verify.postgresql); cbn [negb andb]; try done.
  destruct (Verify.get_table_row_count c t Verify.postgresql) as [n c1].
  destruct (Verify.get_table_size c1 t Verify.postgresql) as [size c2].
  cbn [fst Verify.r_status]. repeat case_match; done.
Qed.

(** The status as the two existence probes decide it, on a usable
    transaction. *)
Lemma verify_table_data_status mysql_conn c t :
  aborted c = false →
  let r := (Verify.verify_table_data mysql_conn c t).1 in
  (Verify.r_status r = Verify.MISSING_BOTH
   ↔ relations (working mysql_conn) !! t = None ∧ relations (working c) !! t = None)
  ∧ (Verify.r_status r = Verify.MISSING_MYSQL
     ↔ relations (working mysql_conn) !! t = None ∧ relations (working c) !! t ≠ None)
  ∧ (Verify.r_status r = Verify.MISSING_POSTGRES
     ↔ relations (working mysql_conn) !! t ≠ None ∧ relations (working c) !! t = None).
Proof.
  intros Hab. unfold Verify.verify_table_data.
  rewrite verify_table_exists_mysql, (verify_table_exists_usable _ _ Hab).
  pose proof (exists_in_tables_false (working mysql_conn) t) as Hm.
  pose proof (exists_in_tables_false (working c) t) as Hp.
  destruct (exists_in_tables (working mysql_conn) t),
    (exists_in_tables (working c) t); cbn [negb andb].
  - destruct (Verify.get_table_row_count c t Verify.postgresql) as [n c1].
    destruct (Verify.get_table_size c1 t Verify.postgresql) as [size c2].
    cbn [fst Verify.r_status].
    repeat case_match; intuition (congruence || discriminate).
  - simpl. intuition (congruence || discriminate).
  - simpl. intuition (congruence || discriminate).
  - simpl. intuition (congruence || discriminate).
Qed.

(** In an aborted transaction the existence probe on the destination
    returns [False] for every table, and the call changes nothing. *)
Lemma verify_table_data_aborted mysql_conn c t :
  aborted c = true →
  let '(r, c') := Verify.verify_table_data mysql_conn c t in
  c' = c
  ∧ Verify.r_postgres_exists r = false
  ∧ Verify.r_status r
    = if exists_in_tables (working mysql_conn) t
      then Verify.MISSING_POSTGRES else Verify.MISSING_BOTH.
Proof.
  intros Hab. unfold Verify.verify_table_data.
  rewrite verify_table_exists_mysql, (verify_table_exists_aborted _ _ Hab).
  by destruct (exists_in_tables (working mysql_conn) t).
Qed.

(** When no probe raises, the call hands the connection back as it was. *)
Lemma verify_table_data_usable mysql_conn c t :
  probes_succeed (working mysql_conn) (working c) → aborted c = false →
  (Verify.verify_table_data mysql_conn c t).2 = c.
Proof.
  intros Hok Hab. unfold Verify.verify_table_data.
  rewrite verify_table_exists_mysql, (verify_table_exists_usable _ _ Hab).
  destruct (exists_in_tables (working mysql_conn) t) eqn:Hm,
    (exists_in_tables (working c) t) eqn:Hp; cbn [negb andb]; try done.
  apply exists_in_tables_true in Hm. apply exists_in_tables_true in Hp.
  pose proof (Hok t Hm Hp) as Hread. destruct Hp as [rel Hrel].
  assert (readable (working c) t = Some rel) as Hr.
  { unfold readable. by rewrite decide_False. }
  assert (Verify.get_table_row_count c t Verify.postgresql
          = (Z.of_nat (length (rel_rows rel)), c)) as ->.
  { unfold Verify.get_table_row_count, Verify.fetch.
    by rewrite (query_usable _ c (Z.of_nat (length (rel_rows rel))))
      by (try done; unfold select_count; by rewrite Hr). }
  assert (Verify.get_table_size c t Verify.postgresql = (rel_size rel, c)) as ->.
  { unfold Verify.get_table_size, Verify.fetch.
    by rewrite (query_usable _ c (rel_size rel))
      by (try done; unfold select_size; by rewrite Hr). }
  done.
Qed.

(** When no probe raises, every call of the loop works on the connection
    the loop was handed. *)
Lemma verify_tables_elem_usable mysql_conn (tables : list string) :
  ∀ (acc : list Verify.result) c r,
    probes_succeed (working mysql_conn) (working c) → aborted c = false →
    r ∈ (foldl (λ acc table,
                  let '(result, c) := Verify.verify_table_data mysql_conn acc.2 table in
                  (acc.1 ++ [result], c)) (acc, c) tables).1 →
    r ∈ acc ∨ ∃ t, t ∈ tables ∧ r = (Verify.verify_table_data mysql_conn c t).1.
Proof.
  induction tables as [|t tables IH]; intros acc c r Hok Hab Hr; [by left|].
  cbn [foldl] in Hr. cbn [snd fst] in Hr.
  pose proof (verify_table_data_usable mysql_conn c t Hok Hab) as Hc.
  destruct (Verify.verify_table_data mysql_conn c t) as [res c1] eqn:Hv.
  cbn [snd] in Hc. subst c1.
  apply IH in Hr as [Hr|(t' & Ht' & ->)]; [|right|done..].
  - apply elem_of_app in Hr as [Hr|Hr]; [by left|].
    apply list_elem_of_singleton in Hr as ->.
    right. exists t. split; [left|by rewrite Hv].
  - exists t'. split; [by right|done].
Qed.

Lemma verify_tables_length mysql_conn (tables : list string) :
  ∀ (acc : list Verify.result) c,
    length (foldl (λ acc table,
                     let '(result, c) := Verify.verify_table_data mysql_conn acc.2 table in
                     (acc.1 ++ [result], c)) (acc, c) tables).1
    = (length acc + length tables)%nat.
Proof.
  induction tables as [|t tables IH]; intros acc c; [simpl; lia|].
  cbn [foldl]. cbn [snd fst].
  destruct (Verify.verify_table_data mysql_conn c t) as [res c1].
  rewrite IH, length_app. simpl. lia.
Qed.

Lemma verify_all_length cfg mysql postgres :
  length (Verify.verify_all cfg mysql postgres)
  = length (Verify.get_all_tables cfg (connect mysql) (connect postgres)).
Proof.
  unfold Verify.verify_all, Verify.verify_tables. cbv zeta.
  by rewrite verify_tables_length.
Qed.

Lemma verify_all_elem_usable cfg mysql postgres r :
  probes_succeed mysql postgres →
  r ∈ Verify.verify_all cfg mysql postgres →
  ∃ t, t ∈ Verify.get_all_tables cfg (connect mysql) (connect postgres)
       ∧ r = (Verify.verify_table_data (connect mysql) (connect postgres) t).1.
Proof.
  intros Hok. unfold Verify.verify_all, Verify.verify_tables. cbv zeta.
  intros [Hr|Hr]%verify_tables_elem_usable; [|done..].
  by apply elem_of_nil in Hr.
Qed.

Lemma elem_of_base_tables db t :
  t ∈ base_tables db → is_Some (relations db !! t).
Proof.
  unfold base_tables. rewrite list_elem_of_fmap.
  intros ([k rel] & -> & Hk). apply elem_of_map_to_list in Hk.
  apply map_lookup_filter_Some in Hk as [Hk _]. by exists rel.
Qed.

(** A listed table exists on one side at least. *)
Lemma get_all_tables_exists cfg mysql_conn c t :
  t ∈ Verify.get_all_tables cfg mysql_conn c →
  is_Some (relations (working mysql_conn) !! t) ∨ is_Some (relations (working c) !! t).
Proof.
  intros Hin.
  destruct (get_all_tables_resolved cfg mysql_conn c) as (_ & Hiff & _).
  apply Hiff in Hin as ([Hm|[_ Hp]] & _); [by left|right].
  by apply elem_of_base_tables.
Qed.

Lemma count_status_total (results : list Verify.result) :
  (Verify.count_status Verify.UNKNOWN results
   + Verify.count_status Verify.MATCH results
   + Verify.count_status Verify.MISMATCH results
   + Verify.count_status Verify.MISSING_MYSQL results
   + Verify.count_status Verify.MISSING_POSTGRES results
   + Verify.count_status Verify.MISSING_BOTH results
   + Verify.count_status Verify.EMPTY_MYSQL results
   + Verify.count_status Verify.EMPTY_POSTGRES results)%nat
  = length results.
Proof.
  unfold Verify.count_status. induction results as [|r results IH]; [done|].
  rewrite !filter_cons, length_cons, <-IH.
  destruct (Verify.r_status r); simpl; lia.
Qed.

Lemma count_status_zero (s : Verify.status) (results : list Verify.result) :
  Verify.count_status s results = 0%nat ↔ ∀ r, r ∈ results → Verify.r_status r ≠ s.
Proof.
  unfold Verify.count_status. rewrite length_zero_iff_nil. apply filter_nil_iff.
Qed.

Lemma get_table_row_count_mysql c t :
  (Verify.get_table_row_count c t Verify.mysql).1
  = default (-1) (select_count (working c) t).
Proof.
  unfold Verify.get_table_row_count, Verify.fetch.
  by destruct (select_count (working c) t).
Qed.

Lemma get_table_row_count_usable c t :
  aborted c = false →
  (Verify.get_table_row_count c t Verify.postgresql).1
  = default (-1) (select_count (working c) t).
Proof.
  intros Hab. unfold Verify.get_table_row_count, Verify.fetch, query. rewrite Hab.
  by destruct (select_count (working c) t).
Qed.

(** On a table both existence probes find, the status is MATCH exactly when
    the two recorded counts are equal. *)
Lemma verify_table_data_match mysql_conn c t :
  Verify.table_exists mysql_conn t Verify.mysql = true →
  Verify.table_exists c t Verify.postgresql = true →
  Verify.r_status (Verify.verify_table_data mysql_conn c t).1 = Verify.MATCH
  ↔ (Verify.get_table_row_count mysql_conn t Verify.mysql).1
    = (Verify.get_table_row_count c t Verify.postgresql).1.
Proof.
  intros Hm Hp. unfold Verify.verify_table_data. rewrite Hm, Hp. cbn [negb andb].
  destruct (Verify.get_table_row_count c t Verify.postgresql) as [n c1].
  destruct (Verify.get_table_size c1 t Verify.postgresql) as [size c2].
  cbn [fst Verify.r_status].
  destruct (Z.eqb_spec (Verify.get_table_row_count mysql_conn t Verify.mysql).1 n);
    [done|].
  split; [|done]. repeat case_match; done.
Qed.

(** The statuses of a run where no probe raises. *)
Lemma checked_tables_in_run cfg mysql postgres r :
  probes_succeed mysql postgres →
  r ∈ Verify.verify_all cfg mysql postgres →
  Verify.r_status r ≠ Verify.UNKNOWN
  ∧ Verify.r_status r ≠ Verify.MISSING_BOTH
  ∧ (Verify.r_status r = Verify.MISSING_MYSQL
     ↔ relations mysql !! Verify.r_table r = None)
  ∧ (Verify.r_status r = Verify.MISSING_POSTGRES
     ↔ relations postgres !! Verify.r_table r = None).
Proof.
  intros Hok (t & Hin & ->)%verify_all_elem_usable; [|done].
  rewrite verify_table_data_table.
  destruct (verify_table_data_status (connect mysql) (connect postgres) t eq_refl)
    as (Hb & Hm & Hp).
  apply get_all_tables_exists in Hin. cbn [working connect] in *.
  split_and!.
  - apply verify_table_data_known.
  - rewrite Hb. intros [Hnm Hnp]. rewrite Hnm, Hnp in Hin.
    destruct Hin as [[? ?]|[? ?]]; done.
  - rewrite Hm. split; [tauto|]. intros Hnm. split; [done|].
    intros Hnp. rewrite Hnm, Hnp in Hin. destruct Hin as [[? ?]|[? ?]]; done.
  - rewrite Hp. split; [tauto|]. intros Hnp. split; [|done].
    intros Hnm. rewrite Hnm, Hnp in Hin. destruct Hin as [[? ?]|[? ?]]; done.
Qed.

End checked.

(** X13. In a run where no probe raises on the destination, every table the
    verification checks exists on at least one side: its status is never
    UNKNOWN or MISSING_BOTH, it is MISSING_MYSQL exactly when the source
    lacks the table, and MISSING_POSTGRES exactly when the destination lacks
    it. *)
Theorem checked_tables_exist_somewhere (cfg : config) (mysql postgres : database)
    (r : Verify.result) :
  probes_succeed mysql postgres →
  r ∈ Verify.verify_all cfg mysql postgres →
  Verify.r_status r ≠ Verify.UNKNOWN
  ∧ Verify.r_status r ≠ Verify.MISSING_BOTH
  ∧ (Verify.r_status r = Verify.MISSING_MYSQL
     ↔ relations mysql !! Verify.r_table r = None)
  ∧ (Verify.r_status r = Verify.MISSING_POSTGRES
     ↔ relations postgres !! Verify.r_table r = None).
Proof. apply checked_tables_in_run. Qed.

Lemma checked_tables_exist_somewhere_witness :
  probes_succeed ex_mysql ex_postgres
  ∧ Verify.verify_all ex_cfg ex_mysql ex_postgres !! 2%nat
    = Some (Verify.verify_table_data (connect ex_mysql) (connect ex_postgres)
              "legacy_only").1
  ∧ Verify.r_status (Verify.verify_table_data (connect ex_mysql) (connect ex_postgres)
                       "legacy_only").1
    = Verify.MISSING_POSTGRES
  ∧ relations ex_postgres !! "legacy_only" = None.
Proof.
  assert (probes_succeed ex_mysql ex_postgres) as Hok.
  { intros t _ _. apply not_elem_of_empty. }
  assert (Verify.verify_all ex_cfg ex_mysql ex_postgres !! 2%nat
          = Some (Verify.verify_table_data (connect ex_mysql) (connect ex_postgres)
                    "legacy_only").1) as Hin by (vm_compute; reflexivity).
  split_and!; [exact Hok|exact Hin| |reflexivity].
  destruct (checked_tables_exist_somewhere ex_cfg ex_mysql ex_postgres _ Hok
              (list_elem_of_lookup_2 _ _ _ Hin))
    as (_ & _ & _ & Hp).
  apply Hp. reflexivity.
Defined.

(** X14. The statistics of the printed report add up: the seven status
    counts sum to the number of checked tables, and the report has one
    detail line per checked table, one mismatch line per mismatched table
    and one name per table missing on either side.  In a run where no probe
    raises on the destination, "missing in both" is 0. *)
Theorem report_statistics_add_up (cfg : config) (mysql postgres : database) :
  let printed := (Verify.main cfg mysql postgres).1 in
  (Verify.matched_tables printed + Verify.mismatch_tables printed
   + Verify.missing_mysql_tables printed + Verify.missing_postgres_tables printed
   + Verify.missing_both_tables printed
   + Verify.empty_mysql_tables printed + Verify.empty_postgres_tables printed)%nat
  = Verify.total_tables printed
  ∧ (probes_succeed mysql postgres → Verify.missing_both_tables printed = 0%nat)
  ∧ Verify.total_tables printed
    = length (Verify.get_all_tables cfg (connect mysql) (connect postgres))
  ∧ length (Verify.detailed_report printed) = Verify.total_tables printed
  ∧ length (Verify.tables_with_mismatches printed) = Verify.mismatch_tables printed
  ∧ length (Verify.tables_missing_in_postgresql printed)
    = Verify.missing_postgres_tables printed
  ∧ length (Verify.tables_missing_in_mysql printed)
    = Verify.missing_mysql_tables printed.
Proof.
  intros printed.
  assert (printed = Verify.generate_report (Verify.verify_all cfg mysql postgres))
    as ->.
  { subst printed. unfold Verify.main.
    by destruct (Verify.mismatched_tables _). }
  pose proof (count_status_total (Verify.verify_all cfg mysql postgres)) as Htotal.
  assert (Verify.count_status Verify.UNKNOWN (Verify.verify_all cfg mysql postgres)
          = 0%nat) as Hu.
  { apply count_status_zero. intros r (c & t & ->)%verify_all_elem.
    apply verify_table_data_known. }
  unfold Verify.generate_report. cbn.
  split_and!.
  - lia.
  - intros Hok. apply count_status_zero. intros r Hr.
    by destruct (checked_tables_in_run cfg mysql postgres r Hok Hr) as (_ & ? & _).
  - apply verify_all_length.
  - by rewrite length_fmap.
  - by rewrite length_fmap.
  - by rewrite length_fmap.
  - by rewrite length_fmap.
Qed.

Lemma report_statistics_add_up_witness :
  probes_succeed ex_mysql ex_postgres
  ∧ Verify.missing_both_tables (Verify.main ex_cfg ex_mysql ex_postgres).1 = 0%nat
  ∧ Verify.total_tables (Verify.main ex_cfg ex_mysql ex_postgres).1 = 3%nat.
Proof.
  assert (probes_succeed ex_mysql ex_postgres) as Hok.
  { intros t _ _. apply not_elem_of_empty. }
  destruct (report_statistics_add_up ex_cfg ex_mysql ex_postgres)
    as (_ & Hboth & Htotal & _).
  split_and!; [exact Hok|exact (Hboth Hok)|].
  rewrite Htotal. by vm_compute.
Defined.

(** X15. The exit status agrees with the printed report: the verification
    exits with 0 exactly when the report counts no mismatched table, no table
    missing in PostgreSQL and no table empty in PostgreSQL. *)
Theorem exit_status_agrees_with_report (cfg : config) (mysql postgres : database) :
  let '(printed, code) := Verify.main cfg mysql postgres in
  code = 0 ↔
    (Verify.mismatch_tables printed + Verify.missing_postgres_tables printed
     + Verify.empty_postgres_tables printed)%nat = 0%nat.
Proof.
  unfold Verify.main.
  set (results := Verify.verify_all cfg mysql postgres).
  assert (Verify.mismatched_tables results = [] ↔
          Verify.count_status Verify.MISMATCH results = 0%nat
          ∧ Verify.count_status Verify.MISSING_POSTGRES results = 0%nat
          ∧ Verify.count_status Verify.EMPTY_POSTGRES results = 0%nat) as Hiff.
  { unfold Verify.mismatched_tables. rewrite filter_nil_iff, !count_status_zero.
    split.
    - intros Hall. split_and!; intros r Hr Heq; apply (Hall r Hr); rewrite Heq;
        repeat constructor.
    - intros (H1 & H2 & H3) r Hr Hin.
      apply elem_of_cons in Hin as [Heq|Hin]; [by apply (H1 r Hr)|].
      apply elem_of_cons in Hin as [Heq|Hin]; [by apply (H2 r Hr)|].
      apply elem_of_cons in Hin as [Heq|Hin]; [by apply (H3 r Hr)|].
      by apply elem_of_nil in Hin. }
  destruct (Verify.mismatched_tables results) as [|bad rest]; cbn.
  - split; [intros _|done]. destruct Hiff as [Hiff _].
    destruct (Hiff eq_refl) as (-> & -> & ->). done.
  - split; [done|]. intros Hsum. destruct Hiff as [_ Hiff].
    assert (bad :: rest = []) as Hcontra; [|done]. apply Hiff. lia.
Qed.

(** X16. For a table both sides list, checked on a usable transaction, the
    status is MATCH exactly when both row-count probes fail or both succeed
    with the same number of rows: one failed probe never matches a count. *)
Theorem match_means_equal_or_both_failed (mysql_conn postgres_conn : connection)
    (t : string) :
  aborted postgres_conn = false →
  relations (working mysql_conn) !! t ≠ None →
  relations (working postgres_conn) !! t ≠ None →
  Verify.r_status (Verify.verify_table_data mysql_conn postgres_conn t).1
  = Verify.MATCH
  ↔ (readable (working mysql_conn) t = None
     ∧ readable (working postgres_conn) t = None)
    ∨ (∃ rm rp, readable (working mysql_conn) t = Some rm
                ∧ readable (working postgres_conn) t = Some rp
                ∧ length (rel_rows rm) = length (rel_rows rp)).
Proof.
  intros Hab Hm Hp.
  rewrite verify_table_data_match.
  2:{ rewrite verify_table_exists_mysql.
      destruct (exists_in_tables (working mysql_conn) t) eqn:He; [done|].
      by apply exists_in_tables_false in He. }
  2:{ rewrite verify_table_exists_usable by done.
      destruct (exists_in_tables (working postgres_conn) t) eqn:He; [done|].
      by apply exists_in_tables_false in He. }
  rewrite get_table_row_count_mysql, get_table_row_count_usable by done.
  unfold select_count.
  destruct (readable (working mysql_conn) t) as [rm|],
    (readable (working postgres_conn) t) as [rp|];
    cbn [fmap option_fmap option_map default]; unfold id.
  - split.
    + intros Heq. right. exists rm, rp. split_and!; [done..|lia].
    + intros [[? _]|(rm' & rp' & [= <-] & [= <-] & Hl)]; [done|]. lia.
  - split; [lia|]. intros [[? _]|(rm' & rp' & _ & ? & _)]; done.
  - split; [lia|]. intros [[_ ?]|(rm' & rp' & ? & _)]; done.
  - split; [intros _; by left|done].
Qed.

Lemma match_means_equal_or_both_failed_witness :
  aborted (connect ex_postgres_unreadable) = false
  ∧ relations (working (connect ex_mysql_unreadable)) !! "x_user" ≠ None
  ∧ relations (working (connect ex_postgres_unreadable)) !! "x_user" ≠ None
  ∧ (Verify.r_status
       (Verify.verify_table_data (connect ex_mysql_unreadable)
          (connect ex_postgres_unreadable) "x_user").1
     = Verify.MATCH
     ↔ (readable (working (connect ex_mysql_unreadable)) "x_user" = None
        ∧ readable (working (connect ex_postgres_unreadable)) "x_user" = None)
       ∨ (∃ rm rp, readable (working (connect ex_mysql_unreadable)) "x_user" = Some rm
                   ∧ readable (working (connect ex_postgres_unreadable)) "x_user"
                     = Some rp
                   ∧ length (rel_rows rm) = length (rel_rows rp))).
Proof.
  assert (relations (working (connect ex_mysql_unreadable)) !! "x_user" ≠ None)
    as Hm by done.
  assert (relations (working (connect ex_postgres_unreadable)) !! "x_user" ≠ None)
    as Hp by done.
  split_and!; [reflexivity|exact Hm|exact Hp|].
  exact (match_means_equal_or_both_failed (connect ex_mysql_unreadable)
           (connect ex_postgres_unreadable) "x_user" eq_refl Hm Hp).
Defined.

(** X17. A transfer that the destination accepts row by row, into a table
    that was empty, verifies: checked on a fresh connection to the committed
    destination the table has status MATCH. *)
Theorem accepted_transfer_verifies (cfg : config) (mysql : database)
    (postgres_conn : connection) (t : string) (rows : list row)
    (columns : list string) (rel : relation) :
  select_all mysql t = Some rows → rows ≠ [] →
  show_columns mysql t = Some columns →
  0 < batch_size cfg →
  aborted postgres_conn = false →
  readable (working postgres_conn) t = Some rel → rel_kind rel = BASE_TABLE →
  rel_rows rel = [] →
  columns ⊆ rel_columns rel →
  Forall (λ r, length r = length columns) rows →
  (∀ held r, r ∈ Migrate.convert_data_types cfg t columns rows →
     rejects (working postgres_conn) t held
       (stored_row (rel_columns rel) columns r) = false) →
  Verify.r_status
    (Verify.verify_table_data (connect mysql)
       (connect (committed (Migrate.migrate_table_data cfg mysql postgres_conn t).2))
       t).1
  = Verify.MATCH.
Proof.
  intros Hrows Hne Hcols Hpos Hab Hr Hk Hempty Hsub Hlen Hrej.
  rewrite (migrate_table_data_accepted cfg mysql postgres_conn t rows columns rel)
    by done.
  cbn [snd committed].
  unfold select_all in Hrows.
  destruct (readable mysql t) as [rm|] eqn:Hrm; [|done].
  simpl in Hrows. injection Hrows as Hrows.
  apply verify_table_data_equal_counts.
  - rewrite verify_table_exists_mysql. unfold exists_in_tables.
    apply bool_decide_eq_true. apply readable_Some in Hrm. by eexists.
  - rewrite verify_table_exists_usable by done. unfold exists_in_tables.
    apply bool_decide_eq_true. cbn [working connect]. rewrite add_rows_lookup.
    apply readable_Some in Hr. rewrite Hr. by eexists.
  - rewrite get_table_row_count_mysql, get_table_row_count_usable by done.
    unfold select_count. cbn [working connect].
    rewrite add_rows_readable, Hrm, Hr. simpl.
    rewrite Hempty, Hrows. simpl.
    by rewrite length_fmap, convert_data_types_length.
Qed.

Lemma accepted_transfer_verifies_witness :
  Verify.r_status
    (Verify.verify_table_data (connect ex_mysql_later)
       (connect (committed (Migrate.migrate_table_data ex_cfg ex_mysql_later
                              (connect ex_postgres) "x_user").2)) "x_user").1
  = Verify.MATCH.
Proof.
  apply (accepted_transfer_verifies ex_cfg ex_mysql_later (connect ex_postgres)
           "x_user" [[VInt 1]] ["id"] (table ["id"] [])).
  - reflexivity.
  - done.
  - reflexivity.
  - reflexivity.
  - reflexivity.
  - reflexivity.
  - reflexivity.
  - reflexivity.
  - apply (bool_decide_unpack _). by vm_compute.
  - repeat constructor.
  - intros held r Hin. vm_compute in Hin.
    apply list_elem_of_In in Hin. destruct Hin as [<-|[]]. reflexivity.
Defined.

(** X23. A row-count probe that raises on the destination hides every table
    checked after it.  The call records -1 and "N/A" for the destination and
    leaves the transaction aborted; the script never ends that transaction,
    so for every later table the existence probe returns [False]: the table
    is reported as missing in PostgreSQL, or as missing in both when the
    source lacks it, whatever the destination holds. *)
Theorem failed_probe_hides_later_tables (mysql_conn postgres_conn : connection)
    (t t' : string) :
  aborted postgres_conn = false →
  is_Some (relations (working mysql_conn) !! t) →
  is_Some (relations (working postgres_conn) !! t) →
  t ∈ failing (working postgres_conn) →
  let '(r, c) := Verify.verify_table_data mysql_conn postgres_conn t in
  Verify.r_postgres_count r = -1
  ∧ Verify.r_postgres_size r = "N/A"
  ∧ aborted c = true
  ∧ working c = working postgres_conn
  ∧ let '(r', c') := Verify.verify_table_data mysql_conn c t' in
    c' = c
    ∧ Verify.r_postgres_exists r' = false
    ∧ Verify.r_status r'
      = if exists_in_tables (working mysql_conn) t'
        then Verify.MISSING_POSTGRES else Verify.MISSING_BOTH.
Proof.
  intros Hab Hm Hp Hfail.
  assert (Verify.verify_table_data mysql_conn postgres_conn t
          = (Verify.mkResult t true true
               (Verify.get_table_row_count mysql_conn t Verify.mysql).1 (-1)
               (Verify.get_table_size mysql_conn t Verify.mysql).1 "N/A"
               (if (Verify.get_table_row_count mysql_conn t Verify.mysql).1 =? -1
                then Verify.MATCH
                else if (Verify.get_table_row_count mysql_conn t Verify.mysql).1 =? 0
                     then Verify.EMPTY_MYSQL else Verify.MISMATCH),
             abort postgres_conn)) as ->.
  { unfold Verify.verify_table_data.
    rewrite verify_table_exists_mysql, (verify_table_exists_usable _ _ Hab).
    rewrite (proj2 (exists_in_tables_true _ _) Hm),
      (proj2 (exists_in_tables_true _ _) Hp). cbn [negb andb].
    assert (readable (working postgres_conn) t = None) as Hr.
    { unfold readable. by rewrite decide_True. }
    assert (Verify.get_table_row_count postgres_conn t Verify.postgresql
            = (-1, abort postgres_conn)) as ->.
    { unfold Verify.get_table_row_count, Verify.fetch, query.
      rewrite Hab. unfold select_count. by rewrite Hr. }
    assert (Verify.get_table_size (abort postgres_conn) t Verify.postgresql
            = ("N/A", abort postgres_conn)) as ->.
    { done. }
    cbv beta iota.
    destruct ((Verify.get_table_row_count mysql_conn t Verify.mysql).1 =? -1); done. }
  split_and!; [done..|].
  apply (verify_table_data_aborted mysql_conn (abort postgres_conn) t'). done.
Qed.

Lemma failed_probe_hides_later_tables_witness :
  aborted (connect ex_postgres_unreadable) = false
  ∧ is_Some (relations (working (connect ex_mysql_unreadable)) !! "x_user")
  ∧ is_Some (relations (working (connect ex_postgres_unreadable)) !! "x_user")
  ∧ "x_user" ∈ failing (working (connect ex_postgres_unreadable))
  ∧ is_Some (relations ex_postgres_unreadable !! "x_group")
  ∧ let '(r, c) := Verify.verify_table_data (connect ex_mysql_unreadable)
                     (connect ex_postgres_unreadable) "x_user" in
    let '(r', c') := Verify.verify_table_data (connect ex_mysql_unreadable) c
                       "x_group" in
    Verify.r_status r' = Verify.MISSING_POSTGRES.
Proof.
  assert (is_Some (relations (working (connect ex_mysql_unreadable)) !! "x_user"))
    as Hm by (by eexists).
  assert (is_Some (relations (working (connect ex_postgres_unreadable)) !! "x_user"))
    as Hp by (by eexists).
  assert ("x_user" ∈ failing (working (connect ex_postgres_unreadable))) as Hfail.
  { apply (bool_decide_unpack _). by vm_compute. }
  split_and!; [reflexivity|exact Hm|exact Hp|exact Hfail|by eexists|].
  pose proof (failed_probe_hides_later_tables (connect ex_mysql_unreadable)
                (connect ex_postgres_unreadable) "x_user" "x_group"
                eq_refl Hm Hp Hfail) as H.
  destruct (Verify.verify_table_data (connect ex_mysql_unreadable)
              (connect ex_postgres_unreadable) "x_user") as [r c].
  destruct H as (_ & _ & _ & _ & H).
  destruct (Verify.verify_table_data (connect ex_mysql_unreadable) c "x_group")
    as [r' c'].
  destruct H as (_ & _ & ->). reflexivity.
Defined.

(** ** A whole run *)

Section run.
Implicit Types (db : database) (c : connection) (t x : string).

Lemma grown_refl db : grown db db.
Proof.
  split; [done|]. intros x. exists [].
  destruct (relations db !! x) as [rel|]; [|done]. simpl.
  by rewrite app_nil_r, set_rows_same.
Qed.

Lemma grown_trans db0 db1 db2 : grown db0 db1 → grown db1 db2 → grown db0 db2.
Proof.
  intros [Hs1 H1] [Hs2 H2]. split; [congruence|]. intros x.
  destruct (H1 x) as [new1 Hx1]. destruct (H2 x) as [new2 Hx2].
  exists (new1 ++ new2). rewrite Hx2, Hx1.
  destruct (relations db0 !! x) as [rel|]; [|done]. simpl.
  unfold set_rows. simpl. by rewrite app_assoc.
Qed.

Lemma grown_add_rows t (new : list row) db : grown db (add_rows t new db).
Proof.
  split; [done|]. intros x. destruct (decide (x = t)) as [->|Hne].
  - exists new. apply add_rows_lookup.
  - exists []. rewrite add_rows_lookup_ne by done.
    destruct (relations db !! x) as [rel|]; [|done]. simpl.
    by rewrite app_nil_r, set_rows_same.
Qed.

Lemma grown_reshaped db0 db : grown db0 db → reshaped db0 db.
Proof.
  intros [Hs H]. split; [done|]. intros x. destruct (H x) as [new Hx].
  destruct (relations db0 !! x) as [rel|] eqn:Hrel.
  - exists (rel_rows rel ++ new). by rewrite Hx.
  - exists []. by rewrite Hx.
Qed.

Lemma reshaped_trans db0 db1 db2 :
  reshaped db0 db1 → reshaped db1 db2 → reshaped db0 db2.
Proof.
  intros [Hs1 H1] [Hs2 H2]. split; [congruence|]. intros x.
  destruct (H1 x) as [rows1 Hx1]. destruct (H2 x) as [rows2 Hx2].
  exists rows2. rewrite Hx2, Hx1. by destruct (relations db0 !! x).
Qed.

Lemma reshaped_emptied db (names : list string) : reshaped db (emptied db names).
Proof.
  split; [done|]. intros x. rewrite emptied_lookup. case_decide.
  - by exists [].
  - destruct (relations db !! x) as [rel|] eqn:Hrel.
    + exists (rel_rows rel). simpl. by rewrite set_rows_same.
    + by exists [].
Qed.

(** The transfers of a run only append rows. *)
Lemma migrate_tables_grown cfg mysql (tables : list string) : ∀ n c,
  settled c →
  grown (committed c)
    (committed (foldl (λ acc table,
                         let '(migrated_count, c) :=
                           Migrate.migrate_table_data cfg mysql acc.2 table in
                         (acc.1 + migrated_count, c)) (n, c) tables).2).
Proof.
  induction tables as [|t tables IH]; intros n c Hc; [apply grown_refl|].
  cbn [foldl]. cbn [fst snd].
  destruct (migrate_table_data_appends cfg mysql c t Hc) as (new & Heq & _).
  assert (settled (Migrate.migrate_table_data cfg mysql c t).2) as Hc'.
  { destruct (migrate_table_data_settled cfg mysql c t) as [->|]; done. }
  destruct (Migrate.migrate_table_data cfg mysql c t) as [m c']. cbn [snd] in *.
  eapply grown_trans; [|by apply IH].
  rewrite Heq. apply grown_add_rows.
Qed.

Lemma truncate_postgres_tables_reshaped cfg db :
  let c := Migrate.reset_conn (Migrate.truncate_postgres_tables cfg (connect db)) in
  settled c ∧ reshaped db (committed c).
Proof.
  destruct (truncate_loop_effect cfg (reverse (PRIORITY_TABLES_ORDER cfg))
              (Migrate.mkReset (connect db) 0 []))
    as (Hs & Hw & _); [done|].
  unfold Migrate.truncate_postgres_tables. cbn [Migrate.reset_conn].
  split; [done|]. destruct Hs as [<- _]. rewrite Hw. apply reshaped_emptied.
Qed.

Lemma load_reshaped cfg mysql postgres :
  reshaped postgres (committed (Migrate.load cfg mysql postgres).2)
  ∧ (truncate_before_insert cfg = false →
     grown postgres (committed (Migrate.load cfg mysql postgres).2)).
Proof.
  unfold Migrate.load, Migrate.migrate_tables.
  destruct (truncate_before_insert cfg).
  - destruct (truncate_postgres_tables_reshaped cfg postgres) as [Hs Hre].
    split; [|done].
    eapply reshaped_trans; [exact Hre|].
    apply grown_reshaped. by apply migrate_tables_grown.
  - assert (grown postgres
              (committed (foldl (λ acc table,
                         let '(migrated_count, c) :=
                           Migrate.migrate_table_data cfg mysql acc.2 table in
                         (acc.1 + migrated_count, c)) (0, connect postgres)
                 (Migrate.get_mysql_tables_ordered cfg mysql (connect postgres))).2))
      as Hg by (by apply (migrate_tables_grown cfg mysql _ 0 (connect postgres))).
    split; [by apply grown_reshaped|done].
Qed.

(** The last step of a run changes sequences only. *)
Lemma main_relations cfg mysql postgres :
  settled (Migrate.main cfg mysql postgres).2
  ∧ relations (committed (Migrate.main cfg mysql postgres).2)
    = relations (committed (Migrate.load cfg mysql postgres).2)
  ∧ dom (sequences (committed (Migrate.main cfg mysql postgres).2))
    = dom (sequences (committed (Migrate.load cfg mysql postgres).2)).
Proof.
  unfold Migrate.main.
  pose proof (load_settled cfg mysql postgres) as Hs.
  destruct (Migrate.load cfg mysql postgres) as [total c]. cbn [snd] in *.
  destruct (update_sequences_over_frame Migrate.sequence_mappings 0 c Hs)
    as (Hc' & Hr & _ & Hd & _).
  fold (Migrate.update_sequences_over Migrate.sequence_mappings c) in *.
  fold (Migrate.update_sequences c) in *.
  destruct (Migrate.update_sequences c) as [updated c']. cbn [snd] in *.
  split; [done|]. destruct Hc' as [<- _], Hs as [<- _]. by split.
Qed.

End run.

(** X18. A run of the migration ends with nothing pending and keeps the
    schema of the destination: it creates and drops no relation and no
    sequence, and every relation keeps its kind and its columns. *)
Theorem run_keeps_schema (cfg : config) (mysql postgres : database) :
  let c := (Migrate.main cfg mysql postgres).2 in
  settled c
  ∧ dom (relations (committed c)) = dom (relations postgres)
  ∧ dom (sequences (committed c)) = dom (sequences postgres)
  ∧ ∀ x, (rel_kind <$> relations (committed c) !! x)
         = (rel_kind <$> relations postgres !! x)
         ∧ (rel_columns <$> relations (committed c) !! x)
           = (rel_columns <$> relations postgres !! x).
Proof.
  intros c. subst c.
  destruct (main_relations cfg mysql postgres) as (Hs & Hr & Hd).
  destruct (load_reshaped cfg mysql postgres) as [[Hseq Hre] _].
  assert (∀ x, (rel_kind <$> relations (committed (Migrate.main cfg mysql postgres).2) !! x)
               = (rel_kind <$> relations postgres !! x)
               ∧ (rel_columns <$> relations (committed (Migrate.main cfg mysql postgres).2) !! x)
                 = (rel_columns <$> relations postgres !! x)) as Hx.
  { intros x. rewrite Hr. destruct (Hre x) as [rows ->].
    by destruct (relations postgres !! x). }
  split_and!; [done| |congruence|done].
  apply set_eq. intros x. rewrite !elem_of_dom.
  destruct (Hx x) as [Hk _].
  destruct (relations (committed (Migrate.main cfg mysql postgres).2) !! x),
    (relations postgres !! x); simpl in Hk; try done; split; by eauto.
Qed.

(** X19. With [truncate_before_insert] switched off a run only appends: in
    the committed destination every relation still holds the rows it had
    before the run, in front and in their order. *)
Theorem run_without_reset_only_appends (cfg : config) (mysql postgres : database)
    (x : string) :
  truncate_before_insert cfg = false →
  rows_of postgres x
  `prefix_of` rows_of (committed (Migrate.main cfg mysql postgres).2) x.
Proof.
  intros Hoff.
  destruct (main_relations cfg mysql postgres) as (_ & Hr & _).
  destruct (load_reshaped cfg mysql postgres) as [_ Hg].
  destruct (Hg Hoff) as [_ Hrows]. destruct (Hrows x) as [new Hx].
  unfold rows_of. rewrite Hr, Hx.
  destruct (relations postgres !! x); simpl; [|done]. by apply prefix_app_r.
Qed.

Lemma run_without_reset_only_appends_witness :
  truncate_before_insert (mkConfig 2 [] false true ["x_user"; "x_group"] []) = false
  ∧ rows_of ex_postgres "x_group" = [[VInt 7]]
  ∧ rows_of (committed (Migrate.main (mkConfig 2 [] false true ["x_user"; "x_group"] [])
                          ex_mysql_later ex_postgres).2) "x_group"
    = [[VInt 7]; [VInt 5]]
  ∧ rows_of ex_postgres "x_group"
    `prefix_of`
    rows_of (committed (Migrate.main (mkConfig 2 [] false true ["x_user"; "x_group"] [])
                          ex_mysql_later ex_postgres).2) "x_group".
Proof.
  split_and!; [reflexivity|reflexivity|by vm_compute|].
  apply (run_without_reset_only_appends
           (mkConfig 2 [] false true ["x_user"; "x_group"] []) ex_mysql_later
           ex_postgres "x_group").
  reflexivity.
Defined.

(** ** The statements of the reset *)

Section reset_statements.
Implicit Types (db : database) (t : string).

Lemma exists_in_tables_emptied db (names : list string) t :
  exists_in_tables (emptied db names) t = exists_in_tables db t.
Proof.
  unfold exists_in_tables. apply bool_decide_ext. rewrite emptied_lookup.
  case_decide; [|done]. by rewrite fmap_is_Some.
Qed.

Lemma truncate_table_issued cfg (st : Migrate.reset) t :
  aborted (Migrate.reset_conn st) = false →
  issued (Migrate.reset_conn (Migrate.truncate_table cfg st t))
  = issued (Migrate.reset_conn st)
    ++ reset_statements (working (Migrate.reset_conn st)) t.
Proof.
  intros Hab. rewrite truncate_table_usable by done. cbv zeta.
  unfold reset_statements.
  destruct (exists_in_tables (working (Migrate.reset_conn st)) t); simpl.
  2:{ by rewrite app_nil_r. }
  rewrite truncate_cascade_emptied.
  by destruct (truncatable (working (Migrate.reset_conn st)) t).
Qed.

Lemma truncate_loop_issued cfg (tables : list string) : ∀ st,
  settled (Migrate.reset_conn st) →
  issued (Migrate.reset_conn (foldl (Migrate.truncate_table cfg) st tables))
  = issued (Migrate.reset_conn st)
    ++ (tables ≫= reset_statements (working (Migrate.reset_conn st))).
Proof.
  induction tables as [|t tables IH]; intros st Hst.
  - simpl. by rewrite app_nil_r.
  - cbn [foldl].
    destruct (truncate_table_effect cfg st t Hst) as (Hst1 & Hw1 & _).
    rewrite (IH _ Hst1), truncate_table_issued, <-app_assoc
      by (by apply settled_usable). f_equal.
    cbn [mbind list_bind]. f_equal.
    apply list_bind_ext; [|done]. intros x. unfold reset_statements.
    by rewrite Hw1, exists_in_tables_emptied, truncatable_emptied.
Qed.

End reset_statements.

(** X20. The statements of a reset on a fresh connection, in full: for each
    entry of the reversed priority list that the destination has, the switch
    to replica and the TRUNCATE, then the switch back and a COMMIT when the
    TRUNCATE succeeds, and two ROLLBACKs and a COMMIT, without a switch back,
    when it raises; nothing is sent for a missing table. *)
Theorem reset_sends_these_statements (cfg : config) (postgres : database) :
  issued (Migrate.reset_conn (Migrate.truncate_postgres_tables cfg (connect postgres)))
  = reverse (PRIORITY_TABLES_ORDER cfg) ≫= reset_statements postgres.
Proof.
  unfold Migrate.truncate_postgres_tables. cbn [Migrate.reset_conn].
  by rewrite truncate_loop_issued.
Qed.

(** ** The row-by-row replay *)

Section replay.
Implicit Types (c : connection) (t : string) (columns : list string) (n : Z).

Lemma insert_single_trace t columns (batch : list row) : ∀ n c,
  issued (foldl (Migrate.insert_single t columns) (n, c) batch).2
  = issued c ++ (INSERT t columns <$> batch).
Proof.
  induction batch as [|r batch IH]; intros n c.
  - simpl. by rewrite app_nil_r.
  - cbn [foldl].
    assert (Migrate.insert_single t columns (n, c) r
            = let '(ok, c') := execute (INSERT t columns r) c in
              ((if ok then n + 1 else n), c')) as ->.
    { unfold Migrate.insert_single.
      by destruct (execute (INSERT t columns r) c) as [[] c']. }
    pose proof (execute_issued (INSERT t columns r) c) as Hi.
    destruct (execute (INSERT t columns r) c) as [ok c']. cbn [snd] in Hi.
    by rewrite IH, Hi, <-app_assoc.
Qed.

(** A multi-row insert that raises has sent the INSERTs up to the row that
    raised. *)
Lemma executemany_failed_trace t columns (batch : list row) : ∀ c,
  (executemany t columns batch c).1 = false →
  ∃ k : nat, (k < length batch)%nat
    ∧ issued (executemany t columns batch c).2
      = issued c ++ (INSERT t columns <$> take (S k) batch).
Proof.
  induction batch as [|r batch IH]; intros c; [done|].
  cbn [executemany].
  pose proof (execute_issued (INSERT t columns r) c) as Hi.
  destruct (execute (INSERT t columns r) c) as [[] c']; simpl in Hi.
  - intros Hf. destruct (IH c' Hf) as (k & Hk & Hik).
    exists (S k). split; [simpl; lia|].
    rewrite Hik, Hi, <-app_assoc. done.
  - intros _. exists 0%nat. split; [simpl; lia|]. cbn [snd]. by rewrite Hi.
Qed.

End replay.

(** X21. When the multi-row insert of a batch raises, the transfer sends one
    ROLLBACK and then one INSERT for every row of the batch, in order: the
    replay does not stop at a row that fails. *)
Theorem failed_batch_is_replayed_row_by_row (t : string) (columns : list string)
    (batch : list row) (n : Z) (c : connection) :
  (executemany t columns batch c).1 = false →
  ∃ k : nat, (k < length batch)%nat
    ∧ issued (Migrate.insert_batch t columns (n, c) batch).2
      = issued c ++ (INSERT t columns <$> take (S k) batch)
        ++ [ROLLBACK] ++ (INSERT t columns <$> batch).
Proof.
  intros Hf. destruct (executemany_failed_trace t columns batch c Hf) as (k & Hk & Hik).
  exists k. split; [done|]. unfold Migrate.insert_batch.
  destruct (executemany t columns batch c) as [ok c']. simpl in Hf, Hik. subst ok.
  rewrite insert_single_trace. simpl. by rewrite Hik, <-!app_assoc.
Qed.

Lemma failed_batch_is_replayed_row_by_row_witness :
  (executemany "x_user" ["id"] [[VInt 3]; [VNone]] (connect ex_postgres)).1 = false
  ∧ ∃ k : nat, (k < 2)%nat
      ∧ issued (Migrate.insert_batch "x_user" ["id"] (0, connect ex_postgres)
                  [[VInt 3]; [VNone]]).2
        = issued (connect ex_postgres)
          ++ (INSERT "x_user" ["id"] <$> take (S k) [[VInt 3]; [VNone]])
          ++ [ROLLBACK] ++ (INSERT "x_user" ["id"] <$> [[VInt 3]; [VNone]]).
Proof.
  split; [reflexivity|].
  apply (failed_batch_is_replayed_row_by_row "x_user" ["id"] [[VInt 3]; [VNone]] 0
           (connect ex_postgres)).
  reflexivity.
Defined.

(** ** A table that fits in one batch *)

Section one_batch.
Implicit Types (c : connection) (t : string) (columns : list string) (n : Z)
  (bad : row → bool).

Lemma batches_single (size : Z) (rows : list row) :
  rows ≠ [] → Z.of_nat (length rows) ≤ size → Migrate.batches size rows = [rows].
Proof.
  intros Hne Hle.
  assert (0 < length rows)%nat as Hpos by (destruct rows; [done|simpl; lia]).
  unfold Migrate.batches, Migrate.range_step.
  rewrite (proj2 (Z.ltb_ge size 0)) by lia.
  assert ((length rows + Z.to_nat size - 1) / Z.to_nat size = 1)%nat as ->.
  { symmetry. apply (Nat.div_unique _ _ 1 (length rows - 1)); lia. }
  cbn [seq fmap list_fmap]. change (0 * Z.to_nat size)%nat with 0%nat.
  rewrite drop_0, take_ge by lia. done.
Qed.

Lemma insert_row_rejected db t columns (r : row) (rel : relation) :
  readable db t = Some rel →
  rejects db t (rel_rows rel) (stored_row (rel_columns rel) columns r) = true →
  insert_row db t columns r = None.
Proof.
  intros Hr Hrej. unfold insert_row. rewrite Hr.
  destruct (rel_kind rel); [|done]. repeat case_match; congruence.
Qed.

(** In an aborted transaction every INSERT of the replay raises: no row is
    counted and the transaction stays aborted. *)
Lemma insert_single_aborted t columns (batch : list row) : ∀ n c,
  aborted c = true →
  let acc := foldl (Migrate.insert_single t columns) (n, c) batch in
  acc.1 = n ∧ committed acc.2 = committed c ∧ aborted acc.2 = true.
Proof.
  induction batch as [|r batch IH]; intros n c Hab; [done|].
  cbn [foldl]. unfold Migrate.insert_single at 2 4 6.
  rewrite execute_insert_aborted by done.
  destruct (IH n (mkConnection (committed c) (working c)
                    (issued c ++ [INSERT t columns r]) true) eq_refl)
    as (H1 & H2 & H3).
  by split_and!.
Qed.

(** The replay on a usable transaction, when the constraints of the table
    look at the row only: it counts the rows in front of the first rejected
    row, and that row aborts the transaction. *)
Lemma insert_single_row_only t columns bad (batch : list row) :
  ∀ n c (rel : relation),
  aborted c = false →
  readable (working c) t = Some rel → rel_kind rel = BASE_TABLE →
  columns ⊆ rel_columns rel →
  Forall (λ r, length r = length columns) batch →
  (∀ held r, rejects (working c) t held (stored_row (rel_columns rel) columns r)
             = bad r) →
  let acc := foldl (Migrate.insert_single t columns) (n, c) batch in
  acc.1 = n + Z.of_nat (length (accepted_prefix bad batch))
  ∧ committed acc.2 = committed c
  ∧ aborted acc.2 = existsb bad batch.
Proof.
  induction batch as [|r batch IH]; intros n c rel Hab Hr Hk Hsub Hlen Hrej.
  - simpl. split_and!; [lia|done..].
  - apply Forall_cons in Hlen as [Hlr Hlen]. cbn [foldl].
    unfold Migrate.insert_single at 2 4 6.
    rewrite execute_insert_usable by done. cbn [accepted_prefix existsb].
    destruct (bad r) eqn:Hbad.
    + rewrite (insert_row_rejected _ _ _ _ rel) by (try done; by rewrite Hrej).
      destruct (insert_single_aborted t columns batch n
                  (mkConnection (committed c) (working c)
                     (issued c ++ [INSERT t columns r]) true) eq_refl)
        as (H1 & H2 & H3).
      cbv zeta in *. rewrite H1, H2, H3. simpl. split_and!; [lia|done..].
    + rewrite (insert_row_accepted _ _ _ _ rel) by (try done; by rewrite Hrej).
      destruct (IH (n + 1)
                  (mkConnection (committed c)
                     (add_rows t [stored_row (rel_columns rel) columns r] (working c))
                     (issued c ++ [INSERT t columns r]) false)
                  (set_rows (rel_rows rel ++ [stored_row (rel_columns rel) columns r])
                     rel))
        as (H1 & H2 & H3); try done.
      { simpl. by rewrite add_rows_readable, Hr. }
      cbv zeta in *. rewrite H1, H2, H3. simpl. split_and!; [lia|done..].
Qed.

(** A multi-row insert succeeds only when no row is rejected. *)
Lemma executemany_row_only t columns bad (batch : list row) :
  ∀ c (rel : relation),
  aborted c = false →
  readable (working c) t = Some rel →
  (∀ held r, rejects (working c) t held (stored_row (rel_columns rel) columns r)
             = bad r) →
  (executemany t columns batch c).1 = true →
  existsb bad batch = false.
Proof.
  induction batch as [|r batch IH]; intros c rel Hab Hr Hrej Hok; [done|].
  cbn [executemany execute effect] in Hok.
  destruct (negb (bindable (INSERT t columns r))); [done|].
  rewrite Hab in Hok. cbn [existsb].
  destruct (bad r) eqn:Hbad.
  { rewrite (insert_row_rejected _ _ _ _ rel) in Hok by (try done; by rewrite Hrej).
    done. }
  destruct (insert_row (working c) t columns r) as [db'|] eqn:Hi; [|done].
  apply insert_row_Some in Hi as (rel' & Hr' & ->).
  assert (rel' = rel) as -> by congruence.
  refine (IH _ (set_rows (rel_rows rel ++ [stored_row (rel_columns rel) columns r])
                 rel) _ _ _ Hok).
  - done.
  - simpl. by rewrite add_rows_readable, Hr.
  - done.
Qed.

Lemma existsb_false_accepted bad (l : list row) :
  existsb bad l = false → accepted_prefix bad l = l ∧ ∀ r, r ∈ l → bad r = false.
Proof.
  induction l as [|r l IH]; intros Hno.
  - split; [done|]. by intros r ?%elem_of_nil.
  - cbn [existsb accepted_prefix] in *. apply orb_false_iff in Hno as [Hr Hl].
    destruct (IH Hl) as [Heq Hall]. rewrite Hr, Heq. split; [done|].
    intros r' [->|Hin]%elem_of_cons; [done|by apply Hall].
Qed.

End one_batch.

(** X22. All or nothing for a table that fits in one batch.  On a connection
    with nothing pending, when the destination has the table with the source
    columns and its constraints look at the row only: if no converted row is
    rejected, the transfer commits every row and returns their number; if
    some row is rejected, the transfer commits nothing, and the count it
    returns is the number of rows in front of the first rejected row.  In
    both cases it leaves nothing pending. *)
Theorem single_batch_commits_all_or_nothing (cfg : config) (mysql : database)
    (postgres_conn : connection) (t : string) (rows : list row)
    (columns : list string) (rel : relation) (bad : row → bool) :
  settled postgres_conn →
  select_all mysql t = Some rows → rows ≠ [] →
  show_columns mysql t = Some columns →
  Z.of_nat (length rows) ≤ batch_size cfg →
  readable (working postgres_conn) t = Some rel → rel_kind rel = BASE_TABLE →
  columns ⊆ rel_columns rel →
  Forall (λ r, length r = length columns) rows →
  (∀ held r, rejects (working postgres_conn) t held
               (stored_row (rel_columns rel) columns r) = bad r) →
  let converted_rows := Migrate.convert_data_types cfg t columns rows in
  let '(count, c') := Migrate.migrate_table_data cfg mysql postgres_conn t in
  settled c'
  ∧ count = Z.of_nat (length (accepted_prefix bad converted_rows))
  ∧ committed c'
    = if existsb bad converted_rows
      then committed postgres_conn
      else add_rows t (stored_row (rel_columns rel) columns <$> converted_rows)
             (committed postgres_conn).
Proof.
  intros [Hc Hab] Hrows Hne Hcols Hsize Hr Hk Hsub Hlen Hrej.
  pose proof (convert_data_types_length cfg t columns rows) as Hlength.
  pose proof (convert_data_types_widths cfg t columns rows _ Hlen) as Hwidths.
  assert (0 < length rows)%nat as Hpos by (destruct rows; [done|simpl; lia]).
  cbv zeta.
  rewrite (migrate_table_data_loop cfg mysql postgres_conn t rows columns)
    by (try done; lia).
  remember (Migrate.convert_data_types cfg t columns rows) as converted.
  unfold Migrate.insert_batches.
  rewrite batches_single by (try lia; intros ->; simpl in *; lia).
  cbn [foldl]. unfold Migrate.insert_batch.
  destruct (executemany t columns converted postgres_conn) as [ok c1] eqn:Hmany.
  destruct ok.
  - assert (existsb bad converted = false) as Hno.
    { eapply (executemany_row_only t columns bad converted postgres_conn rel);
        [done..|by rewrite Hmany]. }
    destruct (existsb_false_accepted bad converted Hno) as [Hprefix Hall].
    rewrite (executemany_accepted _ _ _ _ rel) in Hmany; try done.
    2:{ intros held r Hin. rewrite Hrej. by apply Hall. }
    injection Hmany as <-. unfold commit. cbn [fst snd aborted working committed].
    rewrite Hno, Hprefix, Hc, Z.add_0_l. by split_and!.
  - pose proof (executemany_committed t columns converted postgres_conn) as Hcm.
    rewrite Hmany in Hcm. cbn [snd] in Hcm.
    assert (existsb bad converted = true) as Hsome.
    { destruct (existsb bad converted) eqn:Hno; [done|].
      destruct (existsb_false_accepted bad converted Hno) as [_ Hall].
      rewrite (executemany_accepted _ _ _ _ rel) in Hmany; try done.
      intros held r Hin. rewrite Hrej. by apply Hall. }
    destruct (insert_single_row_only t columns bad converted 0 (rollback c1) rel)
      as (H1 & H2 & H3).
    + done.
    + simpl. by rewrite Hcm, <-Hc.
    + done.
    + done.
    + done.
    + intros held r. simpl. rewrite Hcm, <-Hc. apply Hrej.
    + destruct (foldl _ _ _) as [count c2]. cbn [fst snd] in *.
      rewrite Hsome in *. unfold commit. rewrite H3. cbn [committed].
      rewrite H1, H2. simpl. rewrite Hcm. split_and!; [done|lia|done].
Qed.

Lemma single_batch_commits_all_or_nothing_witness :
  settled (connect ex_postgres)
  ∧ Z.of_nat (length [[VInt 1]; [VInt 2]; [VInt 3]; [VNone]])
    ≤ batch_size (mkConfig 4 [] true true [] [])
  ∧ (let '(count, c') :=
       Migrate.migrate_table_data (mkConfig 4 [] true true [] []) ex_mysql
         (connect ex_postgres) "x_user" in
     settled c' ∧ count = 3 ∧ committed c' = ex_postgres).
Proof.
  assert (settled (connect ex_postgres)) as Hc by (by split).
  assert (Z.of_nat (length [[VInt 1]; [VInt 2]; [VInt 3]; [VNone]])
          ≤ batch_size (mkConfig 4 [] true true [] [])) as Hsize by (simpl; lia).
  split_and!; [exact Hc|exact Hsize|].
  refine (single_batch_commits_all_or_nothing (mkConfig 4 [] true true [] []) ex_mysql
            (connect ex_postgres) "x_user" [[VInt 1]; [VInt 2]; [VInt 3]; [VNone]]
            ["id"] (table ["id"] []) (λ r, id_not_null "x_user" [] r)
            Hc _ _ _ Hsize _ _ _ _ _).
  - reflexivity.
  - done.
  - reflexivity.
  - reflexivity.
  - reflexivity.
  - apply (bool_decide_unpack _). by vm_compute.
  - repeat constructor.
  - intros held r. destruct r as [|[] r']; reflexivity.
Defined.
